(** * A first-fit heap allocator over OS arenas (main.cpp)

    Shallow embedding of the allocator engine of [main.cpp]: arenas obtained
    from the operating system, block headers embedded in arena memory, the
    address-keyed [block_map], and the operations [align], [arena_create],
    [block_split], [block_unite], [block_alloc], [mem_alloc], [mem_free] and
    [mem_realloc].

    Target: 64-bit Windows.  [size_t] and pointers are 64-bit words (the demo
    in [main] passes the literal 99999999999999999, which needs them), and
    [sizeof(BlockHeader)] is 16: an 8-byte [size_t], three [bool]s, padding
    to the 8-byte alignment of the struct. *)

From Stdlib Require Import ZArith List Lia Bool.
From stdpp Require Import base decidable option list gmap.

Local Open Scope Z_scope.

(** ** Machine arithmetic *)

(** [size_t] and address arithmetic is arithmetic modulo 2^64. *)
Definition modulus : Z := 18446744073709551616.

Definition wrap (z : Z) : Z := z mod modulus.

(** [sizeof(BlockHeader)]. *)
Definition header_size : Z := 16.

(** [char*] arithmetic: [p + n] on a 64-bit address. *)
Definition ptr_add (p n : Z) : Z := wrap (p + n).

(** The null pointer. *)
Definition nullptr : Z := 0.

(** [size_t align(size_t size) { return (size + 3) & ~3; }]
    [~3] is the [int] -4, converted to [size_t] for the conjunction. *)
Definition align (size : Z) : Z :=
  Z.land (wrap (size + 3)) (wrap (Z.lnot 3)).

(** ** Data model *)

Module BlockHeader.
(** [struct BlockHeader { size_t size; bool is_free, is_first, is_last; }] *)
Record t : Type := mk {
  size : Z;
  is_free : bool;
  is_first : bool;
  is_last : bool
}.

(** A header read from memory the allocator never wrote: [VirtualAlloc]
    hands out zero-filled pages. *)
Definition zero : t := mk 0 false false false.

Definition with_size (v : Z) (h : t) : t :=
  mk v (is_free h) (is_first h) (is_last h).
Definition with_free (v : bool) (h : t) : t :=
  mk (size h) v (is_first h) (is_last h).
Definition with_first (v : bool) (h : t) : t :=
  mk (size h) (is_free h) v (is_last h).
Definition with_last (v : bool) (h : t) : t :=
  mk (size h) (is_free h) (is_first h) v.
End BlockHeader.

Module Arena.
(** [struct Arena { size_t size; void* base; Arena* next; }]; the [next]
    link is the tail of the list the arena sits in. *)
Record t : Type := mk {
  size : Z;
  base : Z
}.
End Arena.

(** Arena memory, seen through the headers stored in it: the header written
    at an address stays there until it is overwritten, also after its entry
    left [block_map].  Payload bytes are not modelled.  Headers at distinct
    addresses are independent cells; in every layout the operations build,
    two header addresses are at least [header_size] apart. *)
Abbreviation memory := (gmap Z BlockHeader.t).

Definition load (m : memory) (a : Z) : BlockHeader.t :=
  default BlockHeader.zero (m !! a).

Definition store (m : memory) (a : Z) (h : BlockHeader.t) : memory :=
  <[a := h]> m.

(** The globals of the allocator.  [block_map] is the
    [unordered_map<void*, BlockHeader*>]: every entry maps a header address
    to that same address, so the table is the list of its keys, in the
    order in which iteration visits them.  The standard leaves that order
    unspecified; results about the table are stated for every order. *)
Record state : Type := State {
  default_arena_size : Z;
  arena_list : list Arena.t;
  mem : memory;
  block_map : list Z
}.

Definition set_mem (m : memory) (s : state) : state :=
  State (default_arena_size s) (arena_list s) m (block_map s).

Definition set_block_map (bm : list Z) (s : state) : state :=
  State (default_arena_size s) (arena_list s) (mem s) bm.

(** [block_map.find(a) != block_map.end()] *)
Definition tracked (bm : list Z) (a : Z) : bool := bool_decide (a ∈ bm).

(** [block_map[a] = a]: a present key keeps its place; a new key goes
    somewhere in the iteration order, here to the front. *)
Definition register (bm : list Z) (a : Z) : list Z :=
  if tracked bm a then bm else a :: bm.

(** [block_map.erase(a)]: the other entries keep their relative order. *)
Definition erase (a : Z) (bm : list Z) : list Z :=
  filter (λ k, k ≠ a) bm.

(** The state before the first call, after [default_arena_size = n]. *)
Definition initial (n : Z) : state := State n [] ∅ [].

(** ** Arena Manager *)

(** [VirtualAlloc(nullptr, size, MEM_RESERVE | MEM_COMMIT, PAGE_READWRITE)]
    is a parameter of every operation that may call it: [os size] is the
    base address the provider answers with, [nullptr] when it refuses. *)
Definition provider : Type := Z → Z.

Definition arena_create (os : provider) (s : state) (size : Z)
  : state * option Arena.t :=
  let size := Z.max size (default_arena_size s) in
  let size := align size in
  let base := os size in
  if base =? nullptr then (s, None)
  else
    let arena := Arena.mk size base in
    let initial_block := BlockHeader.mk (wrap (size - header_size)) true true true in
    (State (default_arena_size s) (arena :: arena_list s)
           (store (mem s) base initial_block)
           (register (block_map s) base),
     Some arena).

(** ** Splitting *)

Definition block_split (s : state) (block size : Z) : state :=
  let size := align size in
  let m := mem s in
  if wrap (size + header_size + 4) <=? BlockHeader.size (load m block) then
    let new_block := ptr_add (ptr_add block header_size) size in
    let m := store m new_block
               (BlockHeader.with_size
                  (wrap (BlockHeader.size (load m block) - size - header_size))
                  (load m new_block)) in
    let m := store m new_block (BlockHeader.with_free true (load m new_block)) in
    let m := store m new_block (BlockHeader.with_first false (load m new_block)) in
    let m := store m new_block
               (BlockHeader.with_last (BlockHeader.is_last (load m block))
                  (load m new_block)) in
    let m := store m block (BlockHeader.with_size size (load m block)) in
    let m := store m block (BlockHeader.with_last false (load m block)) in
    State (default_arena_size s) (arena_list s) m (register (block_map s) new_block)
  else s.

(** ** Coalescing *)

(** The two writes of a merge, [block->size += sizeof(BlockHeader) +
    next_block->size] and [block->is_last = next_block->is_last]. *)
Definition merge_into (m : memory) (block next_block : Z) : memory :=
  let m := store m block
             (BlockHeader.with_size
                (wrap (BlockHeader.size (load m block)
                       + wrap (header_size + BlockHeader.size (load m next_block))))
                (load m block)) in
  store m block
    (BlockHeader.with_last (BlockHeader.is_last (load m next_block))
       (load m block)).

(** The loop of [block_unite]: [visited] are the entries before the
    iterator, [todo] starts at the entry under the iterator.  A merge erases
    the successor's entry wherever it sits and re-tests the same entry.
    Every round erases an entry or advances the iterator, so a fuel of twice
    the table's length is never exhausted.  [None]: the successor address of
    the block under the iterator is that block itself, the pass erases the
    entry its iterator points at, and C++ leaves the rest undefined. *)
Fixpoint unite_loop (fuel : nat) (m : memory) (visited todo : list Z)
  : option (memory * list Z) :=
  match todo with
  | [] => Some (m, visited)
  | block :: rest =>
    match fuel with
    | O => None
    | S fuel =>
      let h := load m block in
      let next_block :=
        ptr_add (ptr_add block header_size) (BlockHeader.size h) in
      if BlockHeader.is_free h
         && tracked (visited ++ todo) next_block
         && BlockHeader.is_free (load m next_block)
      then
        let m := merge_into m block next_block in
        if next_block =? block then None
        else unite_loop fuel m (erase next_block visited)
                        (block :: erase next_block rest)
      else unite_loop fuel m (visited ++ [block]) rest
    end
  end.

Definition block_unite (s : state) : option state :=
  match unite_loop (2 * length (block_map s)) (mem s) [] (block_map s) with
  | Some (m, bm) => Some (State (default_arena_size s) (arena_list s) m bm)
  | None => None
  end.

(** ** Block allocation *)

(** The [while] loop of [block_alloc], from the address [base] on; [limit]
    is [arena->base + arena->size] in [size_t] arithmetic.  The loop has no
    bound of its own: [fuel] counts the blocks it may visit, and [None]
    means the fuel ran out. *)
Fixpoint block_alloc_loop (fuel : nat) (s : state) (limit size base : Z)
  : option (state * Z) :=
  if base <? limit then
    match fuel with
    | O => None
    | S fuel =>
      let block := load (mem s) base in
      if BlockHeader.is_free block && (size <=? BlockHeader.size block) then
        let s := block_split s base size in
        let s := set_mem (store (mem s) base
                            (BlockHeader.with_free false (load (mem s) base))) s in
        Some (s, ptr_add base header_size)
      else
        block_alloc_loop fuel s limit size
          (ptr_add base (wrap (header_size + BlockHeader.size block)))
    end
  else Some (s, nullptr).

Definition block_alloc (fuel : nat) (s : state) (arena : Arena.t) (size : Z)
  : option (state * Z) :=
  let size := align size in
  block_alloc_loop fuel s (wrap (Arena.base arena + Arena.size arena)) size
    (Arena.base arena).

(** ** Public operations *)

(** The [for] loop of [mem_alloc] over the arena list, head first. *)
Fixpoint mem_alloc_scan (fuel : nat) (s : state) (arenas : list Arena.t) (size : Z)
  : option (state * Z) :=
  match arenas with
  | [] => Some (s, nullptr)
  | arena :: next =>
    match block_alloc fuel s arena size with
    | None => None
    | Some (s, ptr) =>
      if ptr =? nullptr then mem_alloc_scan fuel s next size
      else Some (s, ptr)
    end
  end.

Definition mem_alloc (fuel : nat) (os : provider) (s : state) (size : Z)
  : option (state * Z) :=
  if size =? 0 then Some (s, nullptr)
  else
    let size := align size in
    match mem_alloc_scan fuel s (arena_list s) size with
    | None => None
    | Some (s, ptr) =>
      if ptr =? nullptr then
        match arena_create os s (wrap (size + header_size)) with
        | (s, None) => Some (s, nullptr)
        | (s, Some new_arena) => block_alloc fuel s new_arena size
        end
      else Some (s, ptr)
    end.

(** [None]: the coalescing pass ran into undefined behaviour. *)
Definition mem_free (s : state) (ptr : Z) : option state :=
  if ptr =? nullptr then Some s
  else
    let block := wrap (ptr - header_size) in
    if tracked (block_map s) block then
      block_unite
        (set_mem (store (mem s) block
                    (BlockHeader.with_free true (load (mem s) block))) s)
    else Some s.

(** [memcpy(new_ptr, ptr, block->size)] copies payload bytes, which the
    model does not hold; it leaves no trace here. *)
Definition mem_realloc (fuel : nat) (os : provider) (s : state) (ptr size : Z)
  : option (state * Z) :=
  if ptr =? nullptr then mem_alloc fuel os s size
  else
    let size := align size in
    let block := wrap (ptr - header_size) in
    if tracked (block_map s) block then
      if size <=? BlockHeader.size (load (mem s) block) then
        Some (block_split s block size, ptr)
      else
        match mem_alloc fuel os s size with
        | None => None
        | Some (s, new_ptr) =>
          if new_ptr =? nullptr then Some (s, nullptr)
          else
            match mem_free s ptr with
            | None => None
            | Some s => Some (s, new_ptr)
            end
        end
    else Some (s, nullptr).

(** ** Notions the properties are stated with *)

(** The successor address of the block at [a]: [a + header_size + size]. *)
Definition successor (m : memory) (a : Z) : Z :=
  ptr_add (ptr_add a header_size) (BlockHeader.size (load m a)).

(** The test of [block_unite]: the block at [a] is free and the address
    right after it is a tracked block that is free as well. *)
Definition mergeable (m : memory) (bm : list Z) (a : Z) : bool :=
  BlockHeader.is_free (load m a)
  && tracked bm (successor m a)
  && BlockHeader.is_free (load m (successor m a)).

(** Invariant 4 of the data model, without its restriction to one arena: no
    tracked free block is followed by a tracked free block. *)
Definition no_adjacent_free (s : state) : Prop :=
  ∀ a, a ∈ block_map s → mergeable (mem s) (block_map s) a = false.

(** Every tracked block lies in the address space: its header and payload
    end before address arithmetic wraps around. *)
Definition in_address_space (m : memory) (bm : list Z) : Prop :=
  ∀ a, a ∈ bm →
    0 ≤ a ∧ 0 ≤ BlockHeader.size (load m a)
    ∧ a + header_size + BlockHeader.size (load m a) < modulus.

(** [arena->base + arena->size], the bound of the walks over an arena. *)
Definition arena_limit (arena : Arena.t) : Z :=
  wrap (Arena.base arena + Arena.size arena).

(** The header addresses that the walk of [block_alloc] and [mem_show]
    visits from [base] on, at most [fuel] of them. *)
Fixpoint walk (fuel : nat) (m : memory) (limit base : Z) : list Z :=
  if base <? limit then
    match fuel with
    | O => []
    | S fuel =>
      base :: walk fuel m limit
                (ptr_add base (wrap (header_size + BlockHeader.size (load m base))))
    end
  else [].

(** Whether that walk reaches the end of the arena within [fuel] blocks. *)
Fixpoint walk_ends (fuel : nat) (m : memory) (limit base : Z) : bool :=
  if base <? limit then
    match fuel with
    | O => false
    | S fuel =>
      walk_ends fuel m limit
        (ptr_add base (wrap (header_size + BlockHeader.size (load m base))))
    end
  else true.

Definition arena_blocks (fuel : nat) (m : memory) (arena : Arena.t) : list Z :=
  walk fuel m (arena_limit arena) (Arena.base arena).

Definition arena_walk_ends (fuel : nat) (m : memory) (arena : Arena.t) : bool :=
  walk_ends fuel m (arena_limit arena) (Arena.base arena).

(** Invariant 1 of the data model: the sum of [header_size + size] over the
    blocks walked from the arena's base. *)
Definition arena_sum (fuel : nat) (m : memory) (arena : Arena.t) : Z :=
  foldr (λ a acc, header_size + BlockHeader.size (load m a) + acc) 0
    (arena_blocks fuel m arena).

(** A block qualifies for a request: it is free and large enough. *)
Definition fits (m : memory) (size a : Z) : bool :=
  BlockHeader.is_free (load m a) && (size <=? BlockHeader.size (load m a)).

(** What [block_alloc] does to the block it picked: split, then mark. *)
Definition hand_out (s : state) (block size : Z) : state :=
  let s := block_split s block size in
  set_mem (store (mem s) block
             (BlockHeader.with_free false (load (mem s) block))) s.

(** First fit, in the words of the specification: arenas most recently
    created first, the blocks of each arena from its base in address order,
    the first free block whose size is at least the requested size. *)
Definition search_order (fuel : nat) (s : state) : list Z :=
  concat (map (arena_blocks fuel (mem s)) (arena_list s)).

Definition first_fit (fuel : nat) (s : state) (size : Z) : option Z :=
  find (fits (mem s) size) (search_order fuel s).

(** ** Scenarios *)

(** A provider that answers every request with the region at [base]. *)
Definition os_at (base : Z) : provider := λ _, base.

(** A provider that refuses every request. *)
Definition os_refuses : provider := λ _, nullptr.

(** Whether an operation returned the pointer [p]. *)
Definition returns (r : option (state * Z)) (p : Z) : bool :=
  match r with
  | Some (_, q) => q =? p
  | None => false
  end.

(** Three 200-byte allocations from one arena of the default size 4096,
    then a free of the middle one: the state reached and the pointers. *)
Definition three_blocks_middle_freed : option (state * (Z * Z * Z)) :=
  '(s, p1) ← mem_alloc 4 (os_at 65536) (initial 4096) 200;
  '(s, p2) ← mem_alloc 4 (os_at 65536) s 200;
  '(s, p3) ← mem_alloc 4 (os_at 65536) s 200;
  s ← mem_free s p2;
  Some (s, (p1, p2, p3)).

(** [main]'s first two calls: with the default arena size 4096,
    [mem_alloc(2000)] and then [mem_alloc(8501)], which the provider serves
    from a second region. *)
Definition alloc_2000_then_8501 : option (state * Z * Z) :=
  '(s, p0) ← mem_alloc 4 (os_at 65536) (initial 4096) 2000;
  '(s, p1) ← mem_alloc 4 (os_at 131072) s 8501;
  Some (s, p0, p1).

(** Two arenas of 65536 bytes, the second one granted right at the end of
    the first, each filled by one allocation; then the second allocation is
    freed.  The state reached and the first pointer, which is still live. *)
Definition adjacent_arenas : option (state * Z) :=
  '(s, p) ← mem_alloc 4 (os_at 65536) (initial 65536) 65520;
  '(s, q) ← mem_alloc 4 (os_at 131072) s 65520;
  s ← mem_free s q;
  Some (s, p).

(** The state an operation left behind ([initial 0] if it gave none). *)
Definition reached {A} (r : option (state * A)) : state :=
  match r with
  | Some (s, _) => s
  | None => initial 0
  end.

(** One arena of 4096 bytes cut into three free blocks, with a table that
    iterates over them out of address order. *)
Definition three_free_blocks : state :=
  State 4096 [Arena.mk 4096 65536]
    (list_to_map
       [(65536, BlockHeader.mk 200 true true false);
        (65752, BlockHeader.mk 200 true false false);
        (65968, BlockHeader.mk 3648 true false true)])
    [65968; 65536; 65752].

(** The address [a] lies in the region of [arena]. *)
Definition in_arena (arena : Arena.t) (a : Z) : Prop :=
  Arena.base arena ≤ a < Arena.base arena + Arena.size arena.

(** ** The rest of [main.cpp] *)

(** *** Checksum *)

(** [uint32_t] arithmetic is arithmetic modulo 2^32. *)
Definition modulus32 : Z := 4294967296.

(** The value of a [uint8_t]. *)
Definition byte_value (b : Byte.byte) : Z := Z.of_N (Byte.to_N b).

(** [uint32_t checksum(const void* data, size_t size)]; [bytes] are the
    [size] bytes at [data], in address order.  The accumulator is a
    [uint32_t], so every [checksum += bytes[i]] wraps. *)
Definition checksum (bytes : list Byte.byte) : Z :=
  fold_left (λ checksum b, (checksum + byte_value b) mod modulus32) bytes 0.

(** The plain sum of the bytes. *)
Definition byte_sum (bytes : list Byte.byte) : Z :=
  foldr (λ b acc, byte_value b + acc) 0 bytes.

(** *** Writes into a payload *)

(** Bytes stored over [data, data + size).  The model keeps headers, not
    payload bytes: what a store of bytes does to it is that a header read
    afterwards at an address whose sixteen bytes share one with that range
    is whatever the bytes make it, [garbled a]. *)
Definition overwrite (garbled : Z → BlockHeader.t) (m : memory) (data size : Z)
  : memory :=
  foldr (λ i m, let a := wrap (data - header_size + 1 + Z.of_nat i) in
                store m a (garbled a))
    m (seq 0 (Z.to_nat (if size =? 0 then 0 else size + header_size - 1))).

(** *** Display *)

(** One line of [mem_show]: the star of a free block, the address, and the
    four fields printed after it. *)
Record shown_block : Type := Shown {
  shown_star : bool;
  shown_at : Z;
  shown_size : Z;
  shown_busy : bool;
  shown_first : bool;
  shown_last : bool
}.

(** The line printed for the block at [base]: [Busy] is [Yes] for a block
    that is not free. *)
Definition show_block (m : memory) (base : Z) : shown_block :=
  let block := load m base in
  Shown (BlockHeader.is_free block) base (BlockHeader.size block)
        (if BlockHeader.is_free block then false else true)
        (BlockHeader.is_first block) (BlockHeader.is_last block).

(** The [while] loop of [mem_show]; [None]: it does not come to an end
    within [fuel] blocks. *)
Fixpoint mem_show_loop (fuel : nat) (m : memory) (limit base : Z)
  : option (list shown_block) :=
  if base <? limit then
    match fuel with
    | O => None
    | S fuel =>
      let block := load m base in
      match mem_show_loop fuel m limit
              (ptr_add base (wrap (header_size + BlockHeader.size block))) with
      | None => None
      | Some lines => Some (show_block m base :: lines)
      end
    end
  else Some [].

(** The [for] loop of [mem_show]: per arena the size printed in its heading
    and the lines of its blocks. *)
Fixpoint mem_show_arenas (fuel : nat) (m : memory) (arenas : list Arena.t)
  : option (list (Z * list shown_block)) :=
  match arenas with
  | [] => Some []
  | arena :: next =>
    match mem_show_loop fuel m (wrap (Arena.base arena + Arena.size arena))
            (Arena.base arena) with
    | None => None
    | Some lines =>
      match mem_show_arenas fuel m next with
      | None => None
      | Some shown => Some ((Arena.size arena, lines) :: shown)
      end
    end
  end.

(** [mem_show()], as the lines it prints; the closing rule is left out. *)
Definition mem_show (fuel : nat) (s : state)
  : option (list (Z * list shown_block)) :=
  mem_show_arenas fuel (mem s) (arena_list s).

(** *** The test driver *)

(** [rand()]: the value of its k-th call after [srand], an [int] between 0
    and [RAND_MAX]. *)
Definition rand_source : Type := nat → Z.

(** The bytes [random_input] stores: the low byte of each of [size] calls
    of [rand()], from call [k] on. *)
Definition random_bytes (rand : rand_source) (k : nat) (size : Z) : list Z :=
  map (λ i, rand (k + i)%nat mod 256) (seq 0 (Z.to_nat size)).

(** How bytes stored in memory read back as headers, which the model leaves
    open: [garbled data bytes m a] is the header read at [a] after [bytes]
    were stored from [data] on over the memory [m]. *)
Definition garbling : Type := Z → list Z → memory → Z → BlockHeader.t.

(** [random_input(data, size)]: [size] calls of [rand()], their low bytes
    stored from [data] on.  [k] counts the calls of [rand()] made so far. *)
Definition random_input (rand : rand_source) (garbled : garbling)
    (k : nat) (m : memory) (data size : Z) : memory * nat :=
  (overwrite (garbled data (random_bytes rand k size) m) m data size,
   (k + Z.to_nat size)%nat).

(** The globals, the vector [allocations] and the count of [rand()] calls. *)
Definition tester_state : Type := state * list Z * nat.

(** The [switch] of one iteration.  The provider may answer by the state it
    is asked in.  [None]: [rand() % max_block_size] with [max_block_size]
    zero, or a call that does not return. *)
Definition tester_step (fuel : nat) (os : state → provider) (rand : rand_source)
    (garbled : garbling) (max_block_size : Z)
    (st : tester_state) : option tester_state :=
  let '(s, allocations, k) := st in
  let operation := rand k mod 3 in
  let k := S k in
  if operation =? 0 then
    if max_block_size =? 0 then None
    else
      let size := wrap (rand k mod max_block_size + 1) in
      let k := S k in
      match mem_alloc fuel (os s) s size with
      | None => None
      | Some (s, ptr) =>
        if ptr =? nullptr then Some (s, allocations, k)
        else
          let '(m, k) := random_input rand garbled k (mem s) ptr size in
          Some (set_mem m s, allocations ++ [ptr], k)
      end
  else if operation =? 1 then
    match allocations with
    | [] => Some (s, allocations, k)
    | _ =>
      let index := Z.to_nat (rand k mod Z.of_nat (length allocations)) in
      let k := S k in
      match allocations !! index with
      | None => None
      | Some ptr =>
        match mem_free s ptr with
        | None => None
        | Some s => Some (s, delete index allocations, k)
        end
      end
    end
  else if operation =? 2 then
    match allocations with
    | [] => Some (s, allocations, k)
    | _ =>
      let index := Z.to_nat (rand k mod Z.of_nat (length allocations)) in
      let k := S k in
      match allocations !! index with
      | None => None
      | Some ptr =>
        if max_block_size =? 0 then None
        else
          let new_size := wrap (rand k mod max_block_size + 1) in
          let k := S k in
          match mem_realloc fuel (os s) s ptr new_size with
          | None => None
          | Some (s, new_ptr) =>
            if new_ptr =? nullptr then Some (s, allocations, k)
            else
              let '(m, k) :=
                random_input rand garbled k (mem s) new_ptr new_size in
              Some (set_mem m s, <[index := new_ptr]> allocations, k)
          end
      end
    end
  else Some (s, allocations, k).

(** The first [for] loop: an operation, then [mem_show()]. *)
Fixpoint tester_loop (fuel : nat) (os : state → provider) (rand : rand_source)
    (garbled : garbling) (max_block_size : Z)
    (iterations : nat) (st : tester_state) : option tester_state :=
  match iterations with
  | O => Some st
  | S iterations =>
    match tester_step fuel os rand garbled max_block_size st with
    | None => None
    | Some st =>
      match mem_show fuel (fst (fst st)) with
      | None => None
      | Some _ =>
        tester_loop fuel os rand garbled max_block_size iterations st
      end
    end
  end.

(** The last loop: [for (void* ptr : allocations) mem_free(ptr);]. *)
Fixpoint free_all (s : state) (allocations : list Z) : option state :=
  match allocations with
  | [] => Some s
  | ptr :: rest =>
    match mem_free s ptr with
    | None => None
    | Some s => free_all s rest
    end
  end.

(** [tester(iterations, max_block_size)], from the globals [s] on: the
    default arena size is set, the loop runs, and every pointer left in
    [allocations] is freed.  The unused vector [arenas] and the output are
    left out. *)
Definition tester (fuel : nat) (os : state → provider) (rand : rand_source)
    (garbled : garbling) (iterations : nat) (max_block_size : Z)
    (s : state) : option state :=
  let s := State 4096 (arena_list s) (mem s) (block_map s) in
  match tester_loop fuel os rand garbled max_block_size iterations
          (s, [], 0%nat) with
  | None => None
  | Some (s, allocations, _) => free_all s allocations
  end.

(** ** Well-formed layouts *)

(** The bytes a table accounts for: header and payload of every entry. *)
Definition table_bytes (m : memory) (bm : list Z) : Z :=
  foldr (λ a acc, header_size + BlockHeader.size (load m a) + acc) 0 bm.

(** The address right after the block at [a], without wrap-around. *)
Definition block_end (m : memory) (a : Z) : Z :=
  a + header_size + BlockHeader.size (load m a).

(** The header at [a] is that of a block of the arena from [base] to
    [limit]: it ends inside the arena, and its flags tell whether it is the
    arena's first and last block. *)
Definition block_ok (m : memory) (base limit a : Z) : Prop :=
  0 ≤ BlockHeader.size (load m a)
  ∧ block_end m a ≤ limit
  ∧ BlockHeader.is_first (load m a) = bool_decide (a = base)
  ∧ BlockHeader.is_last (load m a) = bool_decide (block_end m a = limit).

(** The blocks [blocks] lie back to back from [a] to [target]. *)
Fixpoint leads (m : memory) (base limit a : Z) (blocks : list Z) (target : Z)
  : Prop :=
  match blocks with
  | [] => a = target
  | b :: rest =>
    b = a ∧ block_ok m base limit a
    ∧ leads m base limit (block_end m a) rest target
  end.

(** The blocks [blocks] tile [arena]: they lie back to back from its base to
    its end.  The arena lies in the address space, above the null page. *)
Definition arena_tiled (m : memory) (arena : Arena.t) (blocks : list Z) : Prop :=
  header_size ≤ Arena.base arena
  ∧ Arena.base arena + Arena.size arena < modulus
  ∧ leads m (Arena.base arena) (Arena.base arena + Arena.size arena)
      (Arena.base arena) blocks (Arena.base arena + Arena.size arena).

(** Two arenas neither overlap nor touch. *)
Definition apart (a1 a2 : Arena.t) : Prop :=
  Arena.base a1 + Arena.size a1 < Arena.base a2
  ∨ Arena.base a2 + Arena.size a2 < Arena.base a1.

(** The invariants of the data model: the arenas are apart from each other,
    every arena is tiled by blocks, and the table holds exactly the blocks
    of the tilings. *)
Definition layout (arenas : list Arena.t) (m : memory) (table : list Z) : Prop :=
  (∀ a1 a2, a1 ∈ arenas → a2 ∈ arenas → a1 ≠ a2 → apart a1 a2)
  ∧ (∀ ar, ar ∈ arenas → ∃ blocks, arena_tiled m ar blocks)
  ∧ (∀ a, a ∈ table ↔
          ∃ ar blocks, ar ∈ arenas ∧ arena_tiled m ar blocks ∧ a ∈ blocks).

(** The layout of the allocator's globals. *)
Definition well_formed (s : state) : Prop :=
  layout (arena_list s) (mem s) (block_map s).

(** Size and flags, the part of a header a tiling depends on. *)
Definition same_shape (h h' : BlockHeader.t) : Prop :=
  BlockHeader.size h = BlockHeader.size h'
  ∧ BlockHeader.is_first h = BlockHeader.is_first h'
  ∧ BlockHeader.is_last h = BlockHeader.is_last h'.

(** A region the provider grants for a new arena of [asize] bytes: above
    the null page, inside the address space, apart from every arena. *)
Definition fresh_region (s : state) (base asize : Z) : Prop :=
  header_size ≤ base
  ∧ base + asize < modulus
  ∧ ∀ ar, ar ∈ arena_list s → apart (Arena.mk asize base) ar.

(** A tracked block that is handed out. *)
Definition live (s : state) (a : Z) : Prop :=
  a ∈ block_map s ∧ BlockHeader.is_free (load (mem s) a) = false.

(** What the driver keeps between its iterations: the layout, the table
    within [bound] entries, and [allocations] naming the live blocks, each
    once. *)
Definition tester_inv (bound : nat) (st : tester_state) : Prop :=
  let '(s, allocations, _) := st in
  well_formed s
  ∧ default_arena_size s = 4096
  ∧ (length (block_map s) ≤ bound)%nat
  ∧ NoDup allocations
  ∧ (∀ p, p ∈ allocations →
          2 * header_size ≤ p < modulus ∧ live s (p - header_size))
  ∧ (∀ a, live s a → a + header_size ∈ allocations)
  ∧ (allocations = [] → no_adjacent_free s).

(** ** Checking a layout by evaluation *)

#[global] Instance arena_eq_dec : EqDecision Arena.t.
Proof. solve_decision. Defined.

(** [block_ok], [leads], [arena_tiled] and [apart] as tests. *)
Definition block_ok_check (m : memory) (base limit a : Z) : bool :=
  (0 <=? BlockHeader.size (load m a))
  && (block_end m a <=? limit)
  && bool_decide (BlockHeader.is_first (load m a) = bool_decide (a = base))
  && bool_decide (BlockHeader.is_last (load m a)
                  = bool_decide (block_end m a = limit)).

Fixpoint leads_check (m : memory) (base limit a : Z) (blocks : list Z)
    (target : Z) : bool :=
  match blocks with
  | [] => a =? target
  | b :: rest =>
    (b =? a) && block_ok_check m base limit a
    && leads_check m base limit (block_end m a) rest target
  end.

Definition arena_tiled_check (m : memory) (arena : Arena.t) (blocks : list Z)
  : bool :=
  (header_size <=? Arena.base arena)
  && (Arena.base arena + Arena.size arena <? modulus)
  && leads_check m (Arena.base arena) (Arena.base arena + Arena.size arena)
       (Arena.base arena) blocks (Arena.base arena + Arena.size arena).

Definition apart_check (a1 a2 : Arena.t) : bool :=
  (Arena.base a1 + Arena.size a1 <? Arena.base a2)
  || (Arena.base a2 + Arena.size a2 <? Arena.base a1).

(** The layout of a state, decided by walking every arena with [fuel]. *)
Definition well_formed_check (fuel : nat) (s : state) : bool :=
  forallb (λ ar, forallb (λ ar', bool_decide (ar = ar') || apart_check ar ar')
                   (arena_list s)) (arena_list s)
  && forallb (λ ar, arena_tiled_check (mem s) ar (arena_blocks fuel (mem s) ar))
       (arena_list s)
  && forallb (λ a, existsb (λ ar, tracked (arena_blocks fuel (mem s) ar) a)
                     (arena_list s)) (block_map s)
  && forallb (λ ar, forallb (tracked (block_map s))
                      (arena_blocks fuel (mem s) ar)) (arena_list s).

(** [fresh_region] as a test. *)
Definition fresh_region_check (s : state) (base asize : Z) : bool :=
  (header_size <=? base) && (base + asize <? modulus)
  && forallb (apart_check (Arena.mk asize base)) (arena_list s).

(** [in_address_space] as a test. *)
Definition in_address_space_check (m : memory) (bm : list Z) : bool :=
  forallb (λ a, (0 <=? a) && (0 <=? BlockHeader.size (load m a))
                && (a + header_size + BlockHeader.size (load m a) <? modulus))
    bm.

(** ** More scenarios *)

(** A provider that answers with the region right above every arena there
    is, one byte apart, as long as the address space has room. *)
Definition os_above (s : state) : provider := λ size,
  let top := foldr (λ ar top, Z.max top (Arena.base ar + Arena.size ar))
               65535 (arena_list s) in
  if top + 1 + size <? modulus then top + 1 else nullptr.

(** Scenario: a sequence of [rand()] values. *)
Definition sample_rand : rand_source :=
  λ k, (Z.of_nat k * 7919 + 13) mod 32768.

(** * Properties *)

#[global] Arguments wrap : simpl never.
#[global] Arguments ptr_add : simpl never.
#[global] Arguments align : simpl never.
#[global] Arguments load : simpl never.
#[global] Arguments store : simpl never.
#[global] Arguments block_split : simpl never.
#[global] Arguments hand_out : simpl never.

(** Proves [Forall P l] for a closed list [l] whose elements satisfy [P] by
    evaluation. *)
Ltac forall_by_computation :=
  match goal with
  | |- Forall ?P ?l =>
    let l' := eval vm_compute in l in
    replace l with l' by (vm_compute; reflexivity)
  end;
  repeat (constructor; [vm_compute; first [reflexivity | discriminate]|]);
  constructor.

(** ** Words and alignment *)

Lemma wrap_range z : 0 ≤ wrap z < modulus.
Proof. unfold wrap, modulus. apply Z.mod_pos_bound. lia. Qed.

Lemma wrap_small z : 0 ≤ z < modulus → wrap z = z.
Proof. unfold wrap. intros. apply Z.mod_small. lia. Qed.

Lemma mask_land x :
  0 ≤ x < modulus → Z.land x (wrap (Z.lnot 3)) = 4 * (x / 4).
Proof.
  intros Hx.
  replace (wrap (Z.lnot 3)) with (Z.ldiff (Z.ones 64) (Z.ones 2)) by reflexivity.
  assert (Z.land x (Z.ldiff (Z.ones 64) (Z.ones 2)) = Z.ldiff x (Z.ones 2)) as ->.
  { apply Z.bits_inj'. intros i Hi.
    rewrite Z.land_spec, !Z.ldiff_spec.
    destruct (Z.ltb_spec i 64).
    - rewrite (Z.ones_spec_low 64) by lia. reflexivity.
    - rewrite (Z.ones_spec_high 64) by lia.
      rewrite (Z.bits_above_log2 x i); [reflexivity | lia |].
      destruct (Z.eq_dec x 0) as [->|]; [simpl; lia|].
      apply Z.lt_le_trans with 64; [|lia].
      apply Z.log2_lt_pow2; [lia|]. unfold modulus in Hx. simpl. lia. }
  rewrite Z.ldiff_ones_r by lia.
  rewrite Z.shiftr_div_pow2, Z.shiftl_mul_pow2 by lia.
  change (2 ^ 2) with 4. lia.
Qed.

Lemma align_eq size : align size = 4 * (wrap (size + 3) / 4).
Proof. unfold align. apply mask_land, wrap_range. Qed.

Lemma div4_bounds x : 4 * (x / 4) ≤ x < 4 * (x / 4) + 4.
Proof.
  pose proof (Z.div_mod x 4 ltac:(lia)).
  pose proof (Z.mod_pos_bound x 4 ltac:(lia)). lia.
Qed.

Lemma align_range size : 0 ≤ align size ≤ modulus - 4.
Proof.
  rewrite align_eq. pose proof (wrap_range (size + 3)) as H.
  pose proof (div4_bounds (wrap (size + 3))).
  assert (wrap (size + 3) / 4 < modulus / 4)
    by (apply Z.div_lt_upper_bound; [lia | change (4 * (modulus / 4)) with modulus; lia]).
  change (modulus / 4) with 4611686018427387904 in *.
  unfold modulus. lia.
Qed.

(** Without overflow, [align] rounds up to the next multiple of 4. *)
Lemma align_round_up size :
  0 ≤ size ≤ modulus - 4 →
  size ≤ align size < size + 4 ∧ align size mod 4 = 0.
Proof.
  intros H. rewrite align_eq, wrap_small by (unfold modulus in *; lia).
  pose proof (div4_bounds (size + 3)).
  split; [lia|]. rewrite Z.mul_comm. apply Z.mod_mul. lia.
Qed.

(** The three largest sizes overflow: their aligned value is 0. *)
Lemma align_overflow size :
  modulus - 3 ≤ size < modulus → align size = 0.
Proof.
  intros H. rewrite align_eq. unfold wrap.
  replace (size + 3) with ((size + 3 - modulus) + 1 * modulus) by lia.
  rewrite Z.mod_add by (unfold modulus; lia).
  rewrite Z.mod_small by (unfold modulus in *; lia).
  assert (0 ≤ size + 3 - modulus < 4) as Hs by lia.
  rewrite Z.div_small by exact Hs. reflexivity.
Qed.

Lemma align_idem size : align (align size) = align size.
Proof.
  pose proof (align_range size) as Hr.
  rewrite (align_eq (align size)).
  rewrite wrap_small by (unfold modulus in *; lia).
  pose proof (div4_bounds (align size + 3)).
  assert (align size mod 4 = 0) as Hm
    by (rewrite align_eq, Z.mul_comm; apply Z.mod_mul; lia).
  pose proof (Z.div_mod (align size) 4 ltac:(lia)).
  assert ((align size + 3) / 4 = align size / 4) as ->; [|lia].
  symmetry. apply Z.div_unique with (r := 3); lia.
Qed.

(** ** Memory *)

Lemma load_store_eq m a h : load (store m a h) a = h.
Proof. unfold load, store. by rewrite lookup_insert_eq. Qed.

Lemma load_store_ne m a b h : a ≠ b → load (store m a h) b = load m b.
Proof. intros. unfold load, store. by rewrite lookup_insert_ne. Qed.

Lemma load_store m a b h :
  load (store m a h) b = if decide (a = b) then h else load m b.
Proof.
  destruct (decide (a = b)) as [->|]; [apply load_store_eq | by apply load_store_ne].
Qed.

Lemma tracked_true bm a : tracked bm a = true ↔ a ∈ bm.
Proof. unfold tracked. apply bool_decide_eq_true. Qed.

Lemma tracked_false bm a : tracked bm a = false ↔ a ∉ bm.
Proof. unfold tracked. apply bool_decide_eq_false. Qed.

Lemma elem_of_erase a b bm : a ∈ erase b bm ↔ a ≠ b ∧ a ∈ bm.
Proof. unfold erase. by rewrite list_elem_of_filter. Qed.

Lemma elem_of_register a b bm : a ∈ register bm b ↔ a = b ∨ a ∈ bm.
Proof.
  unfold register. destruct (tracked bm b) eqn:E.
  - apply tracked_true in E. split; [auto|]. intros [->|]; auto.
  - apply elem_of_cons.
Qed.

(** ** Coalescing *)

Lemma merge_into_other m block next_block a :
  a ≠ block → load (merge_into m block next_block) a = load m a.
Proof.
  intros Ha. unfold merge_into. rewrite !load_store_ne by done. reflexivity.
Qed.

Lemma merge_into_is_free m block next_block a :
  BlockHeader.is_free (load (merge_into m block next_block) a)
  = BlockHeader.is_free (load m a).
Proof.
  destruct (decide (a = block)) as [->|Ha].
  - unfold merge_into. rewrite !load_store_eq. reflexivity.
  - by rewrite merge_into_other.
Qed.

Lemma mergeable_successor m bm a :
  mergeable m bm a = true ↔
  BlockHeader.is_free (load m a) = true
  ∧ successor m a ∈ bm
  ∧ BlockHeader.is_free (load m (successor m a)) = true.
Proof.
  unfold mergeable. rewrite !andb_true_iff, tracked_true. tauto.
Qed.

Lemma unite_loop_step fuel m visited block rest :
  unite_loop (S fuel) m visited (block :: rest) =
  if mergeable m (visited ++ block :: rest) block then
    if successor m block =? block then None
    else unite_loop fuel (merge_into m block (successor m block))
           (erase (successor m block) visited)
           (block :: erase (successor m block) rest)
  else unite_loop fuel m (visited ++ [block]) rest.
Proof. reflexivity. Qed.

(** Blocks the iterator has passed stay settled: nothing later in the pass
    gives them a free tracked successor. *)
Lemma unite_loop_settles fuel : ∀ m visited todo m' bm',
  unite_loop fuel m visited todo = Some (m', bm') →
  (∀ a, a ∈ visited → a ∉ todo → mergeable m (visited ++ todo) a = false) →
  ∀ a, a ∈ bm' → mergeable m' bm' a = false.
Proof.
  induction fuel as [|fuel IH]; intros m visited todo m' bm' Hrun Hinv.
  - destruct todo; [|discriminate]. simpl in Hrun. simplify_eq.
    intros a Ha. specialize (Hinv a Ha). rewrite app_nil_r in Hinv.
    apply Hinv. apply not_elem_of_nil.
  - destruct todo as [|block rest].
    { simpl in Hrun. simplify_eq. intros a Ha. specialize (Hinv a Ha).
      rewrite app_nil_r in Hinv. apply Hinv. apply not_elem_of_nil. }
    rewrite unite_loop_step in Hrun.
    destruct (mergeable m (visited ++ block :: rest) block) eqn:Hm.
    + destruct (successor m block =? block) eqn:Hself; [discriminate|].
      apply Z.eqb_neq in Hself.
      eapply IH; [exact Hrun|]. clear Hrun IH.
      set (nx := successor m block) in *.
      intros a Ha Hnot.
      apply elem_of_erase in Ha as [Hanx Hav].
      assert (a ≠ block) as Hab by (intros ->; apply Hnot; set_solver).
      assert (a ∉ block :: rest) as Hnt.
      { intros [->|Hin]%elem_of_cons; [done|].
        apply Hnot. apply elem_of_cons. right. by apply elem_of_erase. }
      specialize (Hinv a Hav Hnt).
      apply not_true_iff_false. intros Hc. apply not_true_iff_false in Hinv.
      apply Hinv. apply mergeable_successor in Hc as (Hf & Htr & Hnf).
      unfold successor in *. rewrite (merge_into_other _ _ _ a) in Hf, Htr, Hnf by done.
      rewrite merge_into_is_free in Hnf.
      apply mergeable_successor. unfold successor. split_and!; [done| |done].
      apply elem_of_app in Htr as [Htr|Htr].
      * apply elem_of_app. left. by apply elem_of_erase in Htr as [_ ?].
      * apply elem_of_app. right.
        apply elem_of_cons in Htr as [->|Htr]; apply elem_of_cons; [by left|right].
        by apply elem_of_erase in Htr as [_ ?].
    + eapply IH; [exact Hrun|]. clear Hrun IH.
      intros a Ha Hnot. rewrite <- app_assoc. simpl.
      destruct (decide (a = block)) as [->|Hab]; [done|].
      apply Hinv.
      * apply elem_of_app in Ha as [?|Ha]; [done|].
        apply list_elem_of_singleton in Ha. done.
      * intros [->|?]%elem_of_cons; done.
Qed.

(** On a table without a mergeable block the loop only advances. *)
Lemma unite_loop_stable m : ∀ todo fuel visited,
  (∀ a, a ∈ todo → mergeable m (visited ++ todo) a = false) →
  (length todo ≤ fuel)%nat →
  unite_loop fuel m visited todo = Some (m, visited ++ todo).
Proof.
  induction todo as [|block rest IH]; intros fuel visited Hno Hfuel.
  - destruct fuel; simpl; by rewrite app_nil_r.
  - destruct fuel as [|fuel]; [simpl in Hfuel; lia|].
    rewrite unite_loop_step, (Hno block) by set_solver.
    rewrite IH.
    + by rewrite <- app_assoc.
    + intros a Ha. rewrite <- app_assoc. simpl. apply Hno. set_solver.
    + simpl in Hfuel. lia.
Qed.

Lemma block_unite_fixpoint s :
  no_adjacent_free s → block_unite s = Some s.
Proof.
  intros Hno. unfold block_unite.
  rewrite (unite_loop_stable (mem s) (block_map s)); [by destruct s| |lia].
  intros a Ha. by apply Hno.
Qed.

Lemma block_unite_settles s s1 :
  block_unite s = Some s1 → no_adjacent_free s1.
Proof.
  unfold block_unite. intros H.
  destruct (unite_loop _ _ _ _) as [[m' bm']|] eqn:Hrun; [|discriminate].
  simplify_eq. intros a Ha. simpl in *.
  eapply unite_loop_settles; [exact Hrun| |exact Ha].
  intros b Hb. by apply elem_of_nil in Hb.
Qed.

Lemma load_merge_into_block m block next_block :
  next_block ≠ block →
  load (merge_into m block next_block) block =
  BlockHeader.mk
    (wrap (BlockHeader.size (load m block)
           + wrap (header_size + BlockHeader.size (load m next_block))))
    (BlockHeader.is_free (load m block))
    (BlockHeader.is_first (load m block))
    (BlockHeader.is_last (load m next_block)).
Proof.
  intros Hne. unfold merge_into.
  rewrite !load_store_eq, (load_store_ne _ block next_block) by done.
  reflexivity.
Qed.

Lemma successor_in_space m bm a :
  in_address_space m bm → a ∈ bm →
  successor m a = a + header_size + BlockHeader.size (load m a).
Proof.
  intros Hsp Ha. destruct (Hsp a Ha) as (H0 & Hs & Hend).
  unfold successor, ptr_add, header_size in *.
  rewrite (wrap_small (a + 16)) by lia. apply wrap_small. lia.
Qed.

Lemma length_erase_le a bm : (length (erase a bm) ≤ length bm)%nat.
Proof. apply length_filter. Qed.

Lemma length_erase_lt a bm : a ∈ bm → (length (erase a bm) < length bm)%nat.
Proof. intros Ha. eapply length_filter_lt; [exact Ha|]. by intros []. Qed.

(** In the address space no block is its own successor, and the fuel of
    [block_unite] is enough: the pass is defined. *)
Lemma unite_loop_total fuel : ∀ m visited todo,
  in_address_space m (visited ++ todo) →
  (length visited + 2 * length todo ≤ fuel)%nat →
  is_Some (unite_loop fuel m visited todo).
Proof.
  induction fuel as [|fuel IH]; intros m visited todo Hsp Hfuel.
  - destruct todo; [by eexists|]. simpl in Hfuel. lia.
  - destruct todo as [|block rest]; [by eexists|].
    rewrite unite_loop_step.
    destruct (mergeable m (visited ++ block :: rest) block) eqn:Hm.
    + apply mergeable_successor in Hm as (Hf & Htr & Hnf).
      assert (block ∈ visited ++ block :: rest) as Hb
        by (apply elem_of_app; right; apply elem_of_cons; by left).
      pose proof (successor_in_space _ _ _ Hsp Hb) as Hsucc.
      destruct (Hsp _ Hb) as (Hb0 & Hbs & Hbe).
      destruct (Hsp _ Htr) as (Hn0 & Hns & Hne).
      set (nx := successor m block) in *.
      assert (nx ≠ block) as Hneq by (unfold header_size in *; lia).
      apply Z.eqb_neq in Hneq as Hneqb. rewrite Hneqb.
      apply IH.
      * intros a Ha.
        assert (a ≠ nx ∧ a ∈ visited ++ block :: rest) as [Hanx Hain].
        { rewrite elem_of_app, elem_of_cons, !elem_of_erase in Ha.
          rewrite elem_of_app, elem_of_cons. intuition congruence. }
        destruct (decide (a = block)) as [->|Hab].
        -- rewrite load_merge_into_block by done. simpl.
           unfold header_size in *.
           rewrite (wrap_small (16 + _)) by lia.
           rewrite wrap_small by lia. lia.
        -- rewrite merge_into_other by done. by apply Hsp.
      * simpl in *.
        pose proof (length_erase_le nx visited).
        pose proof (length_erase_le nx rest).
        apply elem_of_app in Htr as [Htr|Htr].
        -- pose proof (length_erase_lt _ _ Htr). lia.
        -- apply elem_of_cons in Htr as [?|Htr]; [done|].
           pose proof (length_erase_lt _ _ Htr). lia.
    + apply IH.
      * by rewrite <- app_assoc.
      * rewrite length_app. simpl in *. lia.
Qed.

Lemma block_unite_total s :
  in_address_space (mem s) (block_map s) → is_Some (block_unite s).
Proof.
  intros Hsp. unfold block_unite.
  destruct (unite_loop_total (2 * length (block_map s)) (mem s) [] (block_map s))
    as [[m bm] ->]; [done|simpl; lia|by eexists].
Qed.

(** The pass never touches [is_free], and keeps every memory cell. *)
Lemma merge_into_lookup m block next_block a h :
  m !! a = Some h →
  ∃ h', merge_into m block next_block !! a = Some h'
        ∧ BlockHeader.is_free h' = BlockHeader.is_free h.
Proof.
  intros Hl. pose proof (merge_into_is_free m block next_block a) as Hf.
  unfold load in Hf. rewrite Hl in Hf. simpl in Hf.
  destruct (decide (a = block)) as [->|Hne].
  - unfold merge_into, store in *. rewrite lookup_insert_eq in *. eauto.
  - unfold merge_into, store in *. rewrite !lookup_insert_ne in * by done.
    eauto.
Qed.

Lemma unite_loop_lookup fuel : ∀ m visited todo m' bm' a h,
  unite_loop fuel m visited todo = Some (m', bm') →
  m !! a = Some h →
  ∃ h', m' !! a = Some h' ∧ BlockHeader.is_free h' = BlockHeader.is_free h.
Proof.
  induction fuel as [|fuel IH]; intros m visited todo m' bm' a h Hrun Hl.
  - destruct todo; [|discriminate]. simpl in Hrun. simplify_eq. eauto.
  - destruct todo as [|block rest]; [simpl in Hrun; simplify_eq; eauto|].
    rewrite unite_loop_step in Hrun.
    destruct (mergeable m (visited ++ block :: rest) block).
    + destruct (successor m block =? block); [discriminate|].
      destruct (merge_into_lookup m block (successor m block) a h Hl)
        as (h1 & Hl1 & Hf1).
      destruct (IH _ _ _ _ _ _ _ Hrun Hl1) as (h2 & Hl2 & Hf2).
      exists h2. split; [done|congruence].
    + eauto.
Qed.

Lemma unite_loop_subset fuel : ∀ m visited todo m' bm' a,
  unite_loop fuel m visited todo = Some (m', bm') →
  a ∈ bm' → a ∈ visited ++ todo.
Proof.
  induction fuel as [|fuel IH]; intros m visited todo m' bm' a Hrun Ha.
  - destruct todo; [|discriminate]. simpl in Hrun. simplify_eq.
    by rewrite app_nil_r.
  - destruct todo as [|block rest].
    { simpl in Hrun. simplify_eq. by rewrite app_nil_r. }
    rewrite unite_loop_step in Hrun.
    destruct (mergeable m (visited ++ block :: rest) block).
    + destruct (successor m block =? block); [discriminate|].
      specialize (IH _ _ _ _ _ _ Hrun Ha).
      rewrite elem_of_app, elem_of_cons, !elem_of_erase in IH.
      rewrite elem_of_app, elem_of_cons. tauto.
    + specialize (IH _ _ _ _ _ _ Hrun Ha). by rewrite <- app_assoc in IH.
Qed.

(** ** Splitting *)

Lemma ptr_add_add p n k : ptr_add (ptr_add p n) k = wrap (p + (n + k)).
Proof.
  unfold ptr_add, wrap. rewrite Zplus_mod_idemp_l. f_equal. lia.
Qed.

Lemma wrap_add_ne p k : 0 < k < modulus → wrap (p + k) ≠ p.
Proof.
  intros Hk Heq. pose proof (wrap_range (p + k)) as Hr. rewrite Heq in Hr.
  unfold wrap in Heq.
  destruct (Z_lt_dec (p + k) modulus).
  - rewrite Z.mod_small in Heq by lia. lia.
  - replace (p + k) with ((p + k - modulus) + 1 * modulus) in Heq by lia.
    rewrite Z.mod_add in Heq by (unfold modulus; lia).
    rewrite Z.mod_small in Heq by lia. lia.
Qed.

Lemma align_aligned size :
  0 ≤ size → size + 3 < modulus → size mod 4 = 0 → align size = size.
Proof.
  intros H0 H3 Hm. rewrite align_eq, wrap_small by lia.
  pose proof (Z.div_mod size 4 ltac:(lia)).
  assert ((size + 3) / 4 = size / 4) as ->; [|lia].
  symmetry. apply Z.div_unique with (r := 3); lia.
Qed.

(** The block under [block_split] keeps its [is_free] flag. *)
Lemma block_split_block_is_free s block size :
  BlockHeader.is_free (load (mem (block_split s block size)) block)
  = BlockHeader.is_free (load (mem s) block)
  ∨ ptr_add (ptr_add block header_size) (align size) = block.
Proof.
  destruct (decide (ptr_add (ptr_add block header_size) (align size) = block))
    as [|Hne]; [by right|left].
  unfold block_split.
  destruct (_ <=? _); [|done]. simpl.
  rewrite !load_store_eq. simpl.
  rewrite !(load_store_ne _ _ block) by done. reflexivity.
Qed.

(** The memory after a split, when the carved block is not the block under
    the split itself. *)
Lemma block_split_mem s block size :
  let h := load (mem s) block in
  let new_block := ptr_add (ptr_add block header_size) (align size) in
  wrap (align size + header_size + 4) ≤ BlockHeader.size h →
  new_block ≠ block →
  block_split s block size =
  State (default_arena_size s) (arena_list s)
    (store
       (store (mem s) new_block
          (BlockHeader.mk (wrap (BlockHeader.size h - align size - header_size))
             true false (BlockHeader.is_last h)))
       block
       (BlockHeader.mk (align size) (BlockHeader.is_free h)
          (BlockHeader.is_first h) false))
    (register (block_map s) new_block).
Proof.
  intros h new_block Hroom Hne. unfold block_split.
  apply Z.leb_le in Hroom. unfold h in Hroom. rewrite Hroom.
  fold new_block. f_equal.
  rewrite !load_store_eq. 
  rewrite !(load_store_ne _ new_block block) by done.
  rewrite ?load_store_eq. fold h. simpl.
  unfold store. rewrite !insert_insert_eq.
  reflexivity.
Qed.

Lemma block_split_unchanged s block size :
  BlockHeader.size (load (mem s) block) < wrap (align size + header_size + 4) →
  block_split s block size = s.
Proof.
  intros H. unfold block_split. apply Z.leb_gt in H. by rewrite H.
Qed.

(** What [block_alloc] leaves at the block it hands out. *)
Lemma hand_out_block s block size :
  let h := load (mem (hand_out s block size)) block in
  BlockHeader.is_free h = false
  ∧ (BlockHeader.size h = align size
     ∨ (BlockHeader.size h = BlockHeader.size (load (mem s) block)
        ∧ BlockHeader.size h < wrap (align size + header_size + 4))).
Proof.
  unfold hand_out. simpl. rewrite load_store_eq. split; [done|].
  unfold block_split.
  destruct (Z.leb_spec (wrap (align size + header_size + 4))
              (BlockHeader.size (load (mem s) block))) as [Hle|Hlt].
  - left. simpl. rewrite load_store_eq. simpl. by rewrite load_store_eq.
  - right. simpl. done.
Qed.

Lemma block_split_arena_list s block size :
  arena_list (block_split s block size) = arena_list s
  ∧ default_arena_size (block_split s block size) = default_arena_size s.
Proof. unfold block_split. by destruct (_ <=? _). Qed.

Lemma hand_out_arena_list s block size :
  arena_list (hand_out s block size) = arena_list s
  ∧ default_arena_size (hand_out s block size) = default_arena_size s.
Proof. unfold hand_out. simpl. apply block_split_arena_list. Qed.

(** C7, amended.  Let a free block fit an aligned request [size], and let
    the split threshold [size + header_size + 4] not overflow; the block's
    size is any [size_t] value.  If the block's size minus [size] leaves
    room for a header and 4 payload bytes, [block_split] shrinks the block
    to exactly [size] and clears its [is_last]; the block carved right after
    it is free, has [is_first = false], inherits the original [is_last], and
    is registered in [block_map]; nothing else changes.  Otherwise the block
    keeps its full size and the state is unchanged. *)
Theorem block_split_carves_or_keeps (s : state) (block size : Z) :
  let h := load (mem s) block in
  let new_block := ptr_add (ptr_add block header_size) size in
  0 ≤ size → size mod 4 = 0 →
  fits (mem s) size block = true →
  BlockHeader.size h < modulus →
  size + header_size + 4 < modulus →
  (header_size + 4 ≤ BlockHeader.size h - size →
     let s' := block_split s block size in
     load (mem s') block
     = BlockHeader.mk size (BlockHeader.is_free h) (BlockHeader.is_first h) false
     ∧ load (mem s') new_block
       = BlockHeader.mk (BlockHeader.size h - size - header_size)
           true false (BlockHeader.is_last h)
     ∧ successor (mem s') block = new_block
     ∧ new_block ∈ block_map s'
     ∧ (∀ a, a ∈ block_map s → a ∈ block_map s')
     ∧ (∀ a, a ≠ block → a ≠ new_block → load (mem s') a = load (mem s) a))
  ∧ (BlockHeader.size h - size < header_size + 4 →
     block_split s block size = s).
Proof.
  intros h new_block H0 Hal Hfit Hrange Hbound.
  unfold fits in Hfit. apply andb_true_iff in Hfit as [Hfree Hle].
  apply Z.leb_le in Hle. fold h in Hfree, Hle.
  assert (align size = size) as Hsz
    by (apply align_aligned; unfold header_size in *; lia).
  assert (wrap (size + header_size + 4) = size + header_size + 4) as Hw
    by (apply wrap_small; unfold header_size in *; lia).
  split.
  - intros Hroom s'.
    assert (new_block ≠ block) as Hne.
    { unfold new_block. rewrite ptr_add_add. apply wrap_add_ne.
      unfold header_size in *. lia. }
    unfold s'. rewrite block_split_mem; rewrite Hsz, ?Hw; fold h new_block;
      [|lia|done]. simpl.
    split_and!.
    + by rewrite load_store_eq.
    + rewrite load_store_ne, load_store_eq by done.
      rewrite wrap_small by (unfold header_size in *; lia). done.
    + unfold successor. by rewrite load_store_eq.
    + apply elem_of_register. by left.
    + intros a Ha. apply elem_of_register. by right.
    + intros a Hab Han. by rewrite !load_store_ne.
  - intros Hno. apply block_split_unchanged. fold h. rewrite Hsz, Hw. lia.
Qed.

(** ** The search of [block_alloc] and [mem_alloc] *)

(** [block_alloc]'s loop is a first-fit search over the walk. *)
Lemma block_alloc_loop_find fuel : ∀ s limit size base,
  block_alloc_loop fuel s limit size base =
  match find (fits (mem s) size) (walk fuel (mem s) limit base) with
  | Some a => Some (hand_out s a size, ptr_add a header_size)
  | None =>
    if walk_ends fuel (mem s) limit base then Some (s, nullptr) else None
  end.
Proof.
  induction fuel as [|fuel IH]; intros s limit size base; simpl;
    destruct (base <? limit); try reflexivity.
  simpl. fold (fits (mem s) size base).
  destruct (fits (mem s) size base); [reflexivity|apply IH].
Qed.

Lemma block_alloc_find fuel s arena size :
  block_alloc fuel s arena size =
  match find (fits (mem s) (align size)) (arena_blocks fuel (mem s) arena) with
  | Some a => Some (hand_out s a (align size), ptr_add a header_size)
  | None =>
    if arena_walk_ends fuel (mem s) arena then Some (s, nullptr) else None
  end.
Proof. unfold block_alloc. apply block_alloc_loop_find. Qed.

Lemma find_app {A} (f : A → bool) l1 l2 :
  find f (l1 ++ l2) = match find f l1 with Some x => Some x | None => find f l2 end.
Proof. induction l1 as [|x l1 IH]; simpl; [done|]. by destruct (f x). Qed.

(** A scan that finds its first fit at [a] hands [a] out. *)
Lemma mem_alloc_scan_hit fuel s size a : ∀ arenas,
  Forall (λ ar, arena_walk_ends fuel (mem s) ar = true) arenas →
  find (fits (mem s) (align size))
    (concat (map (arena_blocks fuel (mem s)) arenas)) = Some a →
  ptr_add a header_size ≠ nullptr →
  mem_alloc_scan fuel s arenas size
  = Some (hand_out s a (align size), ptr_add a header_size).
Proof.
  induction arenas as [|ar arenas IH]; intros Hends Hfind Hptr; [discriminate|].
  simpl in *. rewrite find_app in Hfind. rewrite block_alloc_find.
  apply Forall_cons in Hends as [Hend Hends].
  destruct (find _ (arena_blocks fuel (mem s) ar)) as [a'|].
  - simplify_eq. apply Z.eqb_neq in Hptr. by rewrite Hptr.
  - rewrite Hend. simpl. by apply IH.
Qed.

(** A scan over arenas none of which holds a fit changes nothing. *)
Lemma mem_alloc_scan_miss fuel s size : ∀ arenas,
  Forall (λ ar, arena_walk_ends fuel (mem s) ar = true) arenas →
  find (fits (mem s) (align size))
    (concat (map (arena_blocks fuel (mem s)) arenas)) = None →
  mem_alloc_scan fuel s arenas size = Some (s, nullptr).
Proof.
  induction arenas as [|ar arenas IH]; intros Hends Hfind; [done|].
  simpl in *. rewrite find_app in Hfind. rewrite block_alloc_find.
  apply Forall_cons in Hends as [Hend Hends].
  destruct (find _ (arena_blocks fuel (mem s) ar)) as [a'|]; [discriminate|].
  rewrite Hend. simpl. by apply IH.
Qed.

Lemma mem_alloc_hit fuel os s n a :
  n ≠ 0 →
  Forall (λ ar, arena_walk_ends fuel (mem s) ar = true) (arena_list s) →
  first_fit fuel s (align n) = Some a →
  ptr_add a header_size ≠ nullptr →
  mem_alloc fuel os s n
  = Some (hand_out s a (align n), ptr_add a header_size).
Proof.
  intros Hn Hends Hfit Hptr. unfold mem_alloc.
  apply Z.eqb_neq in Hn. rewrite Hn.
  unfold first_fit, search_order in Hfit.
  rewrite <- (align_idem n) in Hfit at 1.
  rewrite (mem_alloc_scan_hit fuel s (align n) a) by done.
  rewrite align_idem. apply Z.eqb_neq in Hptr. by rewrite Hptr.
Qed.

(** ** What a returned pointer stands for *)

Lemma block_alloc_inv fuel s arena size s' p :
  block_alloc fuel s arena size = Some (s', p) →
  (p = nullptr ∧ s' = s)
  ∨ ∃ a, a ∈ arena_blocks fuel (mem s) arena
         ∧ fits (mem s) (align size) a = true
         ∧ s' = hand_out s a (align size)
         ∧ p = ptr_add a header_size.
Proof.
  rewrite block_alloc_find. intros H.
  destruct (find _ _) as [a|] eqn:Hfind.
  - right. apply find_some in Hfind as [Hin Hfit]. simplify_eq.
    exists a. by rewrite list_elem_of_In.
  - left. destruct (arena_walk_ends _ _ _); by simplify_eq.
Qed.

Lemma mem_alloc_scan_inv fuel size s' p : ∀ arenas s,
  mem_alloc_scan fuel s arenas size = Some (s', p) →
  p ≠ nullptr →
  ∃ s0 a, fits (mem s0) (align size) a = true
          ∧ s' = hand_out s0 a (align size)
          ∧ p = ptr_add a header_size.
Proof.
  induction arenas as [|ar arenas IH]; intros s Hscan Hp; simpl in Hscan.
  - by simplify_eq.
  - destruct (block_alloc fuel s ar size) as [[s1 p1]|] eqn:Hba; [|done].
    destruct (p1 =? nullptr) eqn:Hp1; [by eapply IH|].
    simplify_eq.
    apply block_alloc_inv in Hba as [[-> _]|(a & _ & Hfit & -> & ->)]; [done|].
    eauto.
Qed.

Lemma mem_alloc_inv fuel os s n s' p :
  mem_alloc fuel os s n = Some (s', p) →
  p ≠ nullptr →
  ∃ s0 a, fits (mem s0) (align n) a = true
          ∧ s' = hand_out s0 a (align n)
          ∧ p = ptr_add a header_size.
Proof.
  unfold mem_alloc. intros H Hp.
  destruct (n =? 0); [by simplify_eq|].
  destruct (mem_alloc_scan _ _ _ _) as [[s1 p1]|] eqn:Hscan; [|done].
  destruct (p1 =? nullptr) eqn:Hp1.
  - destruct (arena_create _ _ _) as [s2 [new_arena|]]; [|by simplify_eq].
    apply block_alloc_inv in H as [[-> _]|(a & _ & Hfit & -> & ->)]; [done|].
    rewrite align_idem in *. eauto.
  - simplify_eq. apply mem_alloc_scan_inv in Hscan as (s0 & a & ?); [|done].
    rewrite align_idem in *. eauto.
Qed.

(** C1, amended.  There is no [OversizedRequest] check.  For a request of
    at most 2^64 - 4 bytes the aligned size does not overflow, and a pointer
    [mem_alloc] returns is the payload address of a block that is not free
    and whose size is at least the request.  For the three sizes
    2^64 - 3 .. 2^64 - 1 the aligned size wraps to 0 and [mem_alloc] serves
    the request like one of aligned size 0: it hands out the first free
    block of the search, leaving it with fewer than [header_size + 4]
    payload bytes. *)
Theorem align_overflow_unguarded :
  (∀ fuel os s n s' p,
     0 < n ≤ modulus - 4 →
     mem_alloc fuel os s n = Some (s', p) →
     p ≠ nullptr →
     ∃ a, p = ptr_add a header_size
          ∧ BlockHeader.is_free (load (mem s') a) = false
          ∧ n ≤ align n ≤ BlockHeader.size (load (mem s') a))
  ∧ (∀ fuel os s n a,
       modulus - 3 ≤ n < modulus →
       Forall (λ ar, arena_walk_ends fuel (mem s) ar = true) (arena_list s) →
       first_fit fuel s 0 = Some a →
       ptr_add a header_size ≠ nullptr →
       align n = 0
       ∧ mem_alloc fuel os s n = Some (hand_out s a 0, ptr_add a header_size)
       ∧ BlockHeader.size (load (mem (hand_out s a 0)) a) < header_size + 4).
Proof.
  split.
  - intros fuel os s n s' p Hn Hrun Hp.
    apply mem_alloc_inv in Hrun as (s0 & a & Hfit & -> & ->); [|done].
    exists a. split; [done|].
    destruct (hand_out_block s0 a (align n)) as [Hfree Hsize].
    split; [done|].
    destruct (align_round_up n) as [[Hle _] _]; [unfold modulus in *; lia|].
    split; [done|].
    rewrite align_idem in Hsize.
    unfold fits in Hfit. apply andb_true_iff in Hfit as [_ Hfit].
    apply Z.leb_le in Hfit.
    destruct Hsize as [->|[-> _]]; lia.
  - intros fuel os s n a Hn Hends Hfit Hp.
    pose proof (align_overflow n Hn) as Hal. split; [done|].
    split.
    + rewrite <- Hal. apply mem_alloc_hit; [unfold modulus in *; lia|done| |done].
      by rewrite Hal.
    + destruct (hand_out_block s a 0) as [_ Hsize].
      change (align 0) with 0 in Hsize.
      change (wrap (0 + header_size + 4)) with 20 in Hsize.
      unfold header_size. destruct Hsize as [->|[_ ?]]; lia.
Qed.

(** ** Arena creation on a miss *)

Lemma first_fit_none_scan fuel s size :
  Forall (λ ar, arena_walk_ends fuel (mem s) ar = true) (arena_list s) →
  first_fit fuel s (align size) = None →
  mem_alloc_scan fuel s (arena_list s) (align size) = Some (s, nullptr).
Proof.
  intros Hends Hfit. apply mem_alloc_scan_miss; [done|].
  by rewrite align_idem.
Qed.

(** [block_alloc] on an arena that [arena_create] has just set up. *)
Lemma block_alloc_new_arena fuel os s request size :
  let asize := align (Z.max request (default_arena_size s)) in
  let arena := Arena.mk asize (os asize) in
  os asize ≠ nullptr →
  header_size ≤ asize →
  align size ≤ asize - header_size →
  arena_create os s request
  = (State (default_arena_size s) (arena :: arena_list s)
       (store (mem s) (os asize)
          (BlockHeader.mk (asize - header_size) true true true))
       (register (block_map s) (os asize)),
     Some arena)
  ∧ ∀ s1, arena_create os s request = (s1, Some arena) →
      block_alloc (S fuel) s1 arena size =
      if os asize <? arena_limit arena
      then Some (hand_out s1 (os asize) (align size),
                 ptr_add (os asize) header_size)
      else Some (s1, nullptr).
Proof.
  intros asize arena Hos Hlo Hfit.
  pose proof (align_range (Z.max request (default_arena_size s))) as Hr.
  fold asize in Hr.
  assert (arena_create os s request
          = (State (default_arena_size s) (arena :: arena_list s)
               (store (mem s) (os asize)
                  (BlockHeader.mk (asize - header_size) true true true))
               (register (block_map s) (os asize)),
             Some arena)) as Hcreate.
  { unfold arena_create. fold asize. apply Z.eqb_neq in Hos. rewrite Hos.
    rewrite wrap_small by (unfold header_size, modulus in *; lia). done. }
  split; [done|]. intros s1 Hs1. rewrite Hcreate in Hs1.
  injection Hs1 as <-.
  unfold block_alloc, arena_limit. simpl.
  destruct (os asize <? wrap (os asize + asize)); [|done].
  rewrite load_store_eq. simpl.
  apply Z.leb_le in Hfit. rewrite Hfit. done.
Qed.

(** C6, amended.  Let no block of any existing arena fit the request, and
    let neither [align n + header_size] nor the alignment of the arena size
    overflow.  Then [mem_alloc] creates exactly one arena, of
    [align (max (align n + header_size) default_arena_size)] bytes, which
    is at least the aligned request plus [header_size] and at least the
    default; it puts it in front of the arena list and returns what
    [block_alloc] finds in that arena alone, the new arena's first payload
    address whenever the arena ends inside the address space.  If the
    provider refuses, [mem_alloc] returns [nullptr] and the state is
    unchanged.  With the default 4096, [mem_alloc(2000)] and then
    [mem_alloc(8501)] leave a second arena of 8520 >= 8501 + 16 bytes. *)
Theorem miss_creates_one_arena (fuel : nat) (os : provider) (s : state) (n : Z) :
  let request := align n + header_size in
  let asize := align (Z.max request (default_arena_size s)) in
  let new_arena := Arena.mk asize (os asize) in
  0 < n < modulus →
  request < modulus →
  0 ≤ default_arena_size s ≤ modulus - 4 →
  Forall (λ ar, arena_walk_ends (S fuel) (mem s) ar = true) (arena_list s) →
  first_fit (S fuel) s (align n) = None →
  request ≤ asize ∧ default_arena_size s ≤ asize
  ∧ (os asize = nullptr → mem_alloc (S fuel) os s n = Some (s, nullptr))
  ∧ (os asize ≠ nullptr →
     ∃ s1 s2 p,
       arena_create os s request = (s1, Some new_arena)
       ∧ arena_list s1 = new_arena :: arena_list s
       ∧ mem_alloc (S fuel) os s n = block_alloc (S fuel) s1 new_arena (align n)
       ∧ mem_alloc (S fuel) os s n = Some (s2, p)
       ∧ arena_list s2 = new_arena :: arena_list s
       ∧ (p = nullptr ∨ p = ptr_add (os asize) header_size)
       ∧ (os asize + asize < modulus → p = ptr_add (os asize) header_size))
  ∧ ∃ s' p0 p1,
      alloc_2000_then_8501 = Some (s', p0, p1)
      ∧ p0 ≠ nullptr ∧ p1 ≠ nullptr
      ∧ arena_list s' = [Arena.mk 8520 131072; Arena.mk 4096 65536]
      ∧ 8501 + header_size ≤ 8520.
Proof.
  intros request asize new_arena Hn Hreq Hdef Hends Hmiss.
  pose proof (align_range n) as Hrn.
  assert (0 ≤ Z.max request (default_arena_size s) ≤ modulus - 4) as Hmax.
  { unfold request, header_size, modulus in *.
    destruct (align_round_up (align n)) as [_ Hm4];
      [unfold modulus; lia|].
    rewrite align_idem in Hm4.
    pose proof (Z.div_mod (align n) 4 ltac:(lia)). lia. }
  destruct (align_round_up _ Hmax) as [[Hge _] _]. fold asize in Hge.
  assert (mem_alloc (S fuel) os s n
          = match arena_create os s request with
            | (s1, None) => Some (s1, nullptr)
            | (s1, Some new_arena) => block_alloc (S fuel) s1 new_arena (align n)
            end) as Halloc.
  { unfold mem_alloc.
    assert ((n =? 0) = false) as -> by (apply Z.eqb_neq; lia).
    rewrite first_fit_none_scan by done. simpl.
    unfold request. rewrite wrap_small; [done|].
    unfold header_size in *. lia. }
  split; [lia|]. split; [lia|]. split; [|split].
  - intros Hos. rewrite Halloc. unfold arena_create. fold asize.
    by rewrite Hos.
  - intros Hos.
    destruct (block_alloc_new_arena fuel os s request (align n) Hos)
      as [Hcreate Hba];
      fold asize; rewrite ?align_idem;
      [unfold request, header_size in *; lia|unfold request in *; lia|].
    fold asize new_arena in Hcreate, Hba.
    specialize (Hba _ Hcreate).
    rewrite Hcreate in Halloc.
    destruct (Z.ltb_spec (os asize) (arena_limit new_arena)) as [Hlt|Hge'].
    + eexists _, _, _. split; [exact Hcreate|]. split; [done|].
      split; [exact Halloc|]. rewrite Halloc, Hba.
      split; [reflexivity|]. split; [apply hand_out_arena_list|].
      split; [by right|done].
    + eexists _, _, _. split; [exact Hcreate|]. split; [done|].
      split; [exact Halloc|]. rewrite Halloc, Hba.
      split; [reflexivity|]. split; [done|]. split; [by left|].
      intros Hspace. exfalso. unfold arena_limit in Hge'. simpl in Hge'.
      pose proof (wrap_range (os asize + asize)) as Hw.
      destruct (Z_lt_dec (os asize) 0) as [Hneg|Hpos]; [lia|].
      rewrite wrap_small in Hge' by lia.
      unfold request, header_size in *. lia.
  - destruct alloc_2000_then_8501 as [[[s' p0] p1]|] eqn:E;
      vm_compute in E; [|discriminate].
    injection E as <- <- <-.
    eexists _, _, _. split; [reflexivity|]. by vm_compute.
Qed.

(** ** Freeing *)

Lemma with_free_true_id h :
  BlockHeader.is_free h = true → BlockHeader.with_free true h = h.
Proof. destruct h as [sz f fi la]. simpl. by intros ->. Qed.

Lemma block_unite_lookup s s1 a h :
  block_unite s = Some s1 →
  mem s !! a = Some h →
  ∃ h', mem s1 !! a = Some h' ∧ BlockHeader.is_free h' = BlockHeader.is_free h.
Proof.
  unfold block_unite. intros H Hl.
  destruct (unite_loop _ _ _ _) as [[m' bm']|] eqn:Hrun; [|discriminate].
  simplify_eq. simpl. by eapply unite_loop_lookup.
Qed.

(** C8.  [mem_free] does nothing for the null pointer, and nothing for a
    pointer whose header address [ptr - header_size] is not in [block_map].
    For a tracked pointer it sets [is_free] whatever the flag was and runs
    the coalescing pass on the result (which is defined in the address
    space); afterwards the cell at the header address is free and no tracked
    free block has a tracked free successor.  Freeing the same pointer a
    second time changes nothing. *)
Theorem mem_free_marks_and_coalesces (s : state) (ptr : Z) :
  let block := wrap (ptr - header_size) in
  let marked :=
    set_mem (store (mem s) block
               (BlockHeader.with_free true (load (mem s) block))) s in
  (ptr = nullptr → mem_free s ptr = Some s)
  ∧ (block ∉ block_map s → mem_free s ptr = Some s)
  ∧ (ptr ≠ nullptr → block ∈ block_map s →
     mem_free s ptr = block_unite marked
     ∧ BlockHeader.is_free (load (mem marked) block) = true
     ∧ (in_address_space (mem s) (block_map s) → is_Some (mem_free s ptr))
     ∧ ∀ s1, mem_free s ptr = Some s1 →
         BlockHeader.is_free (load (mem s1) block) = true
         ∧ no_adjacent_free s1)
  ∧ (∀ s1, mem_free s ptr = Some s1 → mem_free s1 ptr = Some s1).
Proof.
  intros block marked.
  assert (ptr ≠ nullptr → block ∈ block_map s →
          mem_free s ptr = block_unite marked) as Htracked.
  { intros Hp Hin. unfold mem_free. apply Z.eqb_neq in Hp. rewrite Hp.
    fold block. apply tracked_true in Hin. by rewrite Hin. }
  assert (∀ s1, block_unite marked = Some s1 →
          ∃ h, mem s1 !! block = Some h ∧ BlockHeader.is_free h = true) as Hkept.
  { intros s1 Hs1.
    destruct (block_unite_lookup marked s1 block
                (BlockHeader.with_free true (load (mem s) block)) Hs1)
      as (h & Hh & Hf); [apply lookup_insert_eq|]. eauto. }
  split_and!.
  - intros ->. reflexivity.
  - intros Hout. unfold mem_free. destruct (ptr =? nullptr); [done|].
    fold block. apply tracked_false in Hout. by rewrite Hout.
  - intros Hp Hin. split; [by apply Htracked|].
    split; [unfold marked; simpl; by rewrite load_store_eq|]. split.
    + intros Hsp. rewrite Htracked by done. apply block_unite_total.
      unfold marked. intros a Ha. simpl in *.
      destruct (decide (a = block)) as [->|Hne].
      * rewrite load_store_eq. by apply Hsp.
      * rewrite load_store_ne by done. by apply Hsp.
    + intros s1 Hs1. rewrite Htracked in Hs1 by done. split.
      * destruct (Hkept s1 Hs1) as (h & Hh & Hf). unfold load. by rewrite Hh.
      * by eapply block_unite_settles.
  - intros s1 Hs1.
    destruct (decide (ptr = nullptr)) as [->|Hp]; [done|].
    destruct (decide (block ∈ block_map s)) as [Hin|Hout].
    + rewrite Htracked in Hs1 by done.
      pose proof (block_unite_settles _ _ Hs1) as Hno.
      destruct (Hkept s1 Hs1) as (h & Hh & Hf).
      unfold mem_free. apply Z.eqb_neq in Hp. rewrite Hp. fold block.
      destruct (tracked (block_map s1) block); [|done].
      assert (set_mem (store (mem s1) block
                (BlockHeader.with_free true (load (mem s1) block))) s1 = s1)
        as ->.
      { unfold load. rewrite Hh. simpl. rewrite with_free_true_id by done.
        unfold store. rewrite insert_id by done. by destruct s1. }
      by apply block_unite_fixpoint.
    + unfold mem_free in Hs1 |- *. apply Z.eqb_neq in Hp. rewrite Hp in *.
      fold block in Hs1 |- *. apply tracked_false in Hout.
      rewrite Hout in Hs1. simplify_eq. by rewrite Hout.
Qed.

(** ** Reallocation *)

(** C10.  For a tracked pointer whose block is live (not free),
    [mem_realloc(ptr, 0)] returns [ptr] itself, while [mem_alloc(0)] returns
    [nullptr]: the aligned size 0 passes the in-place test
    [block->size >= size].  The block stays tracked and not free; its size
    becomes 0 when [block_split] splits it, and otherwise the state is
    unchanged. *)
Theorem mem_realloc_zero_returns_pointer
  (fuel : nat) (os : provider) (s : state) (ptr : Z) :
  let block := wrap (ptr - header_size) in
  ptr ≠ nullptr →
  block ∈ block_map s →
  BlockHeader.is_free (load (mem s) block) = false →
  0 ≤ BlockHeader.size (load (mem s) block) →
  mem_alloc fuel os s 0 = Some (s, nullptr)
  ∧ align 0 ≤ BlockHeader.size (load (mem s) block)
  ∧ ∃ s', mem_realloc fuel os s ptr 0 = Some (s', ptr)
          ∧ s' = block_split s block 0
          ∧ block ∈ block_map s'
          ∧ BlockHeader.is_free (load (mem s') block) = false
          ∧ (BlockHeader.size (load (mem s') block) = 0 ∨ s' = s).
Proof.
  intros block Hp Hin Hlive Hsize.
  split; [reflexivity|]. split; [done|].
  exists (block_split s block 0).
  assert (ptr_add (ptr_add block header_size) (align 0) ≠ block) as Hne.
  { rewrite ptr_add_add. apply wrap_add_ne. by vm_compute. }
  split_and!.
  - unfold mem_realloc. apply Z.eqb_neq in Hp. rewrite Hp. fold block.
    apply tracked_true in Hin. rewrite Hin.
    change (align 0) with 0. apply Z.leb_le in Hsize. by rewrite Hsize.
  - done.
  - unfold block_split. destruct (_ <=? _); [|done]. simpl.
    apply elem_of_register. by right.
  - destruct (block_split_block_is_free s block 0) as [->|?]; done.
  - destruct (Z.leb_spec (wrap (align 0 + header_size + 4))
                (BlockHeader.size (load (mem s) block))) as [Hle|Hlt].
    + left. rewrite block_split_mem by done. simpl.
      by rewrite load_store_eq.
    + right. by apply block_split_unchanged.
Qed.

(** A scan that comes back empty-handed has changed nothing, as long as no
    block it can visit has the null address as its payload address. *)
Lemma mem_alloc_scan_null fuel s size s' p : ∀ arenas,
  Forall (λ a, ptr_add a header_size ≠ nullptr)
    (concat (map (arena_blocks fuel (mem s)) arenas)) →
  mem_alloc_scan fuel s arenas size = Some (s', p) →
  p = nullptr → s' = s.
Proof.
  induction arenas as [|ar arenas IH]; intros Hnn Hscan Hp; simpl in *.
  - by simplify_eq.
  - apply Forall_app in Hnn as [Hnn1 Hnn2].
    destruct (block_alloc fuel s ar size) as [[s1 p1]|] eqn:Hba; [|done].
    apply block_alloc_inv in Hba as [[-> ->]|(a & Hin & _ & -> & ->)].
    + simpl in Hscan. by apply IH.
    + rewrite Forall_forall in Hnn1. specialize (Hnn1 a Hin).
      apply Z.eqb_neq in Hnn1 as Hnb. rewrite Hnb in Hscan. by simplify_eq.
Qed.

Lemma wrap_add_wrap a b : wrap (a + wrap b) = wrap (a + b).
Proof. unfold wrap. apply Zplus_mod_idemp_r. Qed.

(** The walk over an arena that [arena_create] has just set up visits the
    initial block and nothing else. *)
Lemma walk_new_arena fuel m base asize a :
  a ∈ walk fuel (store m base
                   (BlockHeader.mk (wrap (asize - header_size)) true true true))
        (wrap (base + asize)) base →
  a = base.
Proof.
  destruct fuel as [|fuel]; simpl; destruct (base <? _); try by intros ?%elem_of_nil.
  rewrite load_store_eq. simpl.
  assert (ptr_add base (wrap (header_size + wrap (asize - header_size)))
          = wrap (base + asize)) as ->.
  { unfold ptr_add. rewrite wrap_add_wrap, Z.add_assoc, wrap_add_wrap.
    f_equal. lia. }
  intros [->|Hin]%elem_of_cons; [done|].
  destruct fuel; simpl in Hin; rewrite Z.ltb_irrefl in Hin;
    by apply elem_of_nil in Hin.
Qed.

(** C9.  [mem_realloc] fails without harm.  If the pointer's header address
    is not in [block_map] it returns [nullptr] and the state is unchanged.
    On the growth path, if the inner [mem_alloc] returns [nullptr],
    [mem_realloc] returns [nullptr] with the state [mem_alloc] left, in
    which the original block's cell is what it was and the block is still
    tracked.  The provider is taken to grant regions that start at an
    untracked address, and no block of the search or of the new arena has
    the null address as its payload address. *)
Theorem mem_realloc_fails_atomically
  (fuel : nat) (os : provider) (s : state) (ptr n : Z) :
  let block := wrap (ptr - header_size) in
  ptr ≠ nullptr →
  (block ∉ block_map s → mem_realloc fuel os s ptr n = Some (s, nullptr))
  ∧ (block ∈ block_map s →
     BlockHeader.size (load (mem s) block) < align n →
     Forall (λ a, ptr_add a header_size ≠ nullptr) (search_order fuel s) →
     (∀ size, os size ≠ nullptr →
        (os size ∉ block_map s) ∧ ptr_add (os size) header_size ≠ nullptr) →
     ∀ s', mem_alloc fuel os s (align n) = Some (s', nullptr) →
       mem_realloc fuel os s ptr n = Some (s', nullptr)
       ∧ mem s' !! block = mem s !! block
       ∧ load (mem s') block = load (mem s) block
       ∧ block ∈ block_map s').
Proof.
  intros block Hp. apply Z.eqb_neq in Hp as Hpb. split.
  - intros Hout. unfold mem_realloc. rewrite Hpb. fold block.
    apply tracked_false in Hout. by rewrite Hout.
  - intros Hin Hgrow Hnn Hos s' Halloc.
    split.
    { unfold mem_realloc. rewrite Hpb. fold block.
      apply tracked_true in Hin. rewrite Hin.
      apply Z.leb_gt in Hgrow. rewrite Hgrow, Halloc. reflexivity. }
    cut (mem s' !! block = mem s !! block ∧ block ∈ block_map s').
    { intros [Hm Hb]. unfold load. by rewrite Hm. }
    unfold mem_alloc in Halloc.
    destruct (align n =? 0); [by simplify_eq|].
    destruct (mem_alloc_scan _ _ _ _) as [[s1 p1]|] eqn:Hscan; [|done].
    destruct (p1 =? nullptr) eqn:Hp1; [|by apply Z.eqb_neq in Hp1; simplify_eq].
    apply Z.eqb_eq in Hp1.
    apply mem_alloc_scan_null in Hscan as ->; [|done..].
    unfold arena_create in Halloc.
    set (asize := align (Z.max (wrap (align (align n) + header_size))
                                (default_arena_size s))) in *.
    destruct (os asize =? nullptr) eqn:Hbase; [by simplify_eq|].
    apply Z.eqb_neq in Hbase. destruct (Hos _ Hbase) as [Hfresh Hnull].
    assert (os asize ≠ block) as Hne by (intros Heq; by rewrite Heq in Hfresh).
    apply block_alloc_inv in Halloc as [[_ ->]|(a & Ha & _ & _ & Hnil)].
    + simpl. split.
      * unfold store. by rewrite lookup_insert_ne.
      * apply elem_of_register. by right.
    + unfold arena_blocks, arena_limit in Ha. simpl in Ha.
      apply walk_new_arena in Ha as ->. by rewrite <- Hnil in Hnull.
Qed.

(** C5.  For a request [n > 0]: when the walks of all arenas end, and [a] is
    the first block, arenas taken head first (newest first) and the blocks
    of each arena in address order from its base, that is free and has at
    least [align n] bytes, [mem_alloc] returns the address right after
    [a]'s header.  After three 200-byte allocations from one arena and a
    free of the middle one, that middle block is the first fit for 200
    bytes, and every request of 1 to 200 bytes returns its pointer again. *)
Theorem first_fit_search :
  (∀ fuel os s n a,
     0 < n < modulus →
     Forall (λ ar, arena_walk_ends fuel (mem s) ar = true) (arena_list s) →
     first_fit fuel s (align n) = Some a →
     ptr_add a header_size ≠ nullptr →
     mem_alloc fuel os s n
     = Some (hand_out s a (align n), ptr_add a header_size))
  ∧ ∃ s p1 p2 p3,
      three_blocks_middle_freed = Some (s, (p1, p2, p3))
      ∧ first_fit 4 s 200 = Some (wrap (p2 - header_size))
      ∧ ∀ n, 0 < n ≤ 200 →
          ∃ s', mem_alloc 4 (os_at 65536) s n = Some (s', p2).
Proof.
  split.
  - intros fuel os s n a Hn Hends Hfit Hp. apply mem_alloc_hit; [lia|done..].
  - destruct three_blocks_middle_freed as [[s [[p1 p2] p3]]|] eqn:E;
      vm_compute in E; [|discriminate].
    injection E as <- <- <- <-.
    eexists _, _, _, _. split; [reflexivity|]. split; [by vm_compute|].
    intros n Hn.
    match goal with |- ∃ s', mem_alloc _ _ ?s _ = Some (s', ?p) =>
      assert (forallb (λ n, returns (mem_alloc 4 (os_at 65536) s n) p)
                (seqZ 1 200) = true) as Hall by (vm_compute; reflexivity)
    end.
    rewrite forallb_forall in Hall.
    specialize (Hall n). unfold returns in Hall.
    destruct (mem_alloc _ _ _ n) as [[s' q]|].
    + exists s'. f_equal. f_equal. apply Z.eqb_eq, Hall.
      apply list_elem_of_In, elem_of_seqZ. lia.
    + discriminate Hall. apply list_elem_of_In, elem_of_seqZ. lia.
Qed.

(** C3, at the failing input.  Two arenas of 65536 bytes, the second
    granted right at the end of the first, each holding one block.  Once
    both blocks are free, the pass merges the block at the first arena's
    base with the block at the second arena's base: one tracked block of
    131056 bytes is left, reaching across both arenas.  Later allocations
    then hand out overlapping payloads. *)
Theorem merge_crosses_adjacent_arenas :
  ∃ s p s',
    adjacent_arenas = Some (s, p)
    ∧ arena_list s = [Arena.mk 65536 131072; Arena.mk 65536 65536]
    ∧ mem_free s p = Some s'
    ∧ wrap (p - header_size) = 65536
    ∧ in_arena (Arena.mk 65536 65536) 65536
    ∧ successor (mem s) 65536 = 131072
    ∧ in_arena (Arena.mk 65536 131072) 131072
    ∧ 131072 ∈ block_map s
    ∧ load (mem s) 131072 = BlockHeader.mk 65520 true true true
    ∧ block_map s' = [65536]
    ∧ load (mem s') 65536 = BlockHeader.mk 131056 true true true
    ∧ ∃ s2 s3,
        mem_alloc 4 os_refuses s' 100 = Some (s2, 131088)
        ∧ mem_alloc 4 os_refuses s2 70000 = Some (s3, 65552)
        ∧ 65552 ≤ 131088 < 65552 + 70000.
Proof.
  destruct adjacent_arenas as [[s p]|] eqn:E; vm_compute in E; [|discriminate].
  injection E as <- <-.
  eexists _, _, _. split; [reflexivity|]. split; [reflexivity|].
  split; [vm_compute; reflexivity|].
  split_and!; try reflexivity.
  - unfold in_arena. simpl. lia.
  - unfold in_arena. simpl. lia.
  - apply tracked_true. reflexivity.
  - match goal with |- ∃ s2 s3, mem_alloc _ _ ?s' _ = _ ∧ _ =>
      destruct (mem_alloc 4 os_refuses s' 100) as [[s2 p2]|] eqn:E2;
        vm_compute in E2; [|discriminate]
    end.
    injection E2 as <- <-.
    eexists _, _. split; [reflexivity|].
    match goal with |- mem_alloc _ _ ?s2' _ = _ ∧ _ =>
      destruct (mem_alloc 4 os_refuses s2' 70000) as [[s3 p3]|] eqn:E3;
        vm_compute in E3; [|discriminate]
    end.
    injection E3 as <- <-. split; [reflexivity|lia].
Qed.

(** C2, at the failing input.  In the state of the two adjacent arenas each
    arena's walk sums to its size; after the free that merges across the
    arena boundary, the walk of the first arena sums to 131072, twice its
    size of 65536. *)
Theorem arena_sum_broken_by_cross_merge :
  ∃ s p s',
    adjacent_arenas = Some (s, p)
    ∧ Forall (λ ar, arena_walk_ends 4 (mem s) ar = true
                    ∧ arena_sum 4 (mem s) ar = Arena.size ar) (arena_list s)
    ∧ mem_free s p = Some s'
    ∧ Arena.mk 65536 65536 ∈ arena_list s'
    ∧ arena_walk_ends 4 (mem s') (Arena.mk 65536 65536) = true
    ∧ arena_blocks 4 (mem s') (Arena.mk 65536 65536) = [65536]
    ∧ arena_sum 4 (mem s') (Arena.mk 65536 65536) = 131072
    ∧ Arena.size (Arena.mk 65536 65536) = 65536.
Proof.
  destruct adjacent_arenas as [[s p]|] eqn:E; vm_compute in E; [|discriminate].
  injection E as <- <-.
  eexists _, _, _. split; [reflexivity|].
  split; [repeat (constructor; [by vm_compute|]); constructor|].
  split; [vm_compute; reflexivity|].
  split; [apply list_elem_of_further, list_elem_of_here|].
  split_and!; reflexivity.
Qed.

(** C6 as stated fails: a request of 2^64 - 16 bytes, with no arena to
    serve it, gets one new arena of the default 4096 bytes, far below the
    aligned request plus [header_size], and [mem_alloc] returns [nullptr]
    with that arena left in the list. *)
Lemma huge_request_gets_default_arena :
  ∃ s',
    first_fit 1 (initial 4096) (align (modulus - 16)) = None
    ∧ mem_alloc 1 (os_at 65536) (initial 4096) (modulus - 16) = Some (s', nullptr)
    ∧ arena_list s' = [Arena.mk 4096 65536]
    ∧ ¬ (align (modulus - 16) + header_size ≤ 4096).
Proof.
  destruct (mem_alloc 1 (os_at 65536) (initial 4096) (modulus - 16))
    as [[s' p]|] eqn:E; vm_compute in E; [|discriminate].
  injection E as <- <-.
  eexists. split; [reflexivity|]. split; [reflexivity|].
  split; [reflexivity|]. by vm_compute.
Qed.

(** C1 as stated fails: a request of 2^64 - 1 bytes is not refused.  Its
    aligned size wraps to 0, and [mem_alloc] returns a pointer to a block of
    0 payload bytes. *)
Lemma oversized_request_is_served :
  ∃ s',
    mem_alloc 1 (os_at 65536) (initial 4096) (modulus - 1) = Some (s', 65552)
    ∧ 65552 ≠ nullptr
    ∧ BlockHeader.size (load (mem s') (65552 - header_size)) = 0.
Proof.
  destruct (mem_alloc 1 (os_at 65536) (initial 4096) (modulus - 1))
    as [[s' p]|] eqn:E; vm_compute in E; [|discriminate].
  injection E as <- <-.
  eexists. split; [reflexivity|]. split; [done|]. reflexivity.
Qed.

(** C7 as stated fails when the split threshold overflows.  With a default
    arena size of 4, a request of 2^64 - 16 bytes gets an arena of 4 bytes
    whose initial block has the wrapped size 2^64 - 12.  The block fits the
    request and leaves 4 bytes, less than [header_size + 4]; yet
    [size + header_size + 4] wraps to 4, and [block_split] splits: the block
    does not keep its original size. *)
Lemma split_threshold_wraps :
  let s := fst (arena_create (os_at 65536) (initial 4) 0) in
  let block := 65536 in
  let size := modulus - 16 in
  size mod 4 = 0
  ∧ fits (mem s) size block = true
  ∧ BlockHeader.size (load (mem s) block) - size < header_size + 4
  ∧ BlockHeader.size (load (mem (block_split s block size)) block)
    ≠ BlockHeader.size (load (mem s) block)
  ∧ ∃ s', mem_alloc 1 (os_at 65536) (initial 4) size
          = Some (s', ptr_add block header_size)
          ∧ s' = hand_out s block size.
Proof.
  vm_compute. split_and!; try done. eexists. split; reflexivity.
Qed.

(** The fuel of [block_unite] is enough: more of it changes nothing. *)
Lemma unite_loop_fuel fuel : ∀ fuel' m visited todo,
  (length visited + 2 * length todo ≤ fuel)%nat →
  (length visited + 2 * length todo ≤ fuel')%nat →
  unite_loop fuel m visited todo = unite_loop fuel' m visited todo.
Proof.
  induction fuel as [|fuel IH]; intros fuel' m visited todo Hf Hf'.
  - destruct todo; [by destruct fuel'|simpl in Hf; lia].
  - destruct todo as [|block rest]; [by destruct fuel'|].
    destruct fuel' as [|fuel']; [simpl in Hf'; lia|].
    rewrite !unite_loop_step.
    destruct (mergeable m (visited ++ block :: rest) block) eqn:Hm.
    + destruct (Z.eqb_spec (successor m block) block) as [|Hne]; [done|].
      apply mergeable_successor in Hm as (_ & Htr & _).
      pose proof (length_erase_le (successor m block) visited).
      pose proof (length_erase_le (successor m block) rest).
      assert (length (erase (successor m block) visited)
              + length (erase (successor m block) rest)
              < length visited + length rest)%nat.
      { apply elem_of_app in Htr as [Htr|Htr].
        - pose proof (length_erase_lt _ _ Htr). lia.
        - apply elem_of_cons in Htr as [?|Htr]; [done|].
          pose proof (length_erase_lt _ _ Htr). lia. }
      apply IH; simpl in *; lia.
    + apply IH; rewrite length_app; simpl in *; lia.
Qed.

Lemma align_overflow_unguarded_witness :
  let r := mem_alloc 1 (os_at 65536) (initial 4096) 200 in
  (∃ a, 65552 = ptr_add a header_size
        ∧ BlockHeader.is_free (load (mem (reached r)) a) = false
        ∧ 200 ≤ align 200 ≤ BlockHeader.size (load (mem (reached r)) a))
  ∧ align (modulus - 1) = 0
  ∧ mem_alloc 2 (os_at 65536) (reached r) (modulus - 1)
    = Some (hand_out (reached r) 65752 0, ptr_add 65752 header_size)
  ∧ BlockHeader.size (load (mem (hand_out (reached r) 65752 0)) 65752)
    < header_size + 4.
Proof.
  split.
  - apply (proj1 align_overflow_unguarded 1%nat (os_at 65536) (initial 4096) 200).
    + unfold modulus. lia.
    + vm_compute. reflexivity.
    + vm_compute. discriminate.
  - apply (proj2 align_overflow_unguarded 2%nat (os_at 65536)
             (reached (mem_alloc 1 (os_at 65536) (initial 4096) 200))
             (modulus - 1) 65752).
    + unfold modulus. lia.
    + forall_by_computation.
    + vm_compute. reflexivity.
    + vm_compute. discriminate.
Defined.

Lemma first_fit_search_witness :
  let s := reached three_blocks_middle_freed in
  first_fit 4 s (align 77) = Some 65752
  ∧ mem_alloc 4 os_refuses s 77
    = Some (hand_out s 65752 (align 77), ptr_add 65752 header_size).
Proof.
  split; [vm_compute; reflexivity|].
  apply (proj1 first_fit_search 4%nat os_refuses
           (reached three_blocks_middle_freed) 77 65752).
  - unfold modulus. lia.
  - forall_by_computation.
  - vm_compute. reflexivity.
  - vm_compute. discriminate.
Defined.

Lemma miss_creates_one_arena_witness :
  let s := reached (mem_alloc 4 (os_at 65536) (initial 4096) 2000) in
  first_fit 4 s (align 8501) = None
  ∧ align 8501 + header_size ≤ 8520
  ∧ ∃ s2 p,
      mem_alloc 4 (os_at 131072) s 8501 = Some (s2, p)
      ∧ arena_list s2 = Arena.mk 8520 131072 :: arena_list s
      ∧ p = ptr_add 131072 header_size.
Proof.
  intros s.
  assert (first_fit 4 s (align 8501) = None) as Hmiss
    by (vm_compute; reflexivity).
  split; [exact Hmiss|].
  destruct (miss_creates_one_arena 3 (os_at 131072) s 8501)
    as (Hsize & _ & _ & Hnew & _).
  - unfold modulus. lia.
  - vm_compute. reflexivity.
  - vm_compute. split; discriminate.
  - forall_by_computation.
  - exact Hmiss.
  - split; [exact Hsize|].
    destruct Hnew as (s1 & s2 & p & _ & _ & _ & Hrun & Hlist & _ & Hp).
    + vm_compute. discriminate.
    + exists s2, p. split; [exact Hrun|]. split; [exact Hlist|].
      apply Hp. vm_compute. reflexivity.
Defined.

Lemma block_split_carves_or_keeps_witness :
  let s := fst (arena_create (os_at 65536) (initial 4096) 0) in
  let s4 := fst (arena_create (os_at 65536) (initial 4) 0) in
  (load (mem (block_split s 65536 200)) 65536
   = BlockHeader.mk 200 true true false
   ∧ load (mem (block_split s 65536 200)) 65752
     = BlockHeader.mk 3864 true false true
   ∧ 65752 ∈ block_map (block_split s 65536 200))
  ∧ block_split s 65536 4064 = s
  ∧ (BlockHeader.size (load (mem s4) 65536) = modulus - 12
     ∧ load (mem (block_split s4 65536 8)) 65536
       = BlockHeader.mk 8 true true false
     ∧ load (mem (block_split s4 65536 8)) 65560
       = BlockHeader.mk (modulus - 36) true false true).
Proof.
  intros s s4. split; [|split].
  - destruct (block_split_carves_or_keeps s 65536 200) as [Hsplit _].
    + lia.
    + reflexivity.
    + vm_compute. reflexivity.
    + vm_compute. reflexivity.
    + vm_compute. reflexivity.
    + destruct Hsplit as (Hb & Hn & _ & Hin & _).
      * vm_compute. discriminate.
      * split; [exact Hb|]. split; [exact Hn|exact Hin].
  - destruct (block_split_carves_or_keeps s 65536 4064) as [_ Hkeep].
    + lia.
    + reflexivity.
    + vm_compute. reflexivity.
    + vm_compute. reflexivity.
    + vm_compute. reflexivity.
    + apply Hkeep. vm_compute. reflexivity.
  - split; [vm_compute; reflexivity|].
    destruct (block_split_carves_or_keeps s4 65536 8) as [Hsplit _].
    + lia.
    + reflexivity.
    + vm_compute. reflexivity.
    + vm_compute. reflexivity.
    + vm_compute. reflexivity.
    + destruct Hsplit as (Hb & Hn & _).
      * vm_compute. discriminate.
      * split; [exact Hb|]. exact Hn.
Defined.

Lemma mem_free_marks_and_coalesces_witness :
  let r := mem_alloc 4 (os_at 65536) (initial 4096) 200 in
  ∃ s1, mem_free (reached r) 65552 = Some s1
        ∧ BlockHeader.is_free (load (mem s1) 65536) = true
        ∧ no_adjacent_free s1
        ∧ mem_free s1 65552 = Some s1.
Proof.
  intros r.
  destruct (mem_free_marks_and_coalesces (reached r) 65552)
    as (_ & _ & Htracked & Hidem).
  destruct Htracked as (_ & _ & _ & Hafter).
  - discriminate.
  - apply tracked_true. vm_compute. reflexivity.
  - destruct (mem_free (reached r) 65552) as [s1|] eqn:E;
      [|vm_compute in E; discriminate E].
    exists s1. split; [reflexivity|].
    destruct (Hafter s1 eq_refl) as [Hfree Hno].
    split; [exact Hfree|]. split; [exact Hno|]. apply Hidem. reflexivity.
Defined.

Lemma mem_realloc_fails_atomically_witness :
  let s := reached (mem_alloc 4 (os_at 65536) (initial 4096) 100) in
  mem_realloc 4 os_refuses s 4242 77 = Some (s, nullptr)
  ∧ mem_realloc 4 os_refuses s 65552 5000 = Some (s, nullptr)
  ∧ load (mem s) 65536 = BlockHeader.mk 100 false true false.
Proof.
  intros s.
  destruct (mem_realloc_fails_atomically 4 os_refuses s 4242 77) as [Hout _];
    [discriminate|].
  destruct (mem_realloc_fails_atomically 4 os_refuses s 65552 5000) as [_ Hin];
    [discriminate|].
  split.
  - apply Hout. apply tracked_false. vm_compute. reflexivity.
  - destruct (Hin) with (s' := s) as (Hrun & _ & Hload & _).
    + apply tracked_true. vm_compute. reflexivity.
    + vm_compute. reflexivity.
    + forall_by_computation.
    + intros size Hsize. exfalso. apply Hsize. reflexivity.
    + vm_compute. reflexivity.
    + split; [exact Hrun|]. vm_compute. reflexivity.
Defined.

Lemma mem_realloc_zero_returns_pointer_witness :
  let s := reached (mem_alloc 4 (os_at 65536) (initial 4096) 200) in
  mem_alloc 4 os_refuses s 0 = Some (s, nullptr)
  ∧ ∃ s', mem_realloc 4 os_refuses s 65552 0 = Some (s', 65552)
          ∧ BlockHeader.is_free (load (mem s') 65536) = false
          ∧ BlockHeader.size (load (mem s') 65536) = 0.
Proof.
  intros s.
  destruct (mem_realloc_zero_returns_pointer 4 os_refuses s 65552)
    as (Halloc & _ & s' & Hrun & Hs' & _ & Hlive & _).
  - discriminate.
  - apply tracked_true. vm_compute. reflexivity.
  - vm_compute. reflexivity.
  - vm_compute. discriminate.
  - split; [exact Halloc|]. exists s'. split; [exact Hrun|].
    split; [exact Hlive|]. rewrite Hs'. vm_compute. reflexivity.
Defined.

(** * More properties *)

(** ** Checksum *)

Lemma byte_value_range b : 0 ≤ byte_value b < 256.
Proof. unfold byte_value. pose proof (Byte.to_N_bounded b). lia. Qed.

Lemma checksum_loop bytes : ∀ acc,
  fold_left (λ checksum b, (checksum + byte_value b) mod modulus32) bytes acc
  mod modulus32
  = (acc + byte_sum bytes) mod modulus32.
Proof.
  induction bytes as [|b bytes IH]; intros acc; simpl.
  - by rewrite Z.add_0_r.
  - rewrite IH. rewrite Zplus_mod_idemp_l. f_equal. lia.
Qed.

Lemma checksum_loop_range bytes : ∀ acc,
  0 ≤ acc < modulus32 →
  0 ≤ fold_left (λ checksum b, (checksum + byte_value b) mod modulus32) bytes acc
  < modulus32.
Proof.
  induction bytes as [|b bytes IH]; intros acc Hacc; simpl; [done|].
  apply IH. apply Z.mod_pos_bound. unfold modulus32. lia.
Qed.

Lemma checksum_sum bytes : checksum bytes = byte_sum bytes mod modulus32.
Proof.
  unfold checksum.
  rewrite <- (Z.mod_small (fold_left _ bytes 0) modulus32)
    by (apply checksum_loop_range; unfold modulus32; lia).
  by rewrite checksum_loop.
Qed.

Lemma byte_sum_app a b : byte_sum (a ++ b) = byte_sum a + byte_sum b.
Proof. induction a as [|x a IH]; simpl; lia. Qed.

Lemma byte_sum_bounds bytes : 0 ≤ byte_sum bytes ≤ 255 * Z.of_nat (length bytes).
Proof.
  induction bytes as [|b bytes IH]; simpl; [lia|].
  pose proof (byte_value_range b). lia.
Qed.

Lemma byte_sum_perm a b : a ≡ₚ b → byte_sum a = byte_sum b.
Proof. induction 1; simpl; lia. Qed.

(** X1.  [checksum] returns the sum of the bytes modulo 2^32: a value below
    2^32, 0 for no bytes, and the checksum of a concatenation is the sum of
    the two checksums modulo 2^32. *)
Theorem checksum_is_sum_mod (a b : list Byte.byte) :
  checksum a = byte_sum a mod modulus32
  ∧ 0 ≤ checksum a < modulus32
  ∧ checksum [] = 0
  ∧ checksum (a ++ b) = (checksum a + checksum b) mod modulus32.
Proof.
  split; [apply checksum_sum|]. split.
  { rewrite checksum_sum. apply Z.mod_pos_bound. unfold modulus32. lia. }
  split; [reflexivity|].
  rewrite !checksum_sum, byte_sum_app. apply Zplus_mod.
Qed.

(** X2.  [checksum] does not see the order of the bytes: two buffers that
    hold the same bytes in a different order have the same checksum. *)
Theorem checksum_ignores_order (a b : list Byte.byte) :
  a ≡ₚ b → checksum a = checksum b.
Proof. intros H. rewrite !checksum_sum. by rewrite (byte_sum_perm a b). Qed.

Lemma checksum_ignores_order_witness :
  checksum [Byte.x01; Byte.xff; Byte.x10] = checksum [Byte.xff; Byte.x10; Byte.x01].
Proof.
  apply checksum_ignores_order.
  apply (Permutation_cons_append [Byte.xff; Byte.x10] Byte.x01).
Defined.

(** X3.  On a buffer short enough that 255 times its length stays below
    2^32, the accumulator of [checksum] never wraps: the result is the plain
    sum of the bytes, at most 255 times the length. *)
Theorem checksum_exact_below_wrap (bytes : list Byte.byte) :
  255 * Z.of_nat (length bytes) < modulus32 →
  checksum bytes = byte_sum bytes
  ∧ checksum bytes ≤ 255 * Z.of_nat (length bytes).
Proof.
  intros H. pose proof (byte_sum_bounds bytes).
  rewrite checksum_sum, Z.mod_small by lia. split; [done|lia].
Qed.

Lemma checksum_exact_below_wrap_witness :
  checksum [Byte.xff; Byte.xff; Byte.x02] = 512
  ∧ checksum [Byte.xff; Byte.xff; Byte.x02] ≤ 255 * 3.
Proof.
  apply (checksum_exact_below_wrap [Byte.xff; Byte.xff; Byte.x02]).
  vm_compute. reflexivity.
Defined.

(** ** More on alignment *)

(** X4.  Away from the top of the address space (for [n ≤ k ≤ 2^64 - 4]),
    [align n] is the least multiple of 4 that is at least [n]: it lies in
    [n, n + 4), is a multiple of 4, is a fixed point of [align], equals [n]
    when [n] is a multiple of 4, and [align] is monotone. *)
Theorem align_rounds_up_to_multiple_of_four (n k : Z) :
  0 ≤ n ≤ k → k ≤ modulus - 4 →
  n ≤ align n < n + 4
  ∧ align n mod 4 = 0
  ∧ align (align n) = align n
  ∧ (n mod 4 = 0 → align n = n)
  ∧ align n ≤ align k.
Proof.
  intros Hn Hk.
  destruct (align_round_up n) as [Hr Hm]; [lia|].
  split; [done|]. split; [done|]. split; [apply align_idem|]. split.
  - intros H4. apply align_aligned; lia.
  - rewrite !align_eq, !wrap_small by (unfold modulus in *; lia).
    apply Z.mul_le_mono_nonneg_l; [lia|]. apply Z.div_le_mono; lia.
Qed.

Lemma align_rounds_up_to_multiple_of_four_witness :
  8501 ≤ align 8501 < 8501 + 4
  ∧ align 8501 mod 4 = 0
  ∧ align (align 8501) = align 8501
  ∧ (8501 mod 4 = 0 → align 8501 = 8501)
  ∧ align 8501 ≤ align 9000.
Proof.
  apply (align_rounds_up_to_multiple_of_four 8501 9000).
  - lia.
  - unfold modulus. lia.
Defined.

(** ** More on coalescing *)

Lemma merge_into_live m block next_block a :
  BlockHeader.is_free (load m block) = true →
  BlockHeader.is_free (load m a) = false →
  load (merge_into m block next_block) a = load m a.
Proof.
  intros Hb Ha. apply merge_into_other. intros ->. congruence.
Qed.

Lemma unite_loop_live fuel : ∀ m visited todo m' bm',
  unite_loop fuel m visited todo = Some (m', bm') →
  (∀ a, BlockHeader.is_free (load m' a) = BlockHeader.is_free (load m a))
  ∧ (∀ a, BlockHeader.is_free (load m a) = false → load m' a = load m a)
  ∧ (∀ a, a ∈ visited ++ todo → BlockHeader.is_free (load m a) = false →
          a ∈ bm').
Proof.
  induction fuel as [|fuel IH]; intros m visited todo m' bm' Hrun.
  - destruct todo; [|discriminate]. simpl in Hrun. simplify_eq.
    rewrite app_nil_r. done.
  - destruct todo as [|block rest].
    { simpl in Hrun. simplify_eq. rewrite app_nil_r. done. }
    rewrite unite_loop_step in Hrun.
    destruct (mergeable m (visited ++ block :: rest) block) eqn:Hm.
    + destruct (successor m block =? block); [discriminate|].
      apply mergeable_successor in Hm as (Hfb & Htr & Hfn).
      destruct (IH _ _ _ _ _ Hrun) as (Hfree & Hlive & Hkeep).
      split_and!.
      * intros a. by rewrite Hfree, merge_into_is_free.
      * intros a Ha. rewrite Hlive by (by rewrite merge_into_is_free).
        by apply merge_into_live.
      * intros a Hin Ha. apply Hkeep; [|by rewrite merge_into_is_free].
        assert (a ≠ successor m block) by (intros ->; congruence).
        rewrite elem_of_app, elem_of_cons in Hin.
        rewrite elem_of_app, elem_of_cons, !elem_of_erase. tauto.
    + destruct (IH _ _ _ _ _ Hrun) as (Hfree & Hlive & Hkeep).
      split_and!; [done..|].
      intros a Hin. apply Hkeep. by rewrite <- app_assoc.
Qed.

Lemma block_unite_live s s1 :
  block_unite s = Some s1 →
  (∀ a, a ∈ block_map s1 → a ∈ block_map s)
  ∧ (∀ a, BlockHeader.is_free (load (mem s1) a)
          = BlockHeader.is_free (load (mem s) a))
  ∧ (∀ a, BlockHeader.is_free (load (mem s) a) = false →
          load (mem s1) a = load (mem s) a
          ∧ (a ∈ block_map s → a ∈ block_map s1)).
Proof.
  unfold block_unite. intros H.
  destruct (unite_loop _ _ _ _) as [[m' bm']|] eqn:Hrun; [|discriminate].
  simplify_eq. simpl.
  destruct (unite_loop_live _ _ _ _ _ _ Hrun) as (Hfree & Hlive & Hkeep).
  split_and!; try done.
  - intros a Ha. by apply (unite_loop_subset _ _ _ _ _ _ _ Hrun) in Ha.
  - intros a Ha. split; [by apply Hlive|]. intros Hin. by apply Hkeep.
Qed.

(** X5.  Whenever the coalescing pass returns, it has left every block that
    is not free alone: its header is unchanged and, if it was tracked, it
    still is.  The pass adds no entry to the table, changes no [is_free]
    flag at any address, and leaves the arena list and the default arena
    size as they were. *)
Theorem block_unite_spares_live_blocks (s s1 : state) :
  block_unite s = Some s1 →
  (∀ a, a ∈ block_map s1 → a ∈ block_map s)
  ∧ (∀ a, BlockHeader.is_free (load (mem s1) a)
          = BlockHeader.is_free (load (mem s) a))
  ∧ (∀ a, BlockHeader.is_free (load (mem s) a) = false →
          load (mem s1) a = load (mem s) a
          ∧ (a ∈ block_map s → a ∈ block_map s1))
  ∧ arena_list s1 = arena_list s
  ∧ default_arena_size s1 = default_arena_size s.
Proof.
  intros H. destruct (block_unite_live _ _ H) as (Hsub & Hfree & Hlive).
  split; [done|]. split; [done|]. split; [done|].
  unfold block_unite in H.
  destruct (unite_loop _ _ _ _) as [[m' bm']|]; [|discriminate].
  by simplify_eq.
Qed.

Lemma block_unite_spares_live_blocks_witness :
  let r := adjacent_arenas in
  ∃ s1, mem_free (reached r) 131088 = Some s1
        ∧ load (mem s1) 65536 = BlockHeader.mk 65520 false true true
        ∧ 65536 ∈ block_map s1.
Proof.
  intros r.
  destruct (mem_free (reached r) 131088) as [s1|] eqn:E;
    [|vm_compute in E; discriminate E].
  exists s1. split; [reflexivity|].
  assert (block_unite
            (set_mem (store (mem (reached r)) 131072
                        (BlockHeader.with_free true (load (mem (reached r)) 131072)))
               (reached r)) = Some s1) as Hu.
  { rewrite <- E. vm_compute. reflexivity. }
  destruct (block_unite_spares_live_blocks _ _ Hu) as (_ & _ & Hlive & _).
  destruct (Hlive 65536) as [Hload Hin].
  - vm_compute. reflexivity.
  - split.
    + rewrite Hload. vm_compute. reflexivity.
    + apply Hin. apply tracked_true. vm_compute. reflexivity.
Defined.

Lemma table_bytes_app m l1 l2 :
  table_bytes m (l1 ++ l2) = table_bytes m l1 + table_bytes m l2.
Proof. induction l1 as [|a l1 IH]; simpl; lia. Qed.

Lemma table_bytes_frame m m' l :
  (∀ a, a ∈ l → load m' a = load m a) → table_bytes m' l = table_bytes m l.
Proof.
  induction l as [|a l IH]; intros H; simpl; [done|].
  rewrite H by (apply elem_of_cons; by left).
  rewrite IH; [done|]. intros b Hb. apply H. apply elem_of_cons. by right.
Qed.

Lemma erase_absent a l : a ∉ l → erase a l = l.
Proof.
  intros Ha. unfold erase. induction l as [|b l IH]; [done|].
  rewrite filter_cons. rewrite not_elem_of_cons in Ha. destruct Ha as [Hne Ha].
  destruct (decide (b ≠ a)) as [|Hn]; [by rewrite IH|]. by destruct Hn.
Qed.

Lemma table_bytes_erase m a l :
  NoDup l → a ∈ l →
  table_bytes m (erase a l)
  = table_bytes m l - (header_size + BlockHeader.size (load m a)).
Proof.
  induction l as [|b l IH]; intros Hnd Ha; [by apply elem_of_nil in Ha|].
  apply NoDup_cons in Hnd as [Hb Hnd]. unfold erase in *. rewrite filter_cons.
  destruct (decide (b ≠ a)) as [Hne|Heq].
  - simpl. rewrite IH; [lia|done|].
    apply elem_of_cons in Ha as [->|]; done.
  - assert (b = a) as -> by (destruct (decide (b = a)); [done|by destruct Heq]).
    simpl. fold (erase a l). rewrite erase_absent by done. lia.
Qed.

Lemma NoDup_erase a l : NoDup l → NoDup (erase a l).
Proof. apply NoDup_filter. Qed.

(** A merge keeps the tracked blocks in the address space. *)
Lemma merge_in_address_space m bm block :
  in_address_space m bm → block ∈ bm →
  mergeable m bm block = true →
  successor m block ≠ block
  ∧ in_address_space (merge_into m block (successor m block))
      (erase (successor m block) bm)
  ∧ BlockHeader.size (load (merge_into m block (successor m block)) block)
    = BlockHeader.size (load m block) + header_size
      + BlockHeader.size (load m (successor m block)).
Proof.
  intros Hsp Hb Hm. apply mergeable_successor in Hm as (Hf & Htr & Hnf).
  pose proof (successor_in_space _ _ _ Hsp Hb) as Hsucc.
  destruct (Hsp _ Hb) as (Hb0 & Hbs & Hbe).
  destruct (Hsp _ Htr) as (Hn0 & Hns & Hne).
  set (nx := successor m block) in *.
  assert (nx ≠ block) as Hneq by (unfold header_size in *; lia).
  assert (BlockHeader.size (load (merge_into m block nx) block)
          = BlockHeader.size (load m block) + header_size
            + BlockHeader.size (load m nx)) as Hsize.
  { rewrite load_merge_into_block by done. simpl. unfold header_size in *.
    rewrite (wrap_small (16 + _)) by lia. rewrite wrap_small by lia. lia. }
  split; [done|]. split; [|done].
  intros a [Hanx Ha]%elem_of_erase.
  destruct (decide (a = block)) as [->|Hab].
  - rewrite Hsize. unfold header_size in *. lia.
  - rewrite merge_into_other by done. by apply Hsp.
Qed.

Lemma unite_loop_bytes fuel : ∀ m visited todo m' bm',
  unite_loop fuel m visited todo = Some (m', bm') →
  NoDup (visited ++ todo) →
  in_address_space m (visited ++ todo) →
  table_bytes m' bm' = table_bytes m (visited ++ todo)
  ∧ NoDup bm' ∧ in_address_space m' bm'.
Proof.
  induction fuel as [|fuel IH]; intros m visited todo m' bm' Hrun Hnd Hsp.
  - destruct todo; [|discriminate]. simpl in Hrun. simplify_eq.
    by rewrite app_nil_r in *.
  - destruct todo as [|block rest].
    { simpl in Hrun. simplify_eq. by rewrite app_nil_r in *. }
    rewrite unite_loop_step in Hrun.
    destruct (mergeable m (visited ++ block :: rest) block) eqn:Hm.
    + assert (block ∈ visited ++ block :: rest) as Hb
        by (apply elem_of_app; right; apply elem_of_cons; by left).
      destruct (merge_in_address_space _ _ _ Hsp Hb Hm) as (Hneq & Hsp' & Hsize).
      apply mergeable_successor in Hm as (_ & Htr & _).
      set (nx := successor m block) in *.
      apply Z.eqb_neq in Hneq as Hneqb. rewrite Hneqb in Hrun.
      assert (erase nx (visited ++ block :: rest)
              = erase nx visited ++ block :: erase nx rest) as Herase.
      { unfold erase. rewrite filter_app, filter_cons.
        destruct (decide (block ≠ nx)) as [|Hn]; [done|].
        destruct Hn. congruence. }
      rewrite Herase in Hsp'.
      destruct (IH _ _ _ _ _ Hrun) as (Hbytes & Hnd' & Hsp'');
        [rewrite <- Herase; by apply NoDup_erase|done|].
      split; [|done]. rewrite Hbytes, <- Herase.
      rewrite (table_bytes_erase _ nx) by (try apply NoDup_erase; done).
      apply NoDup_app in Hnd as (Hndv & Hdisj & Hndt).
      apply NoDup_cons in Hndt as [Hbr Hndr].
      rewrite !table_bytes_app. simpl. rewrite Hsize.
      rewrite (table_bytes_frame m _ visited), (table_bytes_frame m _ rest).
      * rewrite merge_into_other by done. lia.
      * intros a Ha. apply merge_into_other. intros ->. done.
      * intros a Ha. apply merge_into_other. intros ->.
        apply (Hdisj block); [done|]. apply elem_of_cons. by left.
    + replace (visited ++ block :: rest) with ((visited ++ [block]) ++ rest)
        in * by (by rewrite <- app_assoc).
      by apply IH.
Qed.

(** X6.  The coalescing pass conserves the bytes the table accounts for:
    over a table without duplicate entries whose blocks lie in the address
    space, the sum of [header_size + size] over the tracked blocks is the
    same after the pass as before, and the table still has no duplicates and
    lies in the address space. *)
Theorem block_unite_conserves_bytes (s s1 : state) :
  NoDup (block_map s) →
  in_address_space (mem s) (block_map s) →
  block_unite s = Some s1 →
  table_bytes (mem s1) (block_map s1) = table_bytes (mem s) (block_map s)
  ∧ NoDup (block_map s1)
  ∧ in_address_space (mem s1) (block_map s1).
Proof.
  unfold block_unite. intros Hnd Hsp H.
  destruct (unite_loop _ _ _ _) as [[m' bm']|] eqn:Hrun; [|discriminate].
  simplify_eq. simpl. by apply (unite_loop_bytes _ _ _ _ _ _ Hrun).
Qed.

(** ** Well-formed layouts *)

Lemma block_ok_frame m m' base limit a :
  load m' a = load m a → block_ok m base limit a → block_ok m' base limit a.
Proof. unfold block_ok, block_end. by intros ->. Qed.

Lemma leads_frame m m' base limit : ∀ blocks a target,
  (∀ x, x ∈ blocks → load m' x = load m x) →
  leads m base limit a blocks target → leads m' base limit a blocks target.
Proof.
  induction blocks as [|b rest IH]; intros a target Hsame; simpl; [done|].
  intros (-> & Hok & Hrest).
  assert (load m' a = load m a) as Ha by (apply Hsame, elem_of_cons; by left).
  split; [done|]. split; [by apply (block_ok_frame m)|].
  unfold block_end in *. rewrite Ha. apply IH; [|done].
  intros x Hx. apply Hsame, elem_of_cons. by right.
Qed.

Lemma block_end_gt m base limit a :
  block_ok m base limit a → a + header_size ≤ block_end m a ≤ limit.
Proof. unfold block_ok, block_end. lia. Qed.

Lemma leads_bounds m base limit : ∀ blocks a target,
  leads m base limit a blocks target →
  a ≤ target
  ∧ (blocks ≠ [] → target ≤ limit)
  ∧ ∀ x, x ∈ blocks → a ≤ x ∧ x + header_size ≤ target.
Proof.
  induction blocks as [|b rest IH]; intros a target; simpl.
  - intros ->. split; [lia|]. split; [done|]. by intros x ?%elem_of_nil.
  - intros (-> & Hok & Hrest). destruct (IH _ _ Hrest) as (Hle & Hlim & Hin).
    pose proof (block_end_gt _ _ _ _ Hok) as Hend. unfold header_size in *.
    split; [lia|]. split.
    + intros _. destruct rest as [|c rest]; [simpl in *; lia|].
      apply Hlim. done.
    + intros x [->|Hx]%elem_of_cons; [lia|].
      destruct (Hin x Hx). lia.
Qed.

Lemma leads_app m base limit : ∀ l1 l2 a target,
  leads m base limit a (l1 ++ l2) target ↔
  ∃ mid, leads m base limit a l1 mid ∧ leads m base limit mid l2 target.
Proof.
  induction l1 as [|b l1 IH]; intros l2 a target; simpl.
  - split; [eauto|]. by intros (mid & -> & ?).
  - rewrite IH. split.
    + intros (-> & Hok & mid & H1 & H2). eauto 10.
    + intros (mid & (-> & Hok & H1) & H2). eauto 10.
Qed.

Lemma leads_unique m base limit : ∀ l1 l2 a target,
  leads m base limit a l1 target → leads m base limit a l2 target → l1 = l2.
Proof.
  induction l1 as [|b l1 IH]; intros [|c l2] a target; simpl; [done|..].
  - intros -> (-> & Hok & Hrest).
    apply leads_bounds in Hrest as (? & _).
    pose proof (block_end_gt _ _ _ _ Hok). unfold header_size in *. lia.
  - intros (-> & Hok & Hrest) ->.
    apply leads_bounds in Hrest as (? & _).
    pose proof (block_end_gt _ _ _ _ Hok). unfold header_size in *. lia.
  - intros (-> & Hok & H1) (-> & _ & H2). f_equal. by eapply IH.
Qed.

Lemma leads_NoDup m base limit : ∀ blocks a target,
  leads m base limit a blocks target → NoDup blocks.
Proof.
  induction blocks as [|b rest IH]; intros a target; simpl; [constructor|].
  intros (-> & Hok & Hrest). apply NoDup_cons. split; [|by eapply IH].
  intros Hin. apply leads_bounds in Hrest as (_ & _ & Hb).
  destruct (Hb a Hin). pose proof (block_end_gt _ _ _ _ Hok).
  unfold header_size in *. lia.
Qed.

(** Where a tiling holds, the walk of [block_alloc] and [mem_show] visits
    exactly its blocks and ends. *)
Lemma leads_walk m base limit : ∀ blocks a fuel,
  0 ≤ a → limit < modulus →
  leads m base limit a blocks limit →
  (length blocks ≤ fuel)%nat →
  walk fuel m limit a = blocks
  ∧ walk_ends fuel m limit a = true
  ∧ foldr (λ a acc, header_size + BlockHeader.size (load m a) + acc) 0 blocks
    = limit - a.
Proof.
  induction blocks as [|b rest IH]; intros a fuel Ha Hlim; simpl.
  - intros -> _. destruct fuel; simpl; rewrite Z.ltb_irrefl;
      (split; [done|split; [done|lia]]).
  - intros (-> & Hok & Hrest) Hfuel.
    destruct fuel as [|fuel]; [lia|].
    pose proof (block_end_gt _ _ _ _ Hok) as Hend.
    destruct Hok as (Hsize & _).
    simpl. assert ((a <? limit) = true) as ->
      by (apply Z.ltb_lt; unfold header_size in *; lia).
    assert (ptr_add a (wrap (header_size + BlockHeader.size (load m a)))
            = block_end m a) as ->.
    { unfold ptr_add, block_end in *. unfold header_size in *.
      rewrite (wrap_small (16 + _)) by lia. rewrite wrap_small by lia. lia. }
    destruct (IH (block_end m a) fuel) as (Hw & He & Hs);
      [unfold header_size in *; lia|done|done|simpl in Hfuel; lia|].
    rewrite Hw, He, Hs. split; [done|]. split; [done|]. unfold block_end. lia.
Qed.

Lemma leads_shape m m' base limit : ∀ blocks a target,
  (∀ x, x ∈ blocks → same_shape (load m' x) (load m x)) →
  leads m base limit a blocks target → leads m' base limit a blocks target.
Proof.
  induction blocks as [|b rest IH]; intros a target Hsame; simpl; [done|].
  intros (-> & Hok & Hrest).
  destruct (Hsame a) as (Hs & Hf & Hl); [apply elem_of_cons; by left|].
  assert (block_end m' a = block_end m a) as He
    by (unfold block_end; by rewrite Hs).
  split; [done|]. split.
  - unfold block_ok in *. rewrite He, Hs, Hf, Hl. done.
  - rewrite He. apply IH; [|done].
    intros x Hx. apply Hsame, elem_of_cons. by right.
Qed.

Lemma same_shape_refl h : same_shape h h.
Proof. done. Qed.

Lemma arena_tiled_region m ar blocks x :
  arena_tiled m ar blocks → x ∈ blocks →
  Arena.base ar ≤ x ∧ x + header_size ≤ Arena.base ar + Arena.size ar.
Proof.
  intros (_ & _ & Hl) Hx. apply leads_bounds in Hl as (_ & _ & Hin).
  by apply Hin.
Qed.

Lemma arena_tiled_unique m ar l1 l2 :
  arena_tiled m ar l1 → arena_tiled m ar l2 → l1 = l2.
Proof. intros (_ & _ & H1) (_ & _ & H2). by eapply leads_unique. Qed.

Lemma arena_tiled_shape m m' ar blocks :
  (∀ x, x ∈ blocks → same_shape (load m' x) (load m x)) →
  arena_tiled m ar blocks → arena_tiled m' ar blocks.
Proof.
  intros Hsame (H1 & H2 & Hl). split; [done|]. split; [done|].
  by eapply leads_shape.
Qed.

(** A change of memory inside one arena, which re-tiles that arena, keeps
    the layout; the table follows the tiling. *)
Lemma layout_update arenas m table ar blocks m' blocks' table' :
  layout arenas m table →
  ar ∈ arenas →
  arena_tiled m ar blocks →
  arena_tiled m' ar blocks' →
  (∀ x, x < Arena.base ar ∨ Arena.base ar + Arena.size ar ≤ x →
        load m' x = load m x) →
  (∀ a, a ∈ table' ↔ (a ∈ table ∧ a ∉ blocks) ∨ a ∈ blocks') →
  layout arenas m' table'.
Proof.
  intros (Hapart & Htiled & Htable) Har Hblocks Hblocks' Hframe Htable'.
  assert (∀ ar' bl, ar' ∈ arenas → ar' ≠ ar →
            (arena_tiled m ar' bl ↔ arena_tiled m' ar' bl)) as Hother.
  { intros ar' bl Har' Hne.
    assert (∀ mm x, arena_tiled mm ar' bl → x ∈ bl → load m' x = load m x)
      as Hsame.
    { intros mm x Ht Hx. apply Hframe.
      destruct (arena_tiled_region _ _ _ _ Ht Hx).
      destruct (Hapart ar' ar Har' Har Hne); unfold header_size in *; lia. }
    split; intros Ht; eapply arena_tiled_shape; try exact Ht; intros x Hx.
    - rewrite (Hsame m x Ht Hx). done.
    - rewrite (Hsame m' x Ht Hx). done. }
  split; [done|]. split.
  - intros ar' Har'. destruct (decide (ar' = ar)) as [->|Hne]; [eauto|].
    destruct (Htiled ar' Har') as [bl Hbl]. exists bl. by apply Hother.
  - intros a. rewrite Htable'. split.
    + intros [[Ha Hnot]|Ha]; [|eauto].
      apply Htable in Ha as (ar' & bl & Har' & Hbl & Hin).
      destruct (decide (ar' = ar)) as [->|Hne].
      * rewrite (arena_tiled_unique _ _ _ _ Hbl Hblocks) in Hin. done.
      * exists ar', bl. split; [done|]. split; [by apply Hother|done].
    + intros (ar' & bl & Har' & Hbl & Hin).
      destruct (decide (ar' = ar)) as [->|Hne].
      * right. by rewrite <- (arena_tiled_unique _ _ _ _ Hbl Hblocks').
      * left. apply Hother in Hbl; [|done..]. split.
        -- apply Htable. eauto.
        -- intros Hin'.
           destruct (arena_tiled_region _ _ _ _ Hbl Hin).
           destruct (arena_tiled_region _ _ _ _ Hblocks Hin').
           destruct (Hapart ar' ar Har' Har Hne); unfold header_size in *; lia.
Qed.

Lemma leads_cons_inv m base limit a b post target :
  leads m base limit a (b :: post) target →
  b = a ∧ block_ok m base limit b ∧ leads m base limit (block_end m b) post target.
Proof. simpl. by intros (-> & ? & ?). Qed.

(** Marking a block free or busy leaves every tiling as it is. *)
Lemma mark_tiled m ar blocks b v :
  arena_tiled m ar blocks →
  arena_tiled (store m b (BlockHeader.with_free v (load m b))) ar blocks.
Proof.
  apply arena_tiled_shape. intros x _. rewrite load_store.
  by destruct (decide (b = x)) as [->|].
Qed.

(** Splitting a block of a tiling puts the carved block right after it. *)
Lemma split_tiled m ar pre b post size :
  arena_tiled m ar (pre ++ b :: post) →
  0 ≤ size →
  size + header_size + 4 ≤ BlockHeader.size (load m b) →
  let new_block := b + header_size + size in
  let m' :=
    store
      (store m new_block
         (BlockHeader.mk (BlockHeader.size (load m b) - size - header_size)
            true false (BlockHeader.is_last (load m b))))
      b
      (BlockHeader.mk size (BlockHeader.is_free (load m b))
         (BlockHeader.is_first (load m b)) false) in
  arena_tiled m' ar (pre ++ b :: new_block :: post)
  ∧ (new_block ∉ pre ++ b :: post)
  ∧ b < new_block ∧ new_block + header_size ≤ block_end m b.
Proof.
  intros (Hlo & Hhi & Hl) H0 Hroom new_block m'.
  apply leads_app in Hl as (mid & Hpre & Hrest).
  apply leads_cons_inv in Hrest as (<- & Hok & Hpost).
  pose proof (leads_bounds _ _ _ _ _ _ Hpre) as (Hble & _ & Hinpre).
  pose proof (leads_bounds _ _ _ _ _ _ Hpost) as (Hendle & _ & Hinpost).
  destruct Hok as (Hsz & Hend & Hfirst & Hlast).
  assert (block_end m b = new_block + header_size
                          + (BlockHeader.size (load m b) - size - header_size))
    as Hbe by (unfold block_end, new_block; lia).
  assert (new_block ≠ b) as Hne by (unfold new_block, header_size in *; lia).
  assert (load m' b = BlockHeader.mk size (BlockHeader.is_free (load m b))
                        (BlockHeader.is_first (load m b)) false) as Hb
    by (unfold m'; by rewrite load_store_eq).
  assert (load m' new_block
          = BlockHeader.mk (BlockHeader.size (load m b) - size - header_size)
              true false (BlockHeader.is_last (load m b))) as Hnb
    by (unfold m'; by rewrite load_store_ne, load_store_eq).
  assert (∀ x, x ≠ b → x ≠ new_block → load m' x = load m x) as Hframe
    by (intros x ? ?; unfold m'; by rewrite !load_store_ne).
  split; [|split].
  - split; [done|]. split; [done|].
    apply leads_app. exists b. split.
    + eapply leads_frame; [|exact Hpre]. intros x Hx.
      destruct (Hinpre x Hx). apply Hframe; unfold new_block, header_size in *; lia.
    + simpl. split; [done|]. split.
      { unfold block_ok, block_end. rewrite Hb. simpl.
        split; [done|]. split; [unfold block_end, header_size in *; lia|].
        split; [done|].
        symmetry. apply bool_decide_eq_false.
        unfold block_end, header_size in *. lia. }
      assert (block_end m' b = new_block) as -> by (unfold block_end; by rewrite Hb).
      split; [done|]. split.
      { unfold block_ok, block_end. rewrite Hnb. simpl.
        fold (block_end m b) in *.
        split; [unfold header_size in *; lia|].
        split; [unfold block_end, header_size in *; lia|].
        split.
        - symmetry. apply bool_decide_eq_false. unfold new_block, header_size in *. lia.
        - rewrite Hlast. apply bool_decide_ext. unfold block_end in *. lia. }
      assert (block_end m' new_block = block_end m b) as ->
        by (unfold block_end at 1; rewrite Hnb; simpl; lia).
      eapply leads_frame; [|exact Hpost]. intros x Hx.
      destruct (Hinpost x Hx).
      apply Hframe; unfold block_end, new_block, header_size in *; lia.
  - intros [Hin|Hin]%elem_of_app.
    + destruct (Hinpre _ Hin). unfold new_block, header_size in *. lia.
    + apply elem_of_cons in Hin as [?|Hin]; [done|].
      destruct (Hinpost _ Hin). unfold block_end, new_block, header_size in *. lia.
  - unfold block_end, new_block, header_size in *. lia.
Qed.

(** Merging a block of a tiling with the block after it removes that block
    from the tiling. *)
Lemma merge_tiled m ar pre b nx post :
  arena_tiled m ar (pre ++ b :: nx :: post) →
  arena_tiled (merge_into m b nx) ar (pre ++ b :: post)
  ∧ (nx ∉ pre ++ b :: post)
  ∧ nx = block_end m b.
Proof.
  intros (Hlo & Hhi & Hl).
  apply leads_app in Hl as (mid & Hpre & Hrest).
  apply leads_cons_inv in Hrest as (<- & Hok & Hrest).
  apply leads_cons_inv in Hrest as (Hnx & Hoknx & Hpost).
  pose proof (leads_bounds _ _ _ _ _ _ Hpre) as (Hble & _ & Hinpre).
  pose proof (leads_bounds _ _ _ _ _ _ Hpost) as (_ & _ & Hinpost).
  pose proof (block_end_gt _ _ _ _ Hok) as Hbend.
  pose proof (block_end_gt _ _ _ _ Hoknx) as Hnend.
  destruct Hok as (Hsz & Hend & Hfirst & Hlast).
  destruct Hoknx as (Hnsz & Hnxend & Hnfirst & Hnlast).
  assert (nx ≠ b) as Hne by (unfold block_end, header_size in *; lia).
  assert (load (merge_into m b nx) b
          = BlockHeader.mk
              (BlockHeader.size (load m b) + header_size
               + BlockHeader.size (load m nx))
              (BlockHeader.is_free (load m b))
              (BlockHeader.is_first (load m b))
              (BlockHeader.is_last (load m nx))) as Hb.
  { rewrite load_merge_into_block by done. f_equal.
    unfold block_end, header_size in *.
    rewrite (wrap_small (16 + _)) by lia. rewrite wrap_small by lia. lia. }
  assert (block_end (merge_into m b nx) b = block_end m nx) as Hbe.
  { unfold block_end at 1. rewrite Hb. simpl. unfold block_end in *. lia. }
  split; [|split; [|done]].
  - split; [done|]. split; [done|].
    apply leads_app. exists b. split.
    + eapply leads_frame; [|exact Hpre]. intros x Hx.
      destruct (Hinpre x Hx). apply merge_into_other.
      unfold header_size in *. lia.
    + simpl. split; [done|]. split.
      { unfold block_ok. rewrite Hbe, Hb. simpl.
        split; [unfold header_size in *; lia|]. done. }
      rewrite Hbe. eapply leads_frame; [|exact Hpost]. intros x Hx.
      destruct (Hinpost x Hx). apply merge_into_other.
      unfold block_end, header_size in *. lia.
  - intros [Hin|Hin]%elem_of_app.
    + destruct (Hinpre _ Hin). unfold block_end, header_size in *. lia.
    + apply elem_of_cons in Hin as [?|Hin]; [done|].
      destruct (Hinpost _ Hin). unfold block_end, header_size in *. lia.
Qed.

Lemma layout_table_ext arenas m table table' :
  (∀ a, a ∈ table' ↔ a ∈ table) → layout arenas m table → layout arenas m table'.
Proof.
  intros Hext (H1 & H2 & H3). split; [done|]. split; [done|].
  intros a. by rewrite Hext.
Qed.

Lemma layout_shape arenas m m' table :
  (∀ x, same_shape (load m' x) (load m x)) →
  layout arenas m table → layout arenas m' table.
Proof.
  intros Hsame (H1 & H2 & H3).
  assert (∀ ar bl, arena_tiled m ar bl ↔ arena_tiled m' ar bl) as Hiff.
  { intros ar bl. split; apply arena_tiled_shape; intros x _; [done|].
    destruct (Hsame x) as (? & ? & ?). by split_and!. }
  split; [done|]. split.
  - intros ar Har. destruct (H2 ar Har) as [bl Hbl]. exists bl. by apply Hiff.
  - intros a. rewrite H3. by setoid_rewrite Hiff.
Qed.

(** In a layout the successor address of a block is its end. *)
Lemma successor_block_end m ar blocks a :
  arena_tiled m ar blocks → a ∈ blocks →
  successor m a = block_end m a
  ∧ header_size ≤ a ∧ block_end m a < modulus.
Proof.
  intros Ht Ha. destruct (arena_tiled_region _ _ _ _ Ht Ha) as [Hlo Hhi].
  destruct Ht as (Hbase & Hlim & Hl).
  apply list_elem_of_split in Ha as (pre & post & ->).
  apply leads_app in Hl as (mid & Hpre & Hrest).
  apply leads_cons_inv in Hrest as (<- & Hok & _).
  pose proof (block_end_gt _ _ _ _ Hok) as Hend. destruct Hok as (Hsz & _).
  unfold successor. rewrite ptr_add_add. unfold block_end in *.
  rewrite wrap_small by (unfold header_size in *; lia).
  split; [lia|]. unfold header_size in *. lia.
Qed.

(** The merge of [block_unite] keeps the layout: the successor it merges
    with is the next block of the same arena. *)
Lemma merge_layout arenas m table b :
  layout arenas m table → b ∈ table → mergeable m table b = true →
  successor m b ≠ b
  ∧ layout arenas (merge_into m b (successor m b)) (erase (successor m b) table).
Proof.
  intros Hlay Hb Hm. pose proof Hlay as (Hapart & Htiled & Htable).
  apply mergeable_successor in Hm as (_ & Htr & _).
  apply Htable in Hb as (ar & blocks & Har & Hblocks & Hin).
  destruct (successor_block_end _ _ _ _ Hblocks Hin) as (Hsucc & Hblo & Hbhi).
  rewrite Hsucc in *. set (nx := block_end m b) in *.
  apply Htable in Htr as (ar' & bl' & Har' & Hbl' & Hin').
  destruct (arena_tiled_region _ _ _ _ Hbl' Hin') as [Hnlo Hnhi].
  destruct (arena_tiled_region _ _ _ _ Hblocks Hin) as [Hlo Hhi].
  apply list_elem_of_split in Hin as (pre & post0 & ->).
  pose proof Hblocks as (_ & _ & Hl).
  apply leads_app in Hl as (mid & Hpre & Hrest).
  apply leads_cons_inv in Hrest as (<- & Hok & Hpost).
  pose proof (block_end_gt _ _ _ _ Hok) as Hend. fold nx in Hend, Hpost.
  destruct post0 as [|c post].
  { simpl in Hpost. exfalso.
    destruct (decide (ar' = ar)) as [->|Hne]; [unfold header_size in *; lia|].
    destruct (Hapart ar' ar Har' Har Hne); unfold header_size in *; lia. }
  apply leads_cons_inv in Hpost as (-> & _ & _).
  destruct (merge_tiled _ _ _ _ _ _ Hblocks) as (Htiled' & Hnotin & _).
  split; [unfold header_size in *; lia|].
  eapply layout_update; [exact Hlay|exact Har|exact Hblocks|exact Htiled'| |].
  - intros x Hx. apply merge_into_other. unfold header_size in *. lia.
  - intros a. rewrite elem_of_erase. split.
    + intros [Hne Ha].
      destruct (decide (a ∈ pre ++ b :: nx :: post)) as [Hi|Hi]; [|by left].
      right. rewrite elem_of_app, !elem_of_cons in Hi.
      rewrite elem_of_app, elem_of_cons. tauto.
    + intros [[Ha Hnot]|Ha].
      * split; [|done]. intros ->. apply Hnot.
        rewrite elem_of_app, !elem_of_cons. tauto.
      * split; [by intros ->|]. apply Htable. exists ar, (pre ++ b :: nx :: post).
        split; [done|]. split; [done|].
        rewrite elem_of_app, elem_of_cons in Ha.
        rewrite elem_of_app, !elem_of_cons. tauto.
Qed.

Lemma erase_app_cons nx visited block rest :
  nx ≠ block →
  erase nx (visited ++ block :: rest) = erase nx visited ++ block :: erase nx rest.
Proof.
  intros Hne. unfold erase. rewrite filter_app, filter_cons.
  destruct (decide (block ≠ nx)) as [|Hn]; [done|]. destruct Hn. congruence.
Qed.

(** On a layout the coalescing pass is defined and keeps the layout. *)
Lemma unite_loop_layout arenas fuel : ∀ m visited todo,
  layout arenas m (visited ++ todo) →
  (length visited + 2 * length todo ≤ fuel)%nat →
  ∃ m' bm', unite_loop fuel m visited todo = Some (m', bm')
            ∧ layout arenas m' bm'.
Proof.
  induction fuel as [|fuel IH]; intros m visited todo Hlay Hfuel.
  - destruct todo; [|simpl in Hfuel; lia]. rewrite app_nil_r in Hlay.
    simpl. eauto.
  - destruct todo as [|block rest].
    { rewrite app_nil_r in Hlay. simpl. eauto. }
    rewrite unite_loop_step.
    destruct (mergeable m (visited ++ block :: rest) block) eqn:Hm.
    + assert (block ∈ visited ++ block :: rest) as Hb
        by (apply elem_of_app; right; apply elem_of_cons; by left).
      destruct (merge_layout _ _ _ _ Hlay Hb Hm) as (Hne & Hlay').
      apply mergeable_successor in Hm as (_ & Htr & _).
      set (nx := successor m block) in *.
      apply Z.eqb_neq in Hne as Hneb. rewrite Hneb.
      rewrite erase_app_cons in Hlay' by done.
      apply IH; [done|].
      pose proof (length_erase_le nx visited).
      pose proof (length_erase_le nx rest).
      simpl in *.
      apply elem_of_app in Htr as [Htr|Htr].
      * pose proof (length_erase_lt _ _ Htr). lia.
      * apply elem_of_cons in Htr as [?|Htr]; [done|].
        pose proof (length_erase_lt _ _ Htr). lia.
    + apply IH.
      * by rewrite <- app_assoc.
      * rewrite length_app. simpl in *. lia.
Qed.

Lemma block_unite_layout s :
  well_formed s →
  ∃ s1, block_unite s = Some s1 ∧ well_formed s1
        ∧ arena_list s1 = arena_list s
        ∧ default_arena_size s1 = default_arena_size s.
Proof.
  intros Hwf. unfold block_unite.
  destruct (unite_loop_layout (arena_list s) (2 * length (block_map s))
              (mem s) [] (block_map s)) as (m' & bm' & -> & Hlay);
    [done|simpl; lia|].
  eexists. split; [done|]. done.
Qed.

Lemma with_free_shape v h : same_shape (BlockHeader.with_free v h) h.
Proof. done. Qed.

Lemma mark_layout arenas m table b v :
  layout arenas m table →
  layout arenas (store m b (BlockHeader.with_free v (load m b))) table.
Proof.
  apply layout_shape. intros x. rewrite load_store.
  by destruct (decide (b = x)) as [->|].
Qed.

(** Freeing under a layout. *)
Lemma mem_free_layout s ptr :
  well_formed s →
  ∃ s1, mem_free s ptr = Some s1 ∧ well_formed s1
        ∧ arena_list s1 = arena_list s
        ∧ default_arena_size s1 = default_arena_size s.
Proof.
  intros Hwf. unfold mem_free.
  destruct (ptr =? nullptr); [by eauto|].
  destruct (tracked (block_map s) (wrap (ptr - header_size))); [|by eauto].
  destruct (block_unite_layout
              (set_mem (store (mem s) (wrap (ptr - header_size))
                          (BlockHeader.with_free true
                             (load (mem s) (wrap (ptr - header_size))))) s))
    as (s1 & Hrun & Hwf1 & Hal & Hd); [by apply mark_layout|].
  exists s1. done.
Qed.

(** A tracked block of a layout that fits an aligned request. *)
Lemma split_layout s b size :
  well_formed s → b ∈ block_map s →
  0 ≤ size → size mod 4 = 0 →
  size ≤ BlockHeader.size (load (mem s) b) →
  well_formed (block_split s b size)
  ∧ arena_list (block_split s b size) = arena_list s
  ∧ default_arena_size (block_split s b size) = default_arena_size s
  ∧ b ∈ block_map (block_split s b size)
  ∧ BlockHeader.is_free (load (mem (block_split s b size)) b)
    = BlockHeader.is_free (load (mem s) b)
  ∧ size ≤ BlockHeader.size (load (mem (block_split s b size)) b)
  ∧ block_end (mem (block_split s b size)) b ≤ block_end (mem s) b
  ∧ (∀ a, a ∈ block_map s → a ≠ b →
          a ∈ block_map (block_split s b size)
          ∧ load (mem (block_split s b size)) a = load (mem s) a)
  ∧ (∀ a, a ∈ block_map (block_split s b size) → a ∉ block_map s →
          BlockHeader.is_free (load (mem (block_split s b size)) a) = true
          ∧ block_end (mem s) b = block_end (mem (block_split s b size)) a
          ∧ block_end (mem (block_split s b size)) b = a).
Proof.
  intros Hwf Hb H0 Hal Hle. pose proof Hwf as (Hapart & Htiled & Htable).
  apply Htable in Hb as Hb'. destruct Hb' as (ar & blocks & Har & Hblocks & Hin).
  destruct (successor_block_end _ _ _ _ Hblocks Hin) as (_ & Hblo & Hbhi).
  assert (0 ≤ BlockHeader.size (load (mem s) b)) as Hsz by lia.
  assert (align size = size) as Halign
    by (apply align_aligned; unfold block_end, header_size in *; lia).
  assert (wrap (size + header_size + 4) = size + header_size + 4) as Hthr
    by (apply wrap_small; unfold block_end, header_size in *; lia).
  destruct (Z_le_dec (size + header_size + 4)
              (BlockHeader.size (load (mem s) b))) as [Hroom|Hno].
  - assert (ptr_add (ptr_add b header_size) (align size)
            = b + header_size + size) as Hnb.
    { rewrite Halign, ptr_add_add.
      rewrite wrap_small by (unfold block_end, header_size in *; lia). lia. }
    apply list_elem_of_split in Hin as (pre & post & ->).
    destruct (split_tiled _ _ _ _ _ _ Hblocks H0 Hroom)
      as (Htiled' & Hnotin & Hlt & Hend).
    rewrite block_split_mem; rewrite ?Hnb, ?Halign, ?Hthr;
      [|lia|unfold header_size in *; lia].
    clear Hnb. set (nb := b + header_size + size) in *.
    rewrite wrap_small by (unfold block_end, header_size in *; lia).
    assert (nb ∉ block_map s) as Hfresh.
    { intros Hnbin. apply Htable in Hnbin as (ar' & bl' & Har' & Hbl' & Hin').
      destruct (arena_tiled_region _ _ _ _ Hbl' Hin').
      assert (b ∈ pre ++ b :: post) as Hbin
        by (apply elem_of_app; right; apply elem_of_cons; by left).
      destruct (arena_tiled_region _ _ _ _ Hblocks Hbin).
      pose proof Hblocks as (_ & _ & Hl).
      apply leads_app in Hl as (mid & _ & Hrest).
      apply leads_cons_inv in Hrest as (<- & Hok & _).
      pose proof (block_end_gt _ _ _ _ Hok).
      destruct (decide (ar' = ar)) as [->|Hne].
      - rewrite (arena_tiled_unique _ _ _ _ Hbl' Hblocks) in Hin'. done.
      - destruct (Hapart ar' ar Har' Har Hne); unfold header_size in *; lia. }
    unfold well_formed. cbn [mem block_map arena_list default_arena_size].
    split.
    { eapply (layout_update _ _ _ _ _ _ _ _ Hwf Har Hblocks Htiled').
      * intros x Hx.
        assert (b ∈ pre ++ b :: post) as Hbin
          by (apply elem_of_app; right; apply elem_of_cons; by left).
        destruct (arena_tiled_region _ _ _ _ Hblocks Hbin).
        pose proof Hblocks as (_ & _ & Hl).
        apply leads_app in Hl as (mid & _ & Hrest).
        apply leads_cons_inv in Hrest as (<- & Hok & _).
        pose proof (block_end_gt _ _ _ _ Hok).
        rewrite !load_store_ne; [done|unfold header_size in *; lia..].
      * intros a. rewrite elem_of_register. split.
        -- intros [->|Ha].
           ++ right. rewrite elem_of_app, !elem_of_cons. tauto.
           ++ destruct (decide (a ∈ pre ++ b :: post)) as [Hi|Hi]; [|by left].
              right. rewrite elem_of_app, !elem_of_cons in *. tauto.
        -- intros [[Ha _]|Ha]; [by right|].
           rewrite elem_of_app, !elem_of_cons in Ha.
           destruct (decide (a = nb)) as [|Hne]; [by left|right].
           apply Htable. exists ar, (pre ++ b :: post).
           split; [done|]. split; [done|].
           rewrite elem_of_app, elem_of_cons. tauto. }
    split; [done|]. split; [done|].
    split; [apply elem_of_register; by right|].
    split; [by rewrite load_store_eq|].
    split; [rewrite load_store_eq; simpl; lia|].
    split.
    { unfold block_end. rewrite load_store_eq. simpl.
      unfold header_size in *. lia. }
    split.
    { intros a Ha Hab. split; [apply elem_of_register; by right|].
      rewrite !load_store_ne; [done| |done]. intros ->. done. }
    intros a [->|Ha]%elem_of_register Hnot; [|done].
    unfold block_end. rewrite load_store_eq, load_store_ne, load_store_eq
      by (unfold header_size in *; lia).
    simpl. split; [done|]. unfold nb. lia.
  - rewrite block_split_unchanged by (rewrite Halign, Hthr; lia).
    split_and!; try done; lia.
Qed.

Lemma hand_out_layout s b size :
  well_formed s → b ∈ block_map s →
  0 ≤ size → size mod 4 = 0 →
  size ≤ BlockHeader.size (load (mem s) b) →
  well_formed (hand_out s b size)
  ∧ arena_list (hand_out s b size) = arena_list s
  ∧ default_arena_size (hand_out s b size) = default_arena_size s
  ∧ b ∈ block_map (hand_out s b size)
  ∧ BlockHeader.is_free (load (mem (hand_out s b size)) b) = false
  ∧ size ≤ BlockHeader.size (load (mem (hand_out s b size)) b)
  ∧ block_end (mem (hand_out s b size)) b ≤ block_end (mem s) b
  ∧ (∀ a, a ∈ block_map s → a ≠ b →
          a ∈ block_map (hand_out s b size)
          ∧ load (mem (hand_out s b size)) a = load (mem s) a)
  ∧ (∀ a, a ∈ block_map (hand_out s b size) → a ∉ block_map s →
          BlockHeader.is_free (load (mem (hand_out s b size)) a) = true).
Proof.
  intros Hwf Hb H0 Hal Hle.
  destruct (split_layout s b size Hwf Hb H0 Hal Hle)
    as (Hwf' & Harenas & Hdef & Hb' & Hfree & Hsize & Hend & Hothers & Hnew).
  unfold hand_out. set (s1 := block_split s b size) in *.
  unfold well_formed. cbn [mem block_map arena_list default_arena_size set_mem].
  split; [by apply mark_layout|]. split; [done|]. split; [done|].
  split; [done|]. split; [by rewrite load_store_eq|].
  split; [by rewrite load_store_eq|].
  split; [unfold block_end in *; by rewrite load_store_eq|].
  split.
  - intros a Ha Hab. destruct (Hothers a Ha Hab) as [Hin Hload].
    split; [done|]. by rewrite load_store_ne.
  - intros a Ha Hnot. destruct (Hnew a Ha Hnot) as (Hf & _).
    rewrite load_store_ne; [done|]. intros ->. done.
Qed.

Lemma apart_sym a1 a2 : apart a1 a2 → apart a2 a1.
Proof. unfold apart. tauto. Qed.

Lemma arena_create_layout os s size :
  let asize := align (Z.max size (default_arena_size s)) in
  well_formed s →
  header_size ≤ asize →
  os asize ≠ nullptr →
  fresh_region s (os asize) asize →
  ∃ s1, arena_create os s size = (s1, Some (Arena.mk asize (os asize)))
        ∧ well_formed s1
        ∧ arena_list s1 = Arena.mk asize (os asize) :: arena_list s
        ∧ default_arena_size s1 = default_arena_size s
        ∧ os asize ∈ block_map s1
        ∧ (os asize ∉ block_map s)
        ∧ load (mem s1) (os asize)
          = BlockHeader.mk (asize - header_size) true true true
        ∧ (∀ a, a ∈ block_map s →
                a ∈ block_map s1 ∧ load (mem s1) a = load (mem s) a)
        ∧ (∀ a, a ∈ block_map s1 → a = os asize ∨ a ∈ block_map s).
Proof.
  intros asize Hwf Hlo Hos (Hbase & Hspace & Hfresh).
  pose proof Hwf as (Hapart & Htiled & Htable).
  pose proof (align_range (Z.max size (default_arena_size s))) as Hr.
  fold asize in Hr.
  unfold arena_create. fold asize. apply Z.eqb_neq in Hos as Hosb. rewrite Hosb.
  rewrite wrap_small by (unfold header_size, modulus in *; lia).
  set (base := os asize) in *. set (new := Arena.mk asize base).
  set (m' := store (mem s) base (BlockHeader.mk (asize - header_size) true true true)).
  assert (∀ ar bl x, ar ∈ arena_list s → arena_tiled (mem s) ar bl ∨ arena_tiled m' ar bl →
            x ∈ bl → x ≠ base) as Hnotbase.
  { intros ar bl x Har Hbl Hx ->.
    assert (Arena.base ar ≤ base ∧ base + header_size ≤ Arena.base ar + Arena.size ar)
      as [Hx1 Hx2] by (destruct Hbl as [Hbl|Hbl]; by eapply arena_tiled_region).
    destruct (Hfresh ar Har) as [Hap|Hap]; simpl in Hap;
      unfold header_size in *; lia. }
  assert (∀ ar bl, ar ∈ arena_list s →
            (arena_tiled (mem s) ar bl ↔ arena_tiled m' ar bl)) as Hold.
  { intros ar bl Har. split; intros Hbl;
      eapply arena_tiled_shape; try exact Hbl; intros x Hx;
      unfold m'; rewrite load_store_ne; try done;
      intros Heq; symmetry in Heq; revert Heq;
      eapply Hnotbase; eauto. }
  assert (arena_tiled m' new [base]) as Hnew.
  { split; [done|]. split; [done|]. simpl.
    split; [done|]. split; [|unfold block_end, m'; rewrite load_store_eq; simpl; lia].
    unfold block_ok, block_end, m'. rewrite load_store_eq. simpl.
    split; [lia|]. split; [lia|]. split.
    - symmetry. by apply bool_decide_eq_true.
    - symmetry. apply bool_decide_eq_true. lia. }
  assert (new ∉ arena_list s) as Hnotin.
  { intros Hin. destruct (Hfresh new Hin) as [Hap|Hap]; simpl in Hap;
      unfold header_size in *; lia. }
  assert (base ∉ block_map s) as Hbfresh.
  { intros Hin. apply Htable in Hin as (ar & bl & Har & Hbl & Hx).
    by eapply (Hnotbase ar bl base Har); [left|..]. }
  eexists. split; [reflexivity|]. unfold well_formed.
  cbn [mem block_map arena_list default_arena_size]. fold new m'.
  split; [|split; [done|split; [done|split; [apply elem_of_register; by left|
    split; [done|split; [by unfold m'; rewrite load_store_eq|split]]]]]].
  - split; [|split].
    + intros a1 a2 [->|H1]%elem_of_cons [->|H2]%elem_of_cons Hne.
      * done.
      * by apply Hfresh.
      * by apply apart_sym, Hfresh.
      * by apply Hapart.
    + intros ar [->|Har]%elem_of_cons; [eauto|].
      destruct (Htiled ar Har) as [bl Hbl]. exists bl. by apply Hold.
    + intros a. rewrite elem_of_register. split.
      * intros [->|Ha].
        -- exists new, [base]. split; [apply elem_of_cons; by left|].
           split; [done|]. apply elem_of_cons. by left.
        -- apply Htable in Ha as (ar & bl & Har & Hbl & Hx).
           exists ar, bl. split; [apply elem_of_cons; by right|].
           split; [by apply Hold|done].
      * intros (ar & bl & [->|Har]%elem_of_cons & Hbl & Hx).
        -- rewrite (arena_tiled_unique _ _ _ _ Hbl Hnew) in Hx.
           apply elem_of_cons in Hx as [->|Hx]; [by left|].
           by apply elem_of_nil in Hx.
        -- right. apply Htable. exists ar, bl. split; [done|].
           split; [by apply Hold|done].
  - intros a Ha. split; [apply elem_of_register; by right|].
    unfold m'. rewrite load_store_ne; [done|]. intros <-. done.
  - intros a Ha. by apply elem_of_register in Ha.
Qed.

(** Under a layout the walk over an arena visits its tiling, within as many
    steps as the table has entries. *)
Lemma tiled_walk fuel s ar blocks :
  well_formed s → ar ∈ arena_list s → arena_tiled (mem s) ar blocks →
  (length (block_map s) ≤ fuel)%nat →
  arena_blocks fuel (mem s) ar = blocks
  ∧ arena_walk_ends fuel (mem s) ar = true
  ∧ arena_sum fuel (mem s) ar = Arena.size ar.
Proof.
  intros (_ & _ & Htable) Har Hblocks Hfuel.
  pose proof Hblocks as (Hbase & Hlim & Hl).
  assert (length blocks ≤ length (block_map s))%nat as Hlen.
  { apply submseteq_length, NoDup_submseteq; [by eapply leads_NoDup|].
    intros x Hx. apply Htable. eauto. }
  pose proof (leads_bounds _ _ _ _ _ _ Hl) as (Hle & _).
  unfold arena_blocks, arena_walk_ends, arena_sum, arena_blocks, arena_limit.
  rewrite wrap_small by (unfold header_size in *; lia).
  destruct (leads_walk (mem s) (Arena.base ar) (Arena.base ar + Arena.size ar)
              blocks (Arena.base ar) fuel) as (Hw & He & Hs);
    [unfold header_size in *; lia|done|done|lia|].
  rewrite Hw, He, Hs. split; [done|]. split; [done|]. lia.
Qed.

Lemma find_none_fits (m : memory) size blocks :
  find (fits m size) blocks = None ↔ ∀ a, a ∈ blocks → fits m size a = false.
Proof.
  split.
  - intros H a Ha. apply list_elem_of_In in Ha. by eapply find_none in H.
  - intros H. induction blocks as [|b blocks IH]; simpl; [done|].
    rewrite H by (apply elem_of_cons; by left).
    apply IH. intros a Ha. apply H, elem_of_cons. by right.
Qed.

(** The scan of [mem_alloc] under a layout: it ends, and either nothing
    fits and nothing changed, or a tracked block that fits is handed out. *)
Lemma mem_alloc_scan_layout fuel s size :
  well_formed s →
  (length (block_map s) ≤ fuel)%nat →
  ∀ arenas, (∀ ar, ar ∈ arenas → ar ∈ arena_list s) →
  (mem_alloc_scan fuel s arenas size = Some (s, nullptr)
   ∧ ∀ ar blocks a, ar ∈ arenas → arena_tiled (mem s) ar blocks → a ∈ blocks →
       fits (mem s) (align size) a = false)
  ∨ ∃ a, a ∈ block_map s
         ∧ fits (mem s) (align size) a = true
         ∧ header_size ≤ a ∧ a + header_size < modulus
         ∧ mem_alloc_scan fuel s arenas size
           = Some (hand_out s a (align size), a + header_size).
Proof.
  intros Hwf Hfuel. pose proof Hwf as (_ & Htiled & Htable).
  induction arenas as [|ar arenas IH]; intros Hsub.
  - left. split; [done|]. by intros ar blocks a ?%elem_of_nil.
  - assert (ar ∈ arena_list s) as Har by (apply Hsub, elem_of_cons; by left).
    destruct (Htiled ar Har) as [blocks Hblocks].
    destruct (tiled_walk fuel s ar blocks Hwf Har Hblocks Hfuel) as (Hw & He & _).
    simpl. rewrite block_alloc_find, Hw, He.
    destruct (find (fits (mem s) (align size)) blocks) as [a|] eqn:Hfind.
    + right. apply find_some in Hfind as [Hin Hfit].
      apply list_elem_of_In in Hin.
      destruct (successor_block_end _ _ _ _ Hblocks Hin) as (_ & Hlo & Hhi).
      destruct (arena_tiled_region _ _ _ _ Hblocks Hin) as [_ Hreg].
      pose proof Hblocks as (_ & Hlim & _).
      assert (ptr_add a header_size = a + header_size) as ->
        by (apply wrap_small; unfold header_size in *; lia).
      assert ((a + header_size =? nullptr) = false) as ->
        by (apply Z.eqb_neq; unfold nullptr, header_size in *; lia).
      exists a. split; [apply Htable; eauto|]. split; [done|].
      split; [done|]. split; [lia|done].
    + simpl.
      destruct IH as [[Hscan Hnone]|(a & Ha)].
      * intros ar' Har'. apply Hsub, elem_of_cons. by right.
      * left. split; [done|].
        intros ar' bl a [->|Har']%elem_of_cons Hbl Ha.
        -- rewrite (arena_tiled_unique _ _ _ _ Hbl Hblocks) in Ha.
           by eapply find_none_fits.
        -- by eapply Hnone.
      * right. eauto.
Qed.

Lemma align_request n :
  0 < n → n + header_size + 4 ≤ modulus →
  n ≤ align n ∧ 0 ≤ align n ∧ align n mod 4 = 0
  ∧ align n + header_size + 4 ≤ modulus.
Proof.
  intros H0 Hn.
  destruct (align_round_up n) as [[Hle Hlt] Hm];
    [unfold header_size, modulus in *; lia|].
  split; [done|]. split; [lia|]. split; [done|].
  pose proof (Z.div_mod (align n) 4 ltac:(lia)).
  unfold header_size, modulus in *. lia.
Qed.

Lemma length_register bm a : (length (register bm a) ≤ S (length bm))%nat.
Proof. unfold register. destruct (tracked bm a); simpl; lia. Qed.

Lemma block_split_length s block size :
  (length (block_map (block_split s block size)) ≤ S (length (block_map s)))%nat.
Proof.
  unfold block_split. destruct (_ <=? _); [|lia].
  cbn [block_map]. apply length_register.
Qed.

Lemma hand_out_length s block size :
  (length (block_map (hand_out s block size)) ≤ S (length (block_map s)))%nat.
Proof. unfold hand_out. cbn [block_map set_mem]. apply block_split_length. Qed.

Lemma arena_create_length os s size s1 r :
  arena_create os s size = (s1, r) →
  (length (block_map s1) ≤ S (length (block_map s)))%nat.
Proof.
  unfold arena_create. destruct (_ =? _); intros [= <- <-]; [lia|].
  cbn [block_map]. apply length_register.
Qed.

Lemma mem_alloc_layout (fuel : nat) (os : provider) (s : state) (n : Z) :
  let asize :=
    align (Z.max (align n + header_size) (default_arena_size s)) in
  well_formed s →
  0 < n → n + header_size + 4 ≤ modulus →
  0 ≤ default_arena_size s ≤ modulus - 4 →
  (os asize = nullptr ∨ fresh_region s (os asize) asize) →
  (length (block_map s) < fuel)%nat →
  ∃ s' p,
    mem_alloc fuel os s n = Some (s', p)
    ∧ well_formed s'
    ∧ default_arena_size s' = default_arena_size s
    ∧ (p = nullptr →
       s' = s ∧ os asize = nullptr
       ∧ ∀ a, a ∈ block_map s → fits (mem s) (align n) a = false)
    ∧ (p ≠ nullptr →
       let b := p - header_size in
       header_size ≤ b
       ∧ b ∈ block_map s'
       ∧ BlockHeader.is_free (load (mem s') b) = false
       ∧ n ≤ BlockHeader.size (load (mem s') b)
       ∧ (b ∈ block_map s → BlockHeader.is_free (load (mem s) b) = true)
       ∧ (∀ a, a ∈ block_map s → a ≠ b →
               a ∈ block_map s' ∧ load (mem s') a = load (mem s) a)
       ∧ (∀ a, a ∈ block_map s' → a ≠ b → a ∉ block_map s →
               BlockHeader.is_free (load (mem s') a) = true)
       ∧ (length (block_map s') ≤ length (block_map s) + 2)%nat).
Proof.
  intros asize Hwf H0 Hn Hdef Hos Hfuel.
  destruct (align_request n H0 Hn) as (Hle & Hsz0 & Hsz4 & Hszhi).
  set (sz := align n) in *.
  assert (align sz = sz) as Hidem by apply align_idem.
  unfold mem_alloc. assert ((n =? 0) = false) as -> by (apply Z.eqb_neq; lia).
  fold sz.
  destruct (mem_alloc_scan_layout fuel s sz Hwf ltac:(lia) (arena_list s))
    as [[Hscan Hnone]|(a & Ha & Hfit & Halo & Hahi & Hscan)]; [done| |].
  - (* no arena holds a fit *)
    rewrite Hscan. simpl.
    rewrite wrap_small by (unfold header_size, modulus in *; lia).
    destruct (align_round_up (Z.max (sz + header_size) (default_arena_size s)))
      as [[Hge _] _]; [unfold header_size in *; lia|]. fold asize in Hge.
    destruct Hos as [Hos|Hfresh].
    + unfold arena_create. fold asize. rewrite Hos. simpl.
      exists s, nullptr. split; [done|]. split; [done|]. split; [done|].
      split; [|done]. intros _. split; [done|]. split; [done|].
      intros a Ha. pose proof Hwf as (_ & _ & Htable).
      apply Htable in Ha as (ar & bl & Har & Hbl & Hin).
      rewrite <- Hidem. by eapply Hnone.
    + assert (os asize ≠ nullptr) as Hnn
        by (destruct Hfresh as (? & _); unfold nullptr, header_size in *; lia).
      destruct (arena_create_layout os s (sz + header_size))
        as (s1 & Hcreate & Hwf1 & Hlist1 & Hdef1 & Hin1 & Hnotin & Hload1
            & Hold1 & Hnew1); fold asize;
        [done|unfold header_size in *; lia|done|done|].
      fold asize in Hcreate, Hlist1, Hin1, Hnotin, Hload1, Hnew1.
      rewrite Hcreate.
      destruct fuel as [|fuel]; [lia|].
      destruct (block_alloc_new_arena fuel os s (sz + header_size) sz Hnn)
        as [_ Hba]; fold asize; rewrite ?Hidem;
        [unfold header_size in *; lia..|].
      fold asize in Hba. rewrite (Hba _ Hcreate). clear Hba.
      destruct Hfresh as (Hblo & Hbhi & _).
      unfold arena_limit. cbn [Arena.base Arena.size].
      rewrite wrap_small by (unfold header_size in *; lia).
      assert ((os asize <? os asize + asize) = true) as ->
        by (apply Z.ltb_lt; unfold header_size in *; lia).
      assert (ptr_add (os asize) header_size = os asize + header_size) as ->
        by (apply wrap_small; unfold header_size in *; lia).
      rewrite Hidem.
      destruct (hand_out_layout s1 (os asize) sz Hwf1 Hin1 Hsz0 Hsz4)
        as (Hwf2 & Hlist2 & Hdef2 & Hin2 & Hfree2 & Hsize2 & _ & Hothers2 & Hnew2);
        [rewrite Hload1; simpl; unfold header_size in *; lia|].
      eexists _, _. split; [reflexivity|]. split; [done|].
      split; [congruence|]. split.
      { intros Hp. unfold nullptr, header_size in *. lia. }
      intros _. replace (os asize + header_size - header_size) with (os asize) by lia.
      cbn zeta. split; [done|]. split; [done|]. split; [done|].
      split; [lia|]. split; [done|]. split; [|split].
      * intros x Hx Hxb. destruct (Hold1 x Hx) as [Hx1 Hl1].
        destruct (Hothers2 x Hx1 Hxb) as [Hx2 Hl2]. split; [done|congruence].
      * intros x Hx Hxb Hxs. apply Hnew2; [done|].
        intros Hx1. by destruct (Hnew1 x Hx1).
      * pose proof (hand_out_length s1 (os asize) sz).
        pose proof (arena_create_length _ _ _ _ _ Hcreate). lia.
  - (* a block of an existing arena fits *)
    rewrite Hscan, Hidem.
    assert ((a + header_size =? nullptr) = false) as ->
      by (apply Z.eqb_neq; unfold nullptr, header_size in *; lia).
    unfold fits in Hfit. rewrite Hidem in Hfit.
    apply andb_true_iff in Hfit as [Hfree Hfit]. apply Z.leb_le in Hfit.
    destruct (hand_out_layout s a sz Hwf Ha Hsz0 Hsz4 Hfit)
      as (Hwf2 & Hlist2 & Hdef2 & Hin2 & Hfree2 & Hsize2 & _ & Hothers2 & Hnew2).
    eexists _, _. split; [reflexivity|]. split; [done|]. split; [done|].
    split.
    { intros Hp. unfold nullptr, header_size in *. lia. }
    intros _. replace (a + header_size - header_size) with a by lia.
    cbn zeta. split; [done|]. split; [done|]. split; [done|].
    split; [lia|]. split; [done|]. split; [done|]. split.
    + intros x Hx _ Hxs. by apply Hnew2.
    + pose proof (hand_out_length s a sz). lia.
Qed.

(** X7.  [mem_alloc] over a well-formed layout, for a request [n > 0] that
    leaves room for a header below 2^64, with a provider that either refuses
    or grants a region apart from every arena, and fuel above the number of
    tracked blocks: the call returns and the layout is well formed again.
    It returns the null pointer only when no tracked block fits the aligned
    request and the provider refused, and then nothing changed.  Otherwise the block under the returned pointer is
    tracked, not free and holds at least [n] bytes; it was free if it was
    tracked before; and every other block tracked before is still tracked
    with the same header. *)
Theorem mem_alloc_keeps_layout (fuel : nat) (os : provider) (s : state) (n : Z) :
  let asize :=
    align (Z.max (align n + header_size) (default_arena_size s)) in
  well_formed s →
  0 < n → n + header_size + 4 ≤ modulus →
  0 ≤ default_arena_size s ≤ modulus - 4 →
  (os asize = nullptr ∨ fresh_region s (os asize) asize) →
  (length (block_map s) < fuel)%nat →
  ∃ s' p,
    mem_alloc fuel os s n = Some (s', p)
    ∧ well_formed s'
    ∧ (p = nullptr →
       s' = s ∧ os asize = nullptr
       ∧ ∀ a, a ∈ block_map s → fits (mem s) (align n) a = false)
    ∧ (p ≠ nullptr →
       let b := p - header_size in
       b ∈ block_map s'
       ∧ BlockHeader.is_free (load (mem s') b) = false
       ∧ n ≤ BlockHeader.size (load (mem s') b)
       ∧ (b ∈ block_map s → BlockHeader.is_free (load (mem s) b) = true)
       ∧ (∀ a, a ∈ block_map s → a ≠ b →
               a ∈ block_map s' ∧ load (mem s') a = load (mem s) a)).
Proof.
  intros asize Hwf H0 Hn Hdef Hos Hfuel.
  destruct (mem_alloc_layout fuel os s n Hwf H0 Hn Hdef Hos Hfuel)
    as (s' & p & Hrun & Hwf' & _ & Hnull & Hgot).
  exists s', p. split; [done|]. split; [done|]. split; [done|].
  intros Hp. destruct (Hgot Hp) as (_ & Hb & Hlive & Hsize & Hwas & Hothers & _).
  done.
Qed.

Lemma unite_loop_length fuel : ∀ m visited todo m' bm',
  unite_loop fuel m visited todo = Some (m', bm') →
  (length bm' ≤ length visited + length todo)%nat.
Proof.
  induction fuel as [|fuel IH]; intros m visited todo m' bm' Hrun.
  - destruct todo; [|discriminate]. simpl in Hrun. simplify_eq. simpl. lia.
  - destruct todo as [|block rest].
    { simpl in Hrun. simplify_eq. simpl. lia. }
    rewrite unite_loop_step in Hrun.
    destruct (mergeable m (visited ++ block :: rest) block).
    + destruct (successor m block =? block); [discriminate|].
      specialize (IH _ _ _ _ _ Hrun). simpl in *.
      pose proof (length_filter (λ k, k ≠ successor m block) visited).
      pose proof (length_filter (λ k, k ≠ successor m block) rest).
      unfold erase in IH. lia.
    + specialize (IH _ _ _ _ _ Hrun). rewrite length_app in IH. simpl in *. lia.
Qed.

Lemma block_unite_length s s1 :
  block_unite s = Some s1 →
  (length (block_map s1) ≤ length (block_map s))%nat.
Proof.
  unfold block_unite. intros H.
  destruct (unite_loop _ _ _ _) as [[m' bm']|] eqn:Hrun; [|discriminate].
  simplify_eq. simpl. by apply unite_loop_length in Hrun.
Qed.

(** Every tracked block of a layout lies in the address space, header and
    payload, away from the null address. *)
Lemma tracked_bounds s a :
  well_formed s → a ∈ block_map s →
  header_size ≤ a ∧ a + header_size < modulus
  ∧ 0 ≤ BlockHeader.size (load (mem s) a).
Proof.
  intros (_ & _ & Htable) Ha.
  apply Htable in Ha as (ar & bl & Har & Hbl & Hin).
  destruct (successor_block_end _ _ _ _ Hbl Hin) as (_ & Hlo & Hhi).
  destruct Hbl as (_ & _ & Hl).
  apply list_elem_of_split in Hin as (pre & post & ->).
  apply leads_app in Hl as (mid & _ & Hrest).
  apply leads_cons_inv in Hrest as (_ & (Hsz & _) & _).
  unfold block_end, header_size in *. lia.
Qed.

(** The block a pointer names, when that block is tracked. *)
Lemma tracked_pointer s ptr :
  well_formed s → 0 ≤ ptr < modulus →
  wrap (ptr - header_size) ∈ block_map s →
  wrap (ptr - header_size) = ptr - header_size ∧ 2 * header_size ≤ ptr.
Proof.
  intros Hwf Hptr Htr.
  destruct (tracked_bounds _ _ Hwf Htr) as (Hlo & Hhi & _).
  unfold wrap in *.
  destruct (Z_lt_dec ptr header_size) as [Hsmall|Hbig].
  - replace (ptr - header_size)
      with ((ptr - header_size + modulus) + (-1) * modulus) in * by lia.
    rewrite Z.mod_add in * by (unfold modulus; lia).
    rewrite Z.mod_small in * by (unfold header_size, modulus in *; lia).
    unfold header_size in *. lia.
  - rewrite Z.mod_small in * by (unfold header_size, modulus in *; lia).
    unfold header_size in *. lia.
Qed.

Lemma mem_free_live (s : state) (ptr : Z) :
  well_formed s →
  ∃ s1,
    mem_free s ptr = Some s1
    ∧ well_formed s1
    ∧ arena_list s1 = arena_list s
    ∧ default_arena_size s1 = default_arena_size s
    ∧ (∀ a, a ∈ block_map s1 → a ∈ block_map s)
    ∧ (length (block_map s1) ≤ length (block_map s))%nat
    ∧ (∀ a, live s1 a → live s a ∧ (ptr ≠ nullptr → a ≠ wrap (ptr - header_size)))
    ∧ (∀ a, a ≠ wrap (ptr - header_size) →
            BlockHeader.is_free (load (mem s) a) = false →
            load (mem s1) a = load (mem s) a
            ∧ (a ∈ block_map s → a ∈ block_map s1))
    ∧ (ptr ≠ nullptr → wrap (ptr - header_size) ∈ block_map s →
       BlockHeader.is_free (load (mem s1) (wrap (ptr - header_size))) = true
       ∧ no_adjacent_free s1).
Proof.
  intros Hwf.
  destruct (mem_free_layout s ptr Hwf) as (s1 & Hrun & Hwf1 & Hal & Hdef).
  exists s1. split; [done|]. split; [done|]. split; [done|]. split; [done|].
  unfold mem_free in Hrun.
  destruct (ptr =? nullptr) eqn:Hp.
  { simplify_eq. split; [done|]. split; [done|]. apply Z.eqb_eq in Hp.
    split; [done|]. split; [done|]. done. }
  set (block := wrap (ptr - header_size)) in *.
  destruct (tracked (block_map s) block) eqn:Htr.
  2:{ simplify_eq. apply tracked_false in Htr. split; [done|]. split; [done|].
      split; [|split; done].
      intros a Ha. split; [done|]. intros _ ->. by destruct Ha. }
  pose proof (block_unite_length _ _ Hrun) as Hlen.
  destruct (block_unite_live _ _ Hrun) as (Hsub & Hfree & Hlive).
  cbn [mem block_map set_mem] in Hsub, Hfree, Hlive, Hlen.
  split; [done|]. split; [done|]. split; [|split].
  - intros a [Ha Hl]. rewrite Hfree in Hl.
    destruct (Z.eq_dec a block) as [->|Hne].
    { rewrite load_store_eq in Hl. by destruct (load (mem s) block). }
    rewrite load_store_ne in Hl by done. split; [|done]. split; [by apply Hsub|done].
  - intros a Hne Ha.
    destruct (Hlive a) as [Hload Hin]; [by rewrite load_store_ne|].
    rewrite load_store_ne in Hload by done. done.
  - intros _ _. split; [|by eapply block_unite_settles].
    by rewrite Hfree, load_store_eq.
Qed.

(** X8.  [mem_free] over a well-formed layout, for any pointer: the call
    returns (the coalescing pass meets no undefined behaviour), the layout
    is well formed again, the arena list and the default arena size are
    unchanged, the table gains no entry, and every block that was not free,
    other than the one freed, keeps its header and its entry.  For a tracked
    non-null pointer the freed block reads as free afterwards and no tracked
    free block is followed by a tracked free block. *)
Theorem mem_free_keeps_layout (s : state) (ptr : Z) :
  well_formed s →
  ∃ s1,
    mem_free s ptr = Some s1
    ∧ well_formed s1
    ∧ arena_list s1 = arena_list s
    ∧ default_arena_size s1 = default_arena_size s
    ∧ (∀ a, a ∈ block_map s1 → a ∈ block_map s)
    ∧ (∀ a, a ≠ wrap (ptr - header_size) →
            BlockHeader.is_free (load (mem s) a) = false →
            load (mem s1) a = load (mem s) a
            ∧ (a ∈ block_map s → a ∈ block_map s1))
    ∧ (ptr ≠ nullptr → wrap (ptr - header_size) ∈ block_map s →
       BlockHeader.is_free (load (mem s1) (wrap (ptr - header_size))) = true
       ∧ no_adjacent_free s1).
Proof.
  intros Hwf.
  destruct (mem_free_live s ptr Hwf)
    as (s1 & Hrun & Hwf1 & Hal & Hdef & Hsub & _ & _ & Hkeep & Hfreed).
  exists s1. done.
Qed.

Lemma mem_realloc_live
  (fuel : nat) (os : provider) (s : state) (ptr n : Z) :
  let asize :=
    align (Z.max (align n + header_size) (default_arena_size s)) in
  let block := wrap (ptr - header_size) in
  well_formed s →
  0 ≤ ptr < modulus →
  0 ≤ n → n + header_size + 4 ≤ modulus →
  0 ≤ default_arena_size s ≤ modulus - 4 →
  (os asize = nullptr ∨ fresh_region s (os asize) asize) →
  (length (block_map s) < fuel)%nat →
  ∃ s' p,
    mem_realloc fuel os s ptr n = Some (s', p)
    ∧ well_formed s'
    ∧ default_arena_size s' = default_arena_size s
    ∧ (p = nullptr → s' = s)
    ∧ (length (block_map s') ≤ length (block_map s) + 2)%nat
    ∧ (ptr ≠ nullptr → p ≠ nullptr →
       block ∈ block_map s
       ∧ 2 * header_size ≤ p < modulus
       ∧ (∀ a, live s' a →
            a = p - header_size ∨ (live s a ∧ (p ≠ ptr → a ≠ block)))
       ∧ (BlockHeader.is_free (load (mem s) block) = false →
          live s' (p - header_size)
          ∧ n ≤ BlockHeader.size (load (mem s') (p - header_size)))
       ∧ (p ≠ ptr →
          BlockHeader.is_free (load (mem s') block) = true
          ∧ BlockHeader.size (load (mem s) block) < align n)
       ∧ (p ≠ ptr → ¬ live s (p - header_size))
       ∧ (∀ a, live s a → (p ≠ ptr → a ≠ block) → live s' a)).
Proof.
  intros asize block Hwf Hptr Hn0 Hn Hdef Hos Hfuel.
  unfold mem_realloc. fold block.
  destruct (Z.eqb_spec ptr nullptr) as [->|Hnn].
  { destruct (Z.eq_dec n 0) as [->|Hn1].
    - exists s, nullptr. split; [done|]. split; [done|]. split; [done|].
      split; [done|]. split; [lia|]. done.
    - destruct (mem_alloc_layout fuel os s n Hwf) as
        (s' & p & Hrun & Hwf' & Hdef' & Hnull & Hgot); [lia|done|done|done|done|].
      exists s', p. split; [done|]. split; [done|]. split; [done|].
      split; [intros Hp; by apply Hnull|].
      split; [|done].
      destruct (Z.eq_dec p nullptr) as [Hp|Hp].
      + destruct (Hnull Hp) as [-> _]. lia.
      + by destruct (Hgot Hp) as (_ & _ & _ & _ & _ & _ & _ & Hlen). }
  destruct (tracked (block_map s) block) eqn:Htr.
  2:{ exists s, nullptr. split; [done|]. split; [done|]. split; [done|].
      split; [done|]. split; [lia|]. done. }
  apply tracked_true in Htr.
  destruct (tracked_pointer s ptr Hwf Hptr Htr) as [Hblock Hplo].
  fold block in Hblock.
  destruct (tracked_bounds _ _ Hwf Htr) as (Hblo & Hbhi & Hbsz).
  assert (0 ≤ align n ∧ align n mod 4 = 0 ∧ n ≤ align n
          ∧ align n + header_size + 4 ≤ modulus) as (Hsz0 & Hsz4 & Hle & Hszhi).
  { destruct (Z.eq_dec n 0) as [->|Hn1].
    - change (align 0) with 0. split; [lia|]. split; [reflexivity|].
      unfold header_size, modulus. lia.
    - destruct (align_request n) as (? & ? & ? & ?); [lia|done|]. done. }
  destruct (Z.leb_spec (align n) (BlockHeader.size (load (mem s) block)))
    as [Hfits|Hgrow].
  - (* in place *)
    destruct (split_layout s block (align n) Hwf Htr Hsz0 Hsz4 Hfits)
      as (Hwf' & _ & Hdef' & Hin' & Hfree' & Hsize' & _ & Hothers & Hnew).
    exists (block_split s block (align n)), ptr.
    split; [done|]. split; [done|]. split; [done|]. split; [done|].
    split; [pose proof (block_split_length s block (align n)); lia|].
    intros _ _. replace (ptr - header_size) with block by lia.
    split; [done|]. split; [lia|]. split; [|split; [|split; [|split]]].
    + intros a [Ha Hl]. destruct (Z.eq_dec a block) as [->|Hne]; [by left|].
      right. split; [|done].
      destruct (decide (a ∈ block_map s)) as [Hin|Hout].
      * destruct (Hothers a Hin Hne) as [_ Hload]. split; [done|congruence].
      * destruct (Hnew a Ha Hout) as (Hf & _). congruence.
    + intros Hlive. split; [split; [done|congruence]|lia].
    + done.
    + done.
    + intros a [Ha Hl] _. destruct (Z.eq_dec a block) as [->|Hne].
      * split; [done|congruence].
      * destruct (Hothers a Ha Hne) as [Hin Hload]. split; [done|congruence].
  - (* growth *)
    assert (asize = align (Z.max (align (align n) + header_size)
                             (default_arena_size s))) as Hasize
      by (unfold asize; by rewrite align_idem).
    destruct (mem_alloc_layout fuel os s (align n) Hwf) as
      (s1 & p & Hrun & Hwf1 & Hdef1 & Hnull & Hgot);
      [lia|done|done|by rewrite <- Hasize|done|].
    rewrite Hrun.
    destruct (Z.eqb_spec p nullptr) as [->|Hpn].
    { destruct (Hnull eq_refl) as [-> _].
      exists s, nullptr. split; [done|]. split; [done|]. split; [done|].
      split; [done|]. split; [lia|]. done. }
    destruct (Hgot Hpn)
      as (Hb1 & Hin1 & Hlive1 & Hsize1 & Hwasfree & Hothers & Hnew1 & Hlen1).
    destruct (mem_free_live s1 ptr Hwf1)
      as (s2 & Hfree & Hwf2 & Hal2 & Hdef2 & Hsub2 & Hlen2 & Hlive2 & Hkeep2 & Hfreed2).
    fold block in Hlive2, Hkeep2, Hfreed2.
    rewrite Hfree. exists s2, p. split; [done|]. split; [done|].
    split; [congruence|]. split; [done|]. split; [lia|].
    intros _ _. split; [done|].
    destruct (tracked_bounds _ _ Hwf1 Hin1) as (_ & Hphi & _).
    split; [unfold header_size in *; lia|].
    assert (BlockHeader.is_free (load (mem s) block) = false →
            p - header_size ≠ block) as Hneq.
    { intros Hlive Heq. rewrite Heq in Hwasfree. specialize (Hwasfree Htr).
      congruence. }
    split; [|split; [|split; [|split]]].
    + intros a Ha. destruct (Hlive2 a Ha) as [[Ha1 Hl1] Hne]. specialize (Hne Hnn).
      destruct (Z.eq_dec a (p - header_size)) as [->|Hab]; [by left|].
      right. split; [|done].
      destruct (decide (a ∈ block_map s)) as [Hin|Hout].
      * destruct (Hothers a Hin Hab) as [_ Hload]. split; [done|congruence].
      * specialize (Hnew1 a Ha1 Hab Hout). congruence.
    + intros Hlive. specialize (Hneq Hlive).
      destruct (Hkeep2 (p - header_size) Hneq Hlive1) as [Hload2 Hin2].
      split; [split; [by apply Hin2|by rewrite Hload2]|rewrite Hload2; lia].
    + intros _. split; [|lia].
      destruct (Z.eq_dec (p - header_size) block) as [Heq|Hne].
      * apply Hfreed2; [done|]. by rewrite <- Heq.
      * destruct (Hothers block Htr ltac:(done)) as [Htr1 _].
        by apply Hfreed2.
    + intros _ [Hin Hl]. specialize (Hwasfree Hin). congruence.
    + intros a [Ha Hl] Hab.
      assert (a ≠ p - header_size) as Hne1.
      { intros ->. specialize (Hwasfree Ha). congruence. }
      assert (a ≠ block) as Hne2.
      { destruct (Z.eq_dec p ptr) as [Heq|Hne]; [|by apply Hab].
        intros ->. apply Hne1. lia. }
      destruct (Hothers a Ha Hne1) as [Hin Hload].
      destruct (Hkeep2 a Hne2) as [Hload2 Hin2]; [congruence|].
      split; [by apply Hin2|congruence].
Qed.

(** X9.  [mem_realloc] over a well-formed layout, under the assumptions of
    X7 with [n ≥ 0] and any pointer: the call returns, the layout is well
    formed again, and a null result means nothing changed.  For the pointer
    of a tracked block that is not free, a non-null result names a tracked
    block that is not free and holds at least [n] bytes; if the result
    differs from the pointer passed in, the old block was too small for the
    aligned request and reads as free afterwards. *)
Theorem mem_realloc_keeps_layout
  (fuel : nat) (os : provider) (s : state) (ptr n : Z) :
  let asize :=
    align (Z.max (align n + header_size) (default_arena_size s)) in
  let block := wrap (ptr - header_size) in
  well_formed s →
  0 ≤ ptr < modulus →
  0 ≤ n → n + header_size + 4 ≤ modulus →
  0 ≤ default_arena_size s ≤ modulus - 4 →
  (os asize = nullptr ∨ fresh_region s (os asize) asize) →
  (length (block_map s) < fuel)%nat →
  ∃ s' p,
    mem_realloc fuel os s ptr n = Some (s', p)
    ∧ well_formed s'
    ∧ default_arena_size s' = default_arena_size s
    ∧ (p = nullptr → s' = s)
    ∧ (ptr ≠ nullptr → block ∈ block_map s →
       BlockHeader.is_free (load (mem s) block) = false →
       p ≠ nullptr →
       (p - header_size) ∈ block_map s'
       ∧ BlockHeader.is_free (load (mem s') (p - header_size)) = false
       ∧ n ≤ BlockHeader.size (load (mem s') (p - header_size))
       ∧ (p ≠ ptr →
          BlockHeader.is_free (load (mem s') block) = true
          ∧ BlockHeader.size (load (mem s) block) < align n)).
Proof.
  intros asize block Hwf Hptr Hn0 Hn Hdef Hos Hfuel.
  destruct (mem_realloc_live fuel os s ptr n Hwf Hptr Hn0 Hn Hdef Hos Hfuel)
    as (s' & p & Hrun & Hwf' & Hdef' & Hnull & _ & Hgot).
  exists s', p. split; [done|]. split; [done|]. split; [done|]. split; [done|].
  intros Hnn _ Hlive Hp.
  destruct (Hgot Hnn Hp) as (_ & _ & _ & Hnew & Hmoved & _).
  destruct (Hnew Hlive) as [[Hin Hl] Hsz]. done.
Qed.

Lemma leads_ends m base limit : ∀ blocks a target,
  leads m base limit a blocks target →
  ∀ x, x ∈ blocks → a ≤ x ∧ block_end m x ≤ target ∧ 0 ≤ BlockHeader.size (load m x).
Proof.
  induction blocks as [|b rest IH]; intros a target; simpl.
  - by intros _ x ?%elem_of_nil.
  - intros (-> & Hok & Hrest) x [->|Hx]%elem_of_cons.
    + apply leads_bounds in Hrest as (? & _). destruct Hok as (? & _). lia.
    + destruct (IH _ _ Hrest x Hx) as (? & ? & ?).
      pose proof (block_end_gt _ _ _ _ Hok). unfold header_size in *. lia.
Qed.

(** Position and flags along a tiling. *)
Lemma leads_positions m base limit : ∀ blocks a i x,
  leads m base limit a blocks limit →
  blocks !! i = Some x →
  (i = 0%nat → x = a)
  ∧ (i ≠ 0%nat → a + header_size ≤ x)
  ∧ (BlockHeader.is_last (load m x) = true ↔ S i = length blocks)
  ∧ (BlockHeader.is_first (load m x) = true ↔ x = base)
  ∧ (S i ≠ length blocks → blocks !! S i = Some (block_end m x)).
Proof.
  induction blocks as [|b rest IH]; intros a i x Hl Hi; [done|].
  simpl in Hl. destruct Hl as (-> & Hok & Hrest).
  pose proof (block_end_gt _ _ _ _ Hok) as Hend.
  destruct i as [|i]; simpl in Hi.
  - simplify_eq. destruct Hok as (_ & _ & Hfirst & Hlast).
    split; [done|]. split; [done|]. split; [|split].
    + rewrite Hlast, bool_decide_eq_true. simpl.
      destruct rest as [|c rest]; simpl in *.
      * split; [done|]. intros _. done.
      * destruct Hrest as (_ & Hokc & Hr).
        pose proof (block_end_gt _ _ _ _ Hokc).
        apply leads_bounds in Hr as (? & _). unfold header_size in *.
        split; [lia|]. intros [=].
    + by rewrite Hfirst, bool_decide_eq_true.
    + intros Hne. destruct rest as [|c rest]; [done|].
      simpl in *. by destruct Hrest as (-> & _).
  - destruct (IH _ _ _ Hrest Hi) as (H0 & Hpos & Hlast & Hfirst & Hnext).
    split; [done|]. split.
    { intros _. destruct i; [rewrite (H0 eq_refl)|specialize (Hpos ltac:(done))];
        unfold header_size in *; lia. }
    split; [|split; [done|]].
    + rewrite Hlast. simpl. split; intros; lia.
    + intros Hne. simpl. apply Hnext. simpl in Hne. lia.
Qed.

(** Distinct tracked blocks of a layout do not overlap. *)
Lemma tracked_apart s a b :
  well_formed s → a ∈ block_map s → b ∈ block_map s → a ≠ b →
  block_end (mem s) a ≤ b ∨ block_end (mem s) b ≤ a.
Proof.
  intros (Hapart & Htiled & Htable) Ha Hb Hne.
  apply Htable in Ha as (ar & bl & Har & Hbl & Hina).
  apply Htable in Hb as (ar' & bl' & Har' & Hbl' & Hinb).
  destruct (decide (ar' = ar)) as [->|Hdiff].
  - rewrite (arena_tiled_unique _ _ _ _ Hbl' Hbl) in Hinb.
    destruct Hbl as (_ & _ & Hl).
    apply list_elem_of_split in Hina as (pre & post & ->).
    apply leads_app in Hl as (mid & Hpre & Hrest).
    apply leads_cons_inv in Hrest as (<- & _ & Hpost).
    rewrite elem_of_app, elem_of_cons in Hinb.
    destruct Hinb as [Hinb|[->|Hinb]]; [|done|].
    + right. by destruct (leads_ends _ _ _ _ _ _ Hpre b Hinb) as (_ & ? & _).
    + left. by destruct (leads_ends _ _ _ _ _ _ Hpost b Hinb) as (? & _).
  - destruct Hbl as (_ & _ & Hl). destruct Hbl' as (_ & _ & Hl').
    destruct (leads_ends _ _ _ _ _ _ Hl a Hina) as (? & ? & ?).
    destruct (leads_ends _ _ _ _ _ _ Hl' b Hinb) as (? & ? & ?).
    destruct (Hapart ar' ar Har' Har Hdiff); unfold block_end, header_size in *; lia.
Qed.

(** X10.  What a well-formed layout gives, with fuel for as many blocks as
    the table tracks.  The walk over each arena ends; the headers and
    payloads it visits add up to the arena's size; every visited block is
    tracked and lies inside the arena; [is_first] is set exactly on the
    first visited block and [is_last] exactly on the last one; the successor
    address of a block that is not last is tracked and is the next block
    visited.  Every tracked block is visited in some arena, and two distinct
    tracked blocks do not overlap. *)
Theorem layout_gives_invariants (fuel : nat) (s : state) :
  well_formed s →
  (length (block_map s) ≤ fuel)%nat →
  (∀ ar, ar ∈ arena_list s →
     arena_walk_ends fuel (mem s) ar = true
     ∧ arena_sum fuel (mem s) ar = Arena.size ar
     ∧ ∀ i a, arena_blocks fuel (mem s) ar !! i = Some a →
         a ∈ block_map s
         ∧ Arena.base ar ≤ a
         ∧ block_end (mem s) a ≤ Arena.base ar + Arena.size ar
         ∧ (BlockHeader.is_first (load (mem s) a) = true ↔ i = 0%nat)
         ∧ (BlockHeader.is_last (load (mem s) a) = true
            ↔ S i = length (arena_blocks fuel (mem s) ar))
         ∧ (BlockHeader.is_last (load (mem s) a) = false →
            successor (mem s) a ∈ block_map s
            ∧ arena_blocks fuel (mem s) ar !! S i = Some (successor (mem s) a)))
  ∧ (∀ a, a ∈ block_map s →
       ∃ ar, ar ∈ arena_list s ∧ a ∈ arena_blocks fuel (mem s) ar)
  ∧ (∀ a b, a ∈ block_map s → b ∈ block_map s → a ≠ b →
       block_end (mem s) a ≤ b ∨ block_end (mem s) b ≤ a).
Proof.
  intros Hwf Hfuel. pose proof Hwf as (Hapart & Htiled & Htable).
  split; [|split].
  - intros ar Har. destruct (Htiled ar Har) as [blocks Hblocks].
    destruct (tiled_walk fuel s ar blocks Hwf Har Hblocks Hfuel) as (-> & He & Hs).
    split; [done|]. split; [done|].
    intros i a Hi. pose proof Hblocks as (Hbase & Hlim & Hl).
    assert (a ∈ blocks) as Hin by (by eapply list_elem_of_lookup_2).
    destruct (leads_positions _ _ _ _ _ _ _ Hl Hi)
      as (H0 & Hpos & Hlast & Hfirst & Hnext).
    destruct (leads_ends _ _ _ _ _ _ Hl a Hin) as (Hlo & Hhi & _).
    destruct (successor_block_end _ _ _ _ Hblocks Hin) as (Hsucc & _).
    split; [apply Htable; eauto|]. split; [done|]. split; [done|].
    split; [|split; [done|]].
    + rewrite Hfirst. split.
      * intros ->. destruct i; [done|]. specialize (Hpos ltac:(done)).
        unfold header_size in *. lia.
      * intros ->. by apply H0.
    + intros Hnl. rewrite Hsucc.
      assert (S i ≠ length blocks) as Hne.
      { intros Heq. apply Hlast in Heq. congruence. }
      specialize (Hnext Hne). split; [|done].
      apply Htable. exists ar, blocks. split; [done|]. split; [done|].
      by eapply list_elem_of_lookup_2.
  - intros a Ha. apply Htable in Ha as (ar & blocks & Har & Hblocks & Hin).
    exists ar. split; [done|].
    by destruct (tiled_walk fuel s ar blocks Hwf Har Hblocks Hfuel) as (-> & _).
  - intros a b. by apply tracked_apart.
Qed.

(** ** Writes into a payload, display *)

Lemma layout_frame arenas m m' table :
  (∀ a, a ∈ table → load m' a = load m a) →
  layout arenas m table → layout arenas m' table.
Proof.
  intros Hsame (H1 & H2 & H3).
  assert (∀ ar bl, ar ∈ arenas → arena_tiled m ar bl → arena_tiled m' ar bl)
    as Hto.
  { intros ar bl Har Hbl. pose proof Hbl as (Hb1 & Hb2 & Hl).
    split; [done|]. split; [done|].
    eapply leads_frame; [|done].
    intros x Hx. apply Hsame, H3. eauto. }
  split; [done|]. split.
  - intros ar Har. destruct (H2 ar Har) as [bl Hbl]. exists bl. by apply Hto.
  - intros a. rewrite H3. split.
    + intros (ar & bl & Har & Hbl & Hin). exists ar, bl. eauto.
    + intros (ar & bl' & Har & Hbl' & Hin). destruct (H2 ar Har) as [bl Hbl].
      exists ar, bl. split; [done|]. split; [done|].
      by rewrite (arena_tiled_unique _ _ _ _ (Hto _ _ Har Hbl) Hbl').
Qed.

Lemma overwrite_outside garbled m data size a :
  0 ≤ size → header_size ≤ data → data + size ≤ modulus →
  a + header_size ≤ data ∨ data + size ≤ a →
  load (overwrite garbled m data size) a = load m a.
Proof.
  intros H0 Hlo Hhi Hout. unfold overwrite.
  set (count := Z.to_nat (if size =? 0 then 0 else size + header_size - 1)).
  assert (∀ i, i ∈ seq 0 count → (i < count)%nat) as Hseq.
  { intros i Hi. apply elem_of_seq in Hi. lia. }
  induction (seq 0 count) as [|i l IH]; simpl; [done|].
  rewrite load_store_ne.
  - apply IH. intros j Hj. apply Hseq, elem_of_cons. by right.
  - assert (i < count)%nat as Hi by (apply Hseq, elem_of_cons; by left).
    unfold count in Hi. destruct (Z.eqb_spec size 0) as [->|Hne]; [simpl in Hi; lia|].
    rewrite wrap_small by (unfold header_size, modulus in *; lia).
    unfold header_size in *. lia.
Qed.

(** A write of at most as many bytes as a tracked block holds, at the pointer
    of that block, reaches no tracked header. *)
Lemma overwrite_layout garbled s b n :
  well_formed s → b ∈ block_map s →
  0 ≤ n ≤ BlockHeader.size (load (mem s) b) →
  well_formed (set_mem (overwrite garbled (mem s) (b + header_size) n) s)
  ∧ ∀ a, a ∈ block_map s →
      load (overwrite garbled (mem s) (b + header_size) n) a = load (mem s) a.
Proof.
  intros Hwf Hb Hn.
  assert (∀ a, a ∈ block_map s →
            load (overwrite garbled (mem s) (b + header_size) n) a
            = load (mem s) a) as Hsame.
  { intros a Ha. pose proof Hwf as (_ & _ & Htable).
    apply Htable in Hb as Hb'. destruct Hb' as (ar & bl & Har & Hbl & Hin).
    destruct (successor_block_end _ _ _ _ Hbl Hin) as (_ & Hlo & Hhi).
    unfold block_end in Hhi.
    apply overwrite_outside; [lia|unfold header_size in *; lia|lia|].
    destruct (Z.eq_dec a b) as [->|Hne]; [left; lia|].
    destruct (tracked_bounds _ _ Hwf Ha) as (_ & _ & Hsz).
    destruct (tracked_apart s a b Hwf Ha Hb Hne) as [H|H];
      unfold block_end in H; [left|right]; unfold header_size in *; lia. }
  split; [|done].
  unfold well_formed. cbn [mem block_map arena_list set_mem].
  by eapply layout_frame.
Qed.

Lemma mem_show_loop_walk fuel : ∀ m limit base,
  mem_show_loop fuel m limit base =
  if walk_ends fuel m limit base
  then Some (map (show_block m) (walk fuel m limit base)) else None.
Proof.
  induction fuel as [|fuel IH]; intros m limit base; simpl.
  - by destruct (base <? limit).
  - destruct (base <? limit); [|done]. rewrite IH.
    by destruct (walk_ends _ _ _ _).
Qed.

Lemma mem_show_layout fuel s :
  well_formed s → (length (block_map s) ≤ fuel)%nat →
  ∀ arenas, (∀ ar, ar ∈ arenas → ar ∈ arena_list s) →
  mem_show_arenas fuel (mem s) arenas
  = Some (map (λ ar, (Arena.size ar,
                      map (show_block (mem s)) (arena_blocks fuel (mem s) ar)))
            arenas).
Proof.
  intros Hwf Hfuel. pose proof Hwf as (_ & Htiled & _).
  induction arenas as [|ar arenas IH]; intros Hsub; simpl; [done|].
  assert (ar ∈ arena_list s) as Har by (apply Hsub, elem_of_cons; by left).
  destruct (Htiled ar Har) as [blocks Hblocks].
  destruct (tiled_walk fuel s ar blocks Hwf Har Hblocks Hfuel) as (Hw & He & _).
  rewrite mem_show_loop_walk.
  unfold arena_walk_ends, arena_blocks, arena_limit in *. rewrite He, IH; [done|].
  intros ar' Har'. apply Hsub, elem_of_cons. by right.
Qed.

(** ** The test driver *)

Section list_facts.

Context {A : Type}.

Implicit Types l : list A.

Lemma elem_of_delete_at l i x y :
  l !! i = Some x → y ∈ delete i l → y ∈ l.
Proof.
  intros Hi. rewrite <- (take_drop_middle l i x Hi) at 2.
  rewrite delete_take_drop, !elem_of_app, elem_of_cons. tauto.
Qed.

Lemma elem_of_delete_other l i x y :
  l !! i = Some x → y ∈ l → y ≠ x → y ∈ delete i l.
Proof.
  intros Hi. rewrite <- (take_drop_middle l i x Hi) at 1.
  rewrite delete_take_drop, !elem_of_app, elem_of_cons. tauto.
Qed.

Lemma NoDup_delete_at l i x :
  l !! i = Some x → NoDup l → NoDup (delete i l) ∧ x ∉ delete i l.
Proof.
  intros Hi. rewrite <- (take_drop_middle l i x Hi) at 1.
  rewrite delete_take_drop, !NoDup_app, NoDup_cons, not_elem_of_app.
  intros (H1 & H2 & H3 & H4). split; [split; [done|split; [|done]]|].
  - intros y Hy Hy'. apply (H2 y Hy), elem_of_cons. by right.
  - split; [|done]. intros Hx. apply (H2 x Hx), elem_of_cons. by left.
Qed.

Lemma elem_of_insert_at l i x z y :
  l !! i = Some x → y ∈ <[i:=z]> l ↔ y = z ∨ y ∈ delete i l.
Proof.
  intros Hi. rewrite insert_take_drop by (by eapply lookup_lt_Some).
  rewrite delete_take_drop, !elem_of_app, elem_of_cons. tauto.
Qed.

Lemma NoDup_insert_at l i x z :
  l !! i = Some x → NoDup l → z ∉ l → NoDup (<[i:=z]> l).
Proof.
  intros Hi Hnd Hz. destruct (NoDup_delete_at l i x Hi Hnd) as [Hd _].
  assert (z ∉ delete i l) as Hz' by (intros H; by apply elem_of_delete_at with (x:=x) in H).
  rewrite insert_take_drop by (by eapply lookup_lt_Some).
  rewrite delete_take_drop in Hd, Hz'.
  rewrite NoDup_app in *. rewrite not_elem_of_app in Hz'.
  destruct Hd as (H1 & H2 & H3). split; [done|]. split.
  - intros y Hy [->|Hy']%elem_of_cons; [tauto|]. by apply (H2 y).
  - apply NoDup_cons. tauto.
Qed.

End list_facts.

Lemma initial_well_formed n : well_formed (initial n).
Proof.
  split; [|split].
  - by intros ar ar' ?%elem_of_nil.
  - by intros ar ?%elem_of_nil.
  - intros a. split; [by intros ?%elem_of_nil|].
    by intros (ar & bl & ?%elem_of_nil & _).
Qed.

Lemma os_above_fresh s size :
  os_above s size = nullptr ∨ fresh_region s (os_above s size) size.
Proof.
  unfold os_above.
  set (top := foldr _ _ _).
  assert (65535 ≤ top ∧ ∀ ar, ar ∈ arena_list s →
            Arena.base ar + Arena.size ar ≤ top) as [Hlo Htop].
  { unfold top. induction (arena_list s) as [|ar l [IH1 IH2]]; simpl.
    - split; [lia|]. by intros ar ?%elem_of_nil.
    - split; [lia|]. intros ar' [->|Hin]%elem_of_cons; [lia|].
      specialize (IH2 ar' Hin). lia. }
  destruct (Z.ltb_spec (top + 1 + size) modulus); [|by left].
  right. split; [unfold header_size; lia|]. split; [lia|].
  intros ar Har. right. cbn [Arena.base Arena.size].
  specialize (Htop ar Har). lia.
Qed.

Lemma tester_size r max_block_size :
  0 ≤ r → 0 < max_block_size → max_block_size + header_size + 4 ≤ modulus →
  0 < wrap (r mod max_block_size + 1) ≤ max_block_size.
Proof.
  intros Hr Hmax Hhi. pose proof (Z.mod_pos_bound r max_block_size Hmax).
  rewrite wrap_small by (unfold header_size, modulus in *; lia). lia.
Qed.

Lemma tester_index (allocations : list Z) r :
  allocations ≠ [] → 0 ≤ r →
  is_Some (allocations !! Z.to_nat (r mod Z.of_nat (length allocations))).
Proof.
  intros Hne Hr. apply lookup_lt_is_Some_2.
  assert (0 < Z.of_nat (length allocations)) as Hlen
    by (destruct allocations; [done|simpl; lia]).
  pose proof (Z.mod_pos_bound r _ Hlen). lia.
Qed.

Section driver.

Variables (fuel : nat) (os : state → provider) (rand : rand_source).

Variables (garbled : garbling) (max_block_size : Z).

Hypothesis rand_range : ∀ k, 0 ≤ rand k.

Hypothesis max_block_size_range :
  0 < max_block_size ∧ max_block_size + header_size + 4 ≤ modulus.

Hypothesis os_fresh : ∀ s size,
  well_formed s → os s size = nullptr ∨ fresh_region s (os s size) size.

Lemma tester_alloc_inv bound s allocations k0 k1 n :
  tester_inv bound (s, allocations, k0) →
  0 < n ≤ max_block_size → (bound < fuel)%nat →
  ∃ st,
    match mem_alloc fuel (os s) s n with
    | None => None
    | Some (s, ptr) =>
      if ptr =? nullptr then Some (s, allocations, k1)
      else
        let '(m, k) := random_input rand garbled k1 (mem s) ptr n in
        Some (set_mem m s, allocations ++ [ptr], k)
    end = Some st
    ∧ tester_inv (bound + 2) st.
Proof.
  intros (Hwf & Hdef & Hlen & Hnd & Hptrs & Hlive & Hsettled) Hn Hfuel.
  destruct max_block_size_range as [Hmax Hhi].
  destruct (mem_alloc_layout fuel (os s) s n Hwf)
    as (s1 & p & Hrun & Hwf1 & Hdef1 & Hnull & Hgot);
    [lia|lia|rewrite Hdef; unfold modulus; lia|by apply os_fresh|lia|].
  rewrite Hrun.
  destruct (Z.eqb_spec p nullptr) as [->|Hp].
  { destruct (Hnull eq_refl) as [-> _]. eexists. split; [done|].
    split; [done|]. split; [done|]. split; [lia|]. done. }
  destruct (Hgot Hp)
    as (Hblo & Hin1 & Hlive1 & Hsize1 & Hwasfree & Hothers & Hnew & Hlen1).
  set (b := p - header_size) in *.
  assert (p = b + header_size) as Hpb by (unfold b; lia).
  unfold random_input. eexists. split; [done|].
  destruct (tracked_bounds _ _ Hwf1 Hin1) as (_ & Hbhi & _).
  destruct (overwrite_layout (garbled p (random_bytes rand k1 n) (mem s1))
              s1 b n Hwf1 Hin1 ltac:(lia))
    as [Hwf2 Hsame].
  rewrite <- Hpb in Hwf2, Hsame.
  assert (¬ live s b) as Hfresh.
  { intros [Hin Hl]. specialize (Hwasfree Hin). congruence. }
  split; [done|]. split; [cbn; congruence|]. split; [cbn; lia|].
  split; [|split; [|split]].
  - apply NoDup_app. split; [done|]. split; [|apply NoDup_singleton].
    intros q Hq ->%list_elem_of_singleton.
    destruct (Hptrs p Hq) as [_ Hl]. done.
  - intros q [Hq| ->%list_elem_of_singleton]%elem_of_app.
    + destruct (Hptrs q Hq) as [Hrange [Hin Hl]]. split; [done|].
      assert (q - header_size ≠ b) as Hne by (intros Heq; apply Hfresh; by rewrite <- Heq).
      destruct (Hothers _ Hin Hne) as [Hin' Hload].
      split; [done|]. cbn [mem set_mem]. rewrite Hsame by done. congruence.
    + split; [unfold header_size in *; lia|].
      split; [done|]. cbn [mem set_mem]. by rewrite Hsame.
  - intros a [Ha Hl]. cbn [mem block_map set_mem] in Ha, Hl.
    rewrite Hsame in Hl by done. apply elem_of_app.
    destruct (Z.eq_dec a b) as [->|Hne].
    { right. rewrite <- Hpb. apply list_elem_of_singleton. done. }
    left. apply Hlive.
    destruct (decide (a ∈ block_map s)) as [Hin|Hout].
    + destruct (Hothers a Hin Hne) as [_ Hload]. split; [done|congruence].
    + specialize (Hnew a Ha Hne Hout). congruence.
  - intros Heq. by destruct allocations.
Qed.

Lemma tester_free_inv bound s allocations k0 k1 index ptr :
  tester_inv bound (s, allocations, k0) →
  allocations !! index = Some ptr →
  ∃ s1,
    mem_free s ptr = Some s1
    ∧ tester_inv bound (s1, delete index allocations, k1)
    ∧ no_adjacent_free s1
    ∧ arena_list s1 = arena_list s.
Proof.
  intros (Hwf & Hdef & Hlen & Hnd & Hptrs & Hlive & Hsettled) Hi.
  assert (ptr ∈ allocations) as Hin by (by eapply list_elem_of_lookup_2).
  destruct (Hptrs ptr Hin) as [Hrange [Htr Hl]].
  assert (wrap (ptr - header_size) = ptr - header_size) as Hblock
    by (apply wrap_small; unfold header_size in *; lia).
  assert (ptr ≠ nullptr) as Hnn by (unfold nullptr, header_size in *; lia).
  destruct (mem_free_live s ptr Hwf)
    as (s1 & Hrun & Hwf1 & Hal & Hdef1 & Hsub & Hlen1 & Hlive1 & Hkeep & Hfreed).
  rewrite Hblock in *.
  destruct (Hfreed Hnn Htr) as [_ Hsettled1].
  destruct (NoDup_delete_at _ _ _ Hi Hnd) as [Hnd1 Hgone].
  exists s1. split; [done|]. split; [|done].
  split; [done|]. split; [congruence|]. split; [lia|]. split; [done|].
  split; [|split; [|done]].
  - intros q Hq. pose proof (elem_of_delete_at _ _ _ _ Hi Hq) as Hq'.
    destruct (Hptrs q Hq') as [Hqr [Hqin Hql]]. split; [done|].
    assert (q - header_size ≠ ptr - header_size) as Hne.
    { intros Heq. assert (q = ptr) as -> by lia. done. }
    destruct (Hkeep _ Hne Hql) as [Hload Hkept].
    split; [by apply Hkept|congruence].
  - intros a Ha. destruct (Hlive1 a Ha) as [Hla Hne]. specialize (Hne Hnn).
    apply (elem_of_delete_other _ _ _ _ Hi); [by apply Hlive|lia].
Qed.

Lemma tester_realloc_inv bound s allocations k0 k1 index ptr n :
  tester_inv bound (s, allocations, k0) →
  allocations !! index = Some ptr →
  0 < n ≤ max_block_size → (bound < fuel)%nat →
  ∃ st,
    match mem_realloc fuel (os s) s ptr n with
    | None => None
    | Some (s, new_ptr) =>
      if new_ptr =? nullptr then Some (s, allocations, k1)
      else
        let '(m, k) := random_input rand garbled k1 (mem s) new_ptr n in
        Some (set_mem m s, <[index := new_ptr]> allocations, k)
    end = Some st
    ∧ tester_inv (bound + 2) st.
Proof.
  intros (Hwf & Hdef & Hlen & Hnd & Hptrs & Hlive & Hsettled) Hi Hn Hfuel.
  destruct max_block_size_range as [Hmax Hhi].
  assert (ptr ∈ allocations) as Hin by (by eapply list_elem_of_lookup_2).
  destruct (Hptrs ptr Hin) as [Hrange Hlb].
  assert (wrap (ptr - header_size) = ptr - header_size) as Hblock
    by (apply wrap_small; unfold header_size in *; lia).
  assert (ptr ≠ nullptr) as Hnn by (unfold nullptr, header_size in *; lia).
  destruct (mem_realloc_live fuel (os s) s ptr n Hwf)
    as (s1 & p & Hrun & Hwf1 & Hdef1 & Hnull & Hlen1 & Hgot);
    [unfold header_size in *; lia|lia|lia|rewrite Hdef; unfold modulus; lia
    |by apply os_fresh|lia|].
  rewrite Hrun. rewrite Hblock in Hgot.
  destruct (Z.eqb_spec p nullptr) as [->|Hp].
  { rewrite (Hnull eq_refl). eexists. split; [done|].
    split; [done|]. split; [done|]. split; [lia|]. done. }
  destruct (Hgot Hnn Hp)
    as (Htr & Hprange & Hlive1 & Hnew & Hmoved & Hfresh & Hframe).
  destruct (Hnew (proj2 Hlb)) as [Hnewlive Hsize].
  set (b := p - header_size) in *.
  assert (p = b + header_size) as Hpb by (unfold b; lia).
  unfold random_input. eexists. split; [done|].
  destruct (overwrite_layout (garbled p (random_bytes rand k1 n) (mem s1))
              s1 b n Hwf1 (proj1 Hnewlive) ltac:(lia))
    as [Hwf2 Hsame].
  rewrite <- Hpb in Hwf2, Hsame.
  split; [done|]. split; [cbn; congruence|]. split; [cbn; lia|].
  assert (∀ a, live s1 a →
            live (set_mem (overwrite (garbled p (random_bytes rand k1 n) (mem s1))
                             (mem s1) p n) s1) a) as Hlift.
  { intros a [Ha Hl]. split; [done|]. cbn [mem set_mem]. by rewrite Hsame. }
  split; [|split; [|split]].
  - destruct (Z.eq_dec p ptr) as [->|Hne].
    + by rewrite list_insert_id.
    + apply (NoDup_insert_at _ _ _ _ Hi Hnd).
      intros Hpin. destruct (Hptrs p Hpin) as [_ Hl]. by apply (Hfresh Hne).
  - intros q Hq. apply (elem_of_insert_at _ _ _ _ _ Hi) in Hq as [->|Hq].
    + split; [done|]. by apply Hlift.
    + pose proof (elem_of_delete_at _ _ _ _ Hi Hq) as Hq'.
      destruct (NoDup_delete_at _ _ _ Hi Hnd) as [_ Hgone].
      destruct (Hptrs q Hq') as [Hqr Hql]. split; [done|].
      apply Hlift, Hframe; [done|]. intros _ Heq.
      assert (q = ptr) as -> by lia. done.
  - intros a [Ha Hl]. cbn [mem block_map set_mem] in Ha, Hl.
    rewrite Hsame in Hl by done.
    apply (elem_of_insert_at _ _ _ _ _ Hi).
    destruct (Hlive1 a (conj Ha Hl)) as [->|[Hla Hne]]; [left; lia|].
    destruct (Z.eq_dec p ptr) as [->|Hpne].
    + destruct (Z.eq_dec (a + header_size) ptr) as [Heq|Hneq]; [by left|].
      right. apply (elem_of_delete_other _ _ _ _ Hi); [by apply Hlive|done].
    + right. apply (elem_of_delete_other _ _ _ _ Hi); [by apply Hlive|].
      specialize (Hne Hpne). lia.
  - intros Heq. apply (f_equal length) in Heq. rewrite length_insert in Heq.
    apply lookup_lt_Some in Hi. simpl in Heq. lia.
Qed.

Lemma tester_step_inv bound st :
  tester_inv bound st → (bound < fuel)%nat →
  ∃ st', tester_step fuel os rand garbled max_block_size st = Some st'
         ∧ tester_inv (bound + 2) st'.
Proof.
  destruct st as [[s allocations] k]. intros Hinv Hfuel.
  pose proof Hinv as (Hwf & Hdef & Hlen & Hrest).
  destruct max_block_size_range as [Hmax Hhi].
  assert (tester_inv (bound + 2) (s, allocations, S k)) as Hidle.
  { split; [done|]. split; [done|]. split; [lia|]. done. }
  unfold tester_step.
  assert ((max_block_size =? 0) = false) as Hmax0 by (apply Z.eqb_neq; lia).
  destruct (rand k mod 3 =? 0).
  { rewrite Hmax0. apply (tester_alloc_inv bound s allocations k); [done| |done].
    by apply tester_size. }
  destruct (rand k mod 3 =? 1).
  { destruct allocations as [|p0 rest]; [by eauto|].
    destruct (tester_index (p0 :: rest) (rand (S k))) as [ptr Hi]; [done|done|].
    rewrite Hi.
    destruct (tester_free_inv bound s (p0 :: rest) k (S (S k)) _ ptr Hinv Hi)
      as (s1 & Hrun & (H1 & H2 & H3 & H4) & _).
    rewrite Hrun. eexists. split; [done|].
    split; [done|]. split; [done|]. split; [lia|]. done. }
  destruct (rand k mod 3 =? 2); [|by eauto].
  destruct allocations as [|p0 rest]; [by eauto|].
  destruct (tester_index (p0 :: rest) (rand (S k))) as [ptr Hi]; [done|done|].
  rewrite Hi, Hmax0.
  apply (tester_realloc_inv bound s (p0 :: rest) k); [done|done| |done].
  by apply tester_size.
Qed.

Lemma tester_loop_inv : ∀ iterations bound st,
  tester_inv bound st → (bound + 2 * iterations < fuel)%nat →
  ∃ st', tester_loop fuel os rand garbled max_block_size iterations st = Some st'
         ∧ tester_inv (bound + 2 * iterations) st'.
Proof.
  induction iterations as [|n IH]; intros bound st Hinv Hfuel; cbn [tester_loop].
  - exists st. split; [done|]. by rewrite Nat.add_0_r.
  - destruct (tester_step_inv bound st Hinv ltac:(lia)) as (st1 & Hstep & Hinv1).
    rewrite Hstep.
    destruct st1 as [[s1 allocations1] k1]. cbn [fst].
    pose proof Hinv1 as (Hwf1 & _ & Hlen1 & _).
    unfold mem_show. rewrite (mem_show_layout fuel s1 Hwf1 ltac:(lia) _ ltac:(done)).
    destruct (IH (bound + 2)%nat _ Hinv1 ltac:(lia)) as (st' & Hloop & Hinv').
    exists st'. split; [done|].
    replace (bound + 2 * S n)%nat with (bound + 2 + 2 * n)%nat by lia. done.
Qed.

Lemma free_all_inv : ∀ allocations bound s k,
  tester_inv bound (s, allocations, k) →
  ∃ s', free_all s allocations = Some s'
        ∧ well_formed s'
        ∧ arena_list s' = arena_list s
        ∧ (∀ a, ¬ live s' a)
        ∧ no_adjacent_free s'.
Proof.
  induction allocations as [|ptr rest IH]; intros bound s k Hinv; simpl.
  - destruct Hinv as (Hwf & _ & _ & _ & _ & Hlive & Hsettled).
    exists s. split; [done|]. split; [done|]. split; [done|].
    split; [|by apply Hsettled].
    intros a Ha. by apply Hlive, elem_of_nil in Ha.
  - destruct (tester_free_inv bound s (ptr :: rest) k k 0%nat ptr Hinv eq_refl)
      as (s1 & Hrun & Hinv1 & Hsettled1 & Hal1).
    rewrite Hrun. simpl in Hinv1.
    destruct (IH bound s1 k Hinv1) as (s' & Hfree & Hwf' & Hal' & Hnone & Hsettled').
    exists s'. split; [done|]. split; [done|]. split; [congruence|]. done.
Qed.

End driver.

(** ** Checking a layout by evaluation *)

Lemma block_ok_check_sound m base limit a :
  block_ok_check m base limit a = true → block_ok m base limit a.
Proof.
  unfold block_ok_check, block_ok. rewrite !andb_true_iff.
  intros [[[H1 H2] H3] H4].
  apply Z.leb_le in H1, H2. apply bool_decide_eq_true in H3, H4. done.
Qed.

Lemma leads_check_sound m base limit : ∀ blocks a target,
  leads_check m base limit a blocks target = true →
  leads m base limit a blocks target.
Proof.
  induction blocks as [|b rest IH]; intros a target; simpl.
  - by intros ?%Z.eqb_eq.
  - rewrite !andb_true_iff. intros [[H1 H2] H3]. apply Z.eqb_eq in H1.
    split; [done|]. split; [by apply block_ok_check_sound|by apply IH].
Qed.

Lemma arena_tiled_check_sound m arena blocks :
  arena_tiled_check m arena blocks = true → arena_tiled m arena blocks.
Proof.
  unfold arena_tiled_check, arena_tiled. rewrite !andb_true_iff.
  intros [[H1 H2] H3]. apply Z.leb_le in H1. apply Z.ltb_lt in H2.
  split; [done|]. split; [done|]. by apply leads_check_sound.
Qed.

Lemma apart_check_sound a1 a2 : apart_check a1 a2 = true → apart a1 a2.
Proof.
  unfold apart_check, apart. rewrite orb_true_iff, !Z.ltb_lt. done.
Qed.

Lemma well_formed_check_sound fuel s :
  well_formed_check fuel s = true → well_formed s.
Proof.
  unfold well_formed_check. rewrite !andb_true_iff.
  intros [[[H1 H2] H3] H4].
  rewrite forallb_forall in H1, H2, H3, H4.
  assert (∀ ar, ar ∈ arena_list s →
            arena_tiled (mem s) ar (arena_blocks fuel (mem s) ar)) as Htiled.
  { intros ar Har. apply arena_tiled_check_sound, H2.
    by apply list_elem_of_In. }
  split; [|split].
  - intros ar ar' Har Har' Hne.
    apply list_elem_of_In in Har, Har'. specialize (H1 ar Har).
    rewrite forallb_forall in H1. specialize (H1 ar' Har').
    apply orb_true_iff in H1 as [H1|H1].
    + by apply bool_decide_eq_true in H1.
    + by apply apart_check_sound.
  - intros ar Har. eauto.
  - intros a. split.
    + intros Ha. apply list_elem_of_In in Ha. specialize (H3 a Ha).
      apply existsb_exists in H3 as (ar & Har & Hin).
      apply list_elem_of_In in Har. apply tracked_true in Hin. eauto 6.
    + intros (ar & bl & Har & Hbl & Hin).
      rewrite (arena_tiled_unique _ _ _ _ Hbl (Htiled ar Har)) in Hin.
      apply list_elem_of_In in Har, Hin. specialize (H4 ar Har).
      rewrite forallb_forall in H4. by apply tracked_true, H4.
Qed.

Lemma fresh_region_check_sound s base asize :
  fresh_region_check s base asize = true → fresh_region s base asize.
Proof.
  unfold fresh_region_check, fresh_region. rewrite !andb_true_iff.
  intros [[H1 H2] H3]. apply Z.leb_le in H1. apply Z.ltb_lt in H2.
  rewrite forallb_forall in H3.
  split; [done|]. split; [done|].
  intros ar Har. apply apart_check_sound, H3. by apply list_elem_of_In.
Qed.

Lemma in_address_space_check_sound m bm :
  in_address_space_check m bm = true → in_address_space m bm.
Proof.
  unfold in_address_space_check, in_address_space.
  rewrite forallb_forall. intros H a Ha. apply list_elem_of_In in Ha.
  specialize (H a Ha). rewrite !andb_true_iff in H.
  destruct H as [[H1 H2] H3].
  apply Z.leb_le in H1, H2. apply Z.ltb_lt in H3. done.
Qed.

(** With every tracked block free and no two of them adjacent, each arena
    is the one block [arena_create] made of it. *)
Lemma all_free_whole s :
  well_formed s → (∀ a, ¬ live s a) → no_adjacent_free s →
  ∀ a, a ∈ block_map s →
    ∃ ar, ar ∈ arena_list s ∧ a = Arena.base ar
          ∧ load (mem s) a
            = BlockHeader.mk (Arena.size ar - header_size) true true true.
Proof.
  intros Hwf Hnone Hsettled a Ha. pose proof Hwf as (_ & _ & Htable).
  assert (∀ x, x ∈ block_map s → BlockHeader.is_free (load (mem s) x) = true)
    as Hfree.
  { intros x Hx. destruct (BlockHeader.is_free (load (mem s) x)) eqn:E; [done|].
    by destruct (Hnone x). }
  apply Htable in Ha as (ar & bl & Har & Hbl & Hin).
  exists ar. split; [done|].
  pose proof Hbl as (_ & _ & Hl).
  destruct bl as [|b0 rest]; [by apply elem_of_nil in Hin|].
  simpl in Hl. destruct Hl as (-> & Hok & Hrest).
  assert (Arena.base ar ∈ block_map s) as Hb0.
  { apply Htable. exists ar, (Arena.base ar :: rest).
    split; [done|]. split; [done|]. apply elem_of_cons. by left. }
  destruct rest as [|c rest].
  - apply list_elem_of_singleton in Hin as ->. split; [done|].
    simpl in Hrest. destruct Hok as (_ & _ & Hfirst & Hlast).
    specialize (Hfree _ Hb0).
    rewrite bool_decide_eq_true_2 in Hfirst by done.
    rewrite bool_decide_eq_true_2 in Hlast by done.
    unfold block_end in Hrest.
    destruct (load (mem s) (Arena.base ar)) as [sz f fi la]. simpl in *.
    subst. f_equal. lia.
  - exfalso. simpl in Hrest. destruct Hrest as (-> & _ & _).
    assert (block_end (mem s) (Arena.base ar) ∈ block_map s) as Hc.
    { apply Htable. exists ar, (Arena.base ar :: block_end (mem s) (Arena.base ar) :: rest).
      split; [done|]. split; [done|].
      apply elem_of_cons. right. apply elem_of_cons. by left. }
    destruct (successor_block_end _ _ _ _ Hbl
                ltac:(apply elem_of_cons; by left)) as (Hsucc & _).
    specialize (Hsettled _ Hb0). unfold mergeable in Hsettled.
    rewrite Hsucc, (Hfree _ Hb0), (Hfree _ Hc) in Hsettled.
    apply tracked_true in Hc. rewrite Hc in Hsettled. done.
Qed.

(** X11.  [tester] started over a well-formed layout in which every tracked
    block is free and no two free blocks are adjacent (the state before the
    first call is one), for every sequence of non-negative [rand()] values,
    every way stored bytes read back as headers, [max_block_size] positive
    and at most 2^64 - 20, a provider that refuses or grants a region apart
    from every arena, and fuel above the table's length plus twice the
    number of iterations: the run comes to its end, every [mem_show]
    included; the layout is well formed; and every tracked block is the one
    free block that spans its arena, as [arena_create] made it. *)
Theorem tester_leaves_every_arena_whole
  (fuel : nat) (os : state → provider) (rand : rand_source)
  (garbled : garbling) (iterations : nat) (max_block_size : Z)
  (s : state) :
  well_formed s →
  (∀ a, a ∈ block_map s → BlockHeader.is_free (load (mem s) a) = true) →
  no_adjacent_free s →
  (∀ k, 0 ≤ rand k) →
  0 < max_block_size ∧ max_block_size + header_size + 4 ≤ modulus →
  (∀ s' size, well_formed s' →
     os s' size = nullptr ∨ fresh_region s' (os s' size) size) →
  (length (block_map s) + 2 * iterations < fuel)%nat →
  ∃ s',
    tester fuel os rand garbled iterations max_block_size s = Some s'
    ∧ well_formed s'
    ∧ ∀ a, a ∈ block_map s' →
        ∃ ar, ar ∈ arena_list s' ∧ a = Arena.base ar
              ∧ load (mem s') a
                = BlockHeader.mk (Arena.size ar - header_size) true true true.
Proof.
  intros Hwf Hfree Hsettled Hrand Hmax Hos Hfuel. unfold tester.
  set (s0 := State 4096 (arena_list s) (mem s) (block_map s)).
  assert (tester_inv (length (block_map s)) (s0, [], 0%nat)) as Hinv.
  { split; [exact Hwf|]. split; [done|]. split; [done|].
    split; [apply NoDup_nil_2|]. split; [by intros p ?%elem_of_nil|].
    split; [|intros _; exact Hsettled].
    intros a [Ha Hl]. cbn [s0 mem block_map] in Ha, Hl.
    rewrite (Hfree a Ha) in Hl. done. }
  destruct (tester_loop_inv fuel os rand garbled max_block_size Hrand Hmax Hos
              iterations _ _ Hinv Hfuel) as ([[s1 allocations] k] & Hloop & Hinv1).
  rewrite Hloop.
  destruct (free_all_inv allocations _ s1 k Hinv1)
    as (s' & Hrun & Hwf' & _ & Hnone & Hsettled').
  exists s'. split; [done|]. split; [done|].
  by apply all_free_whole.
Qed.

(** X12.  The bytes [mem_alloc] hands out can be written: under the
    assumptions of X7, storing [n] bytes at the returned pointer, whatever
    they are, changes no tracked header and leaves the layout well formed. *)
Theorem allocated_bytes_are_writable
  (fuel : nat) (os : provider) (s : state) (n : Z)
  (garbled : Z → BlockHeader.t) :
  let asize :=
    align (Z.max (align n + header_size) (default_arena_size s)) in
  well_formed s →
  0 < n → n + header_size + 4 ≤ modulus →
  0 ≤ default_arena_size s ≤ modulus - 4 →
  (os asize = nullptr ∨ fresh_region s (os asize) asize) →
  (length (block_map s) < fuel)%nat →
  ∃ s' p,
    mem_alloc fuel os s n = Some (s', p)
    ∧ (p ≠ nullptr →
       well_formed (set_mem (overwrite garbled (mem s') p n) s')
       ∧ ∀ a, a ∈ block_map s' →
           load (overwrite garbled (mem s') p n) a = load (mem s') a).
Proof.
  intros asize Hwf H0 Hn Hdef Hos Hfuel.
  destruct (mem_alloc_layout fuel os s n Hwf H0 Hn Hdef Hos Hfuel)
    as (s' & p & Hrun & Hwf' & _ & _ & Hgot).
  exists s', p. split; [done|]. intros Hp.
  destruct (Hgot Hp) as (_ & Hin & _ & Hsize & _).
  replace p with (p - header_size + header_size) by lia.
  apply overwrite_layout; [done|done|lia].
Qed.

Lemma show_block_at m l : map shown_at (map (show_block m) l) = l.
Proof. induction l as [|b l IH]; simpl; [done|]. by rewrite IH. Qed.

Lemma show_block_sizes m l :
  foldr (λ line acc, header_size + shown_size line + acc) 0
    (map (show_block m) l)
  = foldr (λ a acc, header_size + BlockHeader.size (load m a) + acc) 0 l.
Proof. induction l as [|b l IH]; simpl; [done|]. by rewrite IH. Qed.

(** X13.  [mem_show] over a well-formed layout, with fuel for as many
    blocks as the table tracks: it returns, with one group of lines per
    arena in list order, headed by the arena's size.  The lines of an arena
    are the blocks of the walk over it, in address order; their headers and
    sizes add up to the arena's size; each line shows a tracked block with
    its size, [Busy] exactly when the block is not free, the star exactly
    when it is not busy, [First] on the first line only and [Last] on the
    last line only.  Every tracked block is on some line. *)
Theorem mem_show_lists_the_layout (fuel : nat) (s : state) :
  well_formed s →
  (length (block_map s) ≤ fuel)%nat →
  ∃ shown,
    mem_show fuel s = Some shown
    ∧ length shown = length (arena_list s)
    ∧ (∀ i ar, arena_list s !! i = Some ar →
         ∃ lines,
           shown !! i = Some (Arena.size ar, lines)
           ∧ map shown_at lines = arena_blocks fuel (mem s) ar
           ∧ foldr (λ line acc, header_size + shown_size line + acc) 0 lines
             = Arena.size ar
           ∧ ∀ j line, lines !! j = Some line →
               shown_at line ∈ block_map s
               ∧ shown_size line
                 = BlockHeader.size (load (mem s) (shown_at line))
               ∧ shown_busy line
                 = negb (BlockHeader.is_free (load (mem s) (shown_at line)))
               ∧ shown_star line = negb (shown_busy line)
               ∧ (shown_first line = true ↔ j = 0%nat)
               ∧ (shown_last line = true ↔ S j = length lines))
    ∧ (∀ a, a ∈ block_map s →
         ∃ i lines line,
           shown !! i = Some lines ∧ line ∈ lines.2 ∧ shown_at line = a).
Proof.
  intros Hwf Hfuel. pose proof Hwf as (_ & Htiled & Htable).
  eexists. split; [by apply (mem_show_layout fuel s Hwf Hfuel)|].
  split; [by rewrite length_map|]. split.
  - intros i ar Hi.
    assert (ar ∈ arena_list s) as Har by (by eapply list_elem_of_lookup_2).
    destruct (Htiled ar Har) as [blocks Hblocks].
    destruct (tiled_walk fuel s ar blocks Hwf Har Hblocks Hfuel)
      as (Hw & He & Hs).
    eexists. split; [by rewrite list_lookup_fmap, Hi|].
    split; [|split].
    + apply show_block_at.
    + rewrite <- Hs. apply show_block_sizes.
    + intros j line Hj. rewrite Hw in *. rewrite list_lookup_fmap in Hj.
      destruct (blocks !! j) as [a|] eqn:Ha; [|done]. simpl in Hj.
      injection Hj as <-. cbn [show_block shown_at shown_size shown_busy
                                 shown_star shown_first shown_last].
      pose proof Hblocks as (_ & _ & Hl).
      destruct (leads_positions _ _ _ _ _ _ _ Hl Ha)
        as (H0 & Hpos & Hlast & Hfirst & _).
      split; [apply Htable; exists ar, blocks;
              split; [done|split; [done|by eapply list_elem_of_lookup_2]]|].
      split; [done|].
      split; [by destruct (BlockHeader.is_free _)|].
      split; [by destruct (BlockHeader.is_free _)|].
      split; [|by rewrite length_map].
      rewrite Hfirst. split.
      * intros ->. destruct j; [done|]. specialize (Hpos ltac:(done)).
        unfold header_size in *. lia.
      * intros ->. by apply H0.
  - intros a Ha. apply Htable in Ha as (ar & blocks & Har & Hblocks & Hin).
    destruct (tiled_walk fuel s ar blocks Hwf Har Hblocks Hfuel) as (Hw & _).
    apply list_elem_of_lookup_1 in Har as [i Hi].
    exists i. eexists. exists (show_block (mem s) a).
    split; [by rewrite list_lookup_fmap, Hi|]. split; [|done].
    cbn [snd]. rewrite Hw. by apply list_elem_of_fmap_2.
Qed.

(** X14.  [arena_create] over a well-formed layout, when the size it asks
    the provider for, [align (max size default_arena_size)], is at least a
    header, and the provider refuses or grants a region apart from every
    arena: the layout stays well formed.  On refusal nothing changes and no
    arena is returned.  Otherwise the new arena is returned and is the head
    of the arena list; its base is tracked and holds one free block, first
    and last, of the arena's size less a header; every block tracked before
    keeps its entry and header, and the base is the only new entry. *)
Theorem arena_create_adds_whole_arena (os : provider) (s : state) (size : Z) :
  let asize := align (Z.max size (default_arena_size s)) in
  well_formed s →
  header_size ≤ asize →
  (os asize = nullptr ∨ fresh_region s (os asize) asize) →
  ∃ s1 r,
    arena_create os s size = (s1, r)
    ∧ well_formed s1
    ∧ (os asize = nullptr → r = None ∧ s1 = s)
    ∧ (os asize ≠ nullptr →
       r = Some (Arena.mk asize (os asize))
       ∧ arena_list s1 = Arena.mk asize (os asize) :: arena_list s
       ∧ os asize ∈ block_map s1
       ∧ load (mem s1) (os asize)
         = BlockHeader.mk (asize - header_size) true true true
       ∧ (∀ a, a ∈ block_map s →
               a ∈ block_map s1 ∧ load (mem s1) a = load (mem s) a)
       ∧ (∀ a, a ∈ block_map s1 → a = os asize ∨ a ∈ block_map s)).
Proof.
  intros asize Hwf Hlo [Hnull|Hfresh].
  - exists s, None. unfold arena_create. fold asize. rewrite Hnull. simpl.
    split; [done|]. split; [done|]. split; [done|]. intros Hne. done.
  - assert (os asize ≠ nullptr) as Hnn
      by (destruct Hfresh as (? & _); unfold nullptr, header_size in *; lia).
    destruct (arena_create_layout os s size Hwf Hlo Hnn Hfresh)
      as (s1 & Hrun & Hwf1 & Hlist & _ & Hin & _ & Hload & Hold & Hnew).
    exists s1, (Some (Arena.mk asize (os asize))).
    split; [done|]. split; [done|]. split; [done|]. intros _. done.
Qed.

(** X15.  The coalescing pass over a well-formed layout (arenas apart from
    each other): it returns, the layout is well formed again, no tracked
    free block is followed by a tracked free block, the table gains no
    entry, and in every arena the walk still ends and the blocks still add
    up to the arena's size. *)
Theorem block_unite_sound_when_arenas_apart (fuel : nat) (s : state) :
  well_formed s →
  (length (block_map s) ≤ fuel)%nat →
  ∃ s1,
    block_unite s = Some s1
    ∧ well_formed s1
    ∧ arena_list s1 = arena_list s
    ∧ no_adjacent_free s1
    ∧ (∀ a, a ∈ block_map s1 → a ∈ block_map s)
    ∧ ∀ ar, ar ∈ arena_list s →
        arena_walk_ends fuel (mem s1) ar = true
        ∧ arena_sum fuel (mem s1) ar = Arena.size ar.
Proof.
  intros Hwf Hfuel.
  destruct (block_unite_layout s Hwf) as (s1 & Hrun & Hwf1 & Hal & _).
  pose proof (block_unite_length _ _ Hrun) as Hlen.
  destruct (block_unite_live _ _ Hrun) as (Hsub & _).
  exists s1. split; [done|]. split; [done|]. split; [done|].
  split; [by eapply block_unite_settles|]. split; [done|].
  intros ar Har. rewrite <- Hal in Har. pose proof Hwf1 as (_ & Htiled & _).
  destruct (Htiled ar Har) as [blocks Hblocks].
  by destruct (tiled_walk fuel s1 ar blocks Hwf1 Har Hblocks ltac:(lia))
    as (_ & He & Hs).
Qed.

(** X16.  [block_split] over a well-formed layout, of a tracked block for
    an aligned size the block can hold: the layout stays well formed; the
    block stays tracked, keeps its [is_free] flag and holds at least [size]
    bytes; every other tracked block keeps its entry and header; and a new
    entry, if there is one, is a free block that starts where the split
    block now ends and ends where the split block ended before. *)
Theorem block_split_keeps_layout (s : state) (b size : Z) :
  well_formed s → b ∈ block_map s →
  0 ≤ size → size mod 4 = 0 →
  size ≤ BlockHeader.size (load (mem s) b) →
  let s' := block_split s b size in
  well_formed s'
  ∧ b ∈ block_map s'
  ∧ BlockHeader.is_free (load (mem s') b) = BlockHeader.is_free (load (mem s) b)
  ∧ size ≤ BlockHeader.size (load (mem s') b)
  ∧ (∀ a, a ∈ block_map s → a ≠ b →
          a ∈ block_map s' ∧ load (mem s') a = load (mem s) a)
  ∧ (∀ a, a ∈ block_map s' → a ∉ block_map s →
          BlockHeader.is_free (load (mem s') a) = true
          ∧ a = block_end (mem s') b
          ∧ block_end (mem s') a = block_end (mem s) b).
Proof.
  intros Hwf Hb H0 H4 Hle s'.
  destruct (split_layout s b size Hwf Hb H0 H4 Hle)
    as (Hwf' & _ & _ & Hin & Hfree & Hsize & _ & Hothers & Hnew).
  split; [done|]. split; [done|]. split; [done|]. split; [done|].
  split; [done|].
  intros a Ha Hout. destruct (Hnew a Ha Hout) as (Hf & He1 & He2). done.
Qed.

Lemma block_unite_conserves_bytes_witness :
  ∃ s1, block_unite three_free_blocks = Some s1
        ∧ table_bytes (mem s1) (block_map s1) = 4096.
Proof.
  destruct (block_unite three_free_blocks) as [s1|] eqn:E;
    [|vm_compute in E; discriminate E].
  exists s1. split; [reflexivity|].
  destruct (block_unite_conserves_bytes three_free_blocks s1) as (Hb & _).
  - apply (bool_decide_eq_true_1 (NoDup (block_map three_free_blocks))).
    vm_compute. reflexivity.
  - apply in_address_space_check_sound. vm_compute. reflexivity.
  - exact E.
  - rewrite Hb. vm_compute. reflexivity.
Defined.

Lemma mem_alloc_keeps_layout_witness :
  let s := reached three_blocks_middle_freed in
  ∃ s' p,
    mem_alloc 5 (os_at 131072) s 100 = Some (s', p)
    ∧ well_formed s' ∧ p ≠ nullptr
    ∧ 100 ≤ BlockHeader.size (load (mem s') (p - header_size)).
Proof.
  intros s.
  destruct (mem_alloc_keeps_layout 5%nat (os_at 131072) s 100)
    as (s' & p & Hrun & Hwf & Hnull & Hgot).
  - apply (well_formed_check_sound 4). vm_compute. reflexivity.
  - lia.
  - unfold header_size, modulus. lia.
  - vm_compute. split; discriminate.
  - right. apply fresh_region_check_sound. vm_compute. reflexivity.
  - vm_compute. lia.
  - exists s', p. split; [exact Hrun|]. split; [exact Hwf|].
    assert (p ≠ nullptr) as Hp.
    { intros Hp. destruct (Hnull Hp) as (_ & Hos & _). vm_compute in Hos.
      discriminate Hos. }
    split; [exact Hp|]. destruct (Hgot Hp) as (_ & _ & Hsize & _). exact Hsize.
Defined.

Lemma mem_free_keeps_layout_witness :
  let s := reached three_blocks_middle_freed in
  ∃ s1, mem_free s 65552 = Some s1
        ∧ well_formed s1
        ∧ BlockHeader.is_free (load (mem s1) 65536) = true
        ∧ no_adjacent_free s1.
Proof.
  intros s.
  destruct (mem_free_keeps_layout s 65552)
    as (s1 & Hrun & Hwf & _ & _ & _ & _ & Hfreed).
  - apply (well_formed_check_sound 4). vm_compute. reflexivity.
  - exists s1. split; [exact Hrun|]. split; [exact Hwf|].
    apply Hfreed.
    + vm_compute. discriminate.
    + apply tracked_true. vm_compute. reflexivity.
Defined.

Lemma mem_realloc_keeps_layout_witness :
  let s := reached three_blocks_middle_freed in
  ∃ s' p,
    mem_realloc 5 (os_at 131072) s 65552 300 = Some (s', p)
    ∧ well_formed s'
    ∧ (p = nullptr → s' = s).
Proof.
  intros s.
  destruct (mem_realloc_keeps_layout 5%nat (os_at 131072) s 65552 300)
    as (s' & p & Hrun & Hwf & _ & Hnull & _).
  - apply (well_formed_check_sound 4). vm_compute. reflexivity.
  - unfold modulus. lia.
  - lia.
  - unfold header_size, modulus. lia.
  - vm_compute. split; discriminate.
  - right. apply fresh_region_check_sound. vm_compute. reflexivity.
  - vm_compute. lia.
  - exists s', p. split; [exact Hrun|]. split; [exact Hwf|exact Hnull].
Defined.

Lemma layout_gives_invariants_witness :
  let s := reached three_blocks_middle_freed in
  arena_walk_ends 4 (mem s) (Arena.mk 4096 65536) = true
  ∧ arena_sum 4 (mem s) (Arena.mk 4096 65536) = 4096
  ∧ (block_end (mem s) 65536 ≤ 65968 ∨ block_end (mem s) 65968 ≤ 65536).
Proof.
  intros s.
  destruct (layout_gives_invariants 4%nat s) as (Harenas & _ & Hapart).
  - apply (well_formed_check_sound 4). vm_compute. reflexivity.
  - vm_compute. lia.
  - destruct (Harenas (Arena.mk 4096 65536)) as (He & Hs & _).
    + apply (bool_decide_eq_true_1 (Arena.mk 4096 65536 ∈ arena_list s)).
      vm_compute. reflexivity.
    + split; [exact He|]. split; [exact Hs|].
      apply Hapart.
      * apply tracked_true. vm_compute. reflexivity.
      * apply tracked_true. vm_compute. reflexivity.
      * discriminate.
Defined.

Lemma tester_leaves_every_arena_whole_witness :
  ∃ s',
    tester 12 os_above sample_rand (λ _ _ _ _, BlockHeader.zero) 5 64 (initial 0)
    = Some s'
    ∧ well_formed s'
    ∧ ∀ a, a ∈ block_map s' →
        ∃ ar, ar ∈ arena_list s' ∧ a = Arena.base ar
              ∧ load (mem s') a
                = BlockHeader.mk (Arena.size ar - header_size) true true true.
Proof.
  apply (tester_leaves_every_arena_whole 12%nat os_above sample_rand
           (λ _ _ _ _, BlockHeader.zero) 5%nat 64 (initial 0)).
  - apply initial_well_formed.
  - intros a Ha. apply elem_of_nil in Ha. destruct Ha.
  - intros a Ha. apply elem_of_nil in Ha. destruct Ha.
  - intros k. unfold sample_rand. apply Z.mod_pos_bound. lia.
  - unfold header_size, modulus. lia.
  - intros s' size _. apply os_above_fresh.
  - simpl. lia.
Defined.

Lemma allocated_bytes_are_writable_witness :
  ∃ s' p,
    mem_alloc 1 (os_at 65536) (initial 4096) 200 = Some (s', p)
    ∧ (p ≠ nullptr →
       well_formed
         (set_mem (overwrite (λ _, BlockHeader.zero) (mem s') p 200) s')
       ∧ ∀ a, a ∈ block_map s' →
           load (overwrite (λ _, BlockHeader.zero) (mem s') p 200) a
           = load (mem s') a).
Proof.
  apply (allocated_bytes_are_writable 1%nat (os_at 65536) (initial 4096) 200
           (λ _, BlockHeader.zero)).
  - apply initial_well_formed.
  - lia.
  - unfold header_size, modulus. lia.
  - vm_compute. split; discriminate.
  - right. apply fresh_region_check_sound. vm_compute. reflexivity.
  - simpl. lia.
Defined.

Lemma mem_show_lists_the_layout_witness :
  let s := reached three_blocks_middle_freed in
  ∃ shown, mem_show 4 s = Some shown ∧ length shown = 1%nat.
Proof.
  intros s.
  destruct (mem_show_lists_the_layout 4%nat s) as (shown & Hrun & Hlen & _).
  - apply (well_formed_check_sound 4). vm_compute. reflexivity.
  - vm_compute. lia.
  - exists shown. split; [exact Hrun|]. rewrite Hlen. vm_compute. reflexivity.
Defined.

Lemma arena_create_adds_whole_arena_witness :
  ∃ s1 r,
    arena_create (os_at 65536) (initial 4096) 216 = (s1, r)
    ∧ well_formed s1
    ∧ r = Some (Arena.mk 4096 65536)
    ∧ load (mem s1) 65536 = BlockHeader.mk 4080 true true true.
Proof.
  destruct (arena_create_adds_whole_arena (os_at 65536) (initial 4096) 216)
    as (s1 & r & Hrun & Hwf & _ & Hmade).
  - apply initial_well_formed.
  - vm_compute. discriminate.
  - right. apply fresh_region_check_sound. vm_compute. reflexivity.
  - exists s1, r. split; [exact Hrun|]. split; [exact Hwf|].
    destruct Hmade as (Hr & _ & _ & Hload & _).
    + vm_compute. discriminate.
    + split; [exact Hr|exact Hload].
Defined.

Lemma block_unite_sound_when_arenas_apart_witness :
  ∃ s1,
    block_unite three_free_blocks = Some s1
    ∧ well_formed s1
    ∧ no_adjacent_free s1
    ∧ arena_sum 3 (mem s1) (Arena.mk 4096 65536) = 4096.
Proof.
  destruct (block_unite_sound_when_arenas_apart 3%nat three_free_blocks)
    as (s1 & Hrun & Hwf & _ & Hsettled & _ & Hsum).
  - apply (well_formed_check_sound 3). vm_compute. reflexivity.
  - simpl. lia.
  - exists s1. split; [exact Hrun|]. split; [exact Hwf|].
    split; [exact Hsettled|].
    destruct (Hsum (Arena.mk 4096 65536)) as [_ Hs].
    + apply (bool_decide_eq_true_1
               (Arena.mk 4096 65536 ∈ arena_list three_free_blocks)).
      vm_compute. reflexivity.
    + exact Hs.
Defined.

Lemma block_split_keeps_layout_witness :
  let s := reached three_blocks_middle_freed in
  let s' := block_split s 66184 100 in
  well_formed s'
  ∧ 100 ≤ BlockHeader.size (load (mem s') 66184)
  ∧ load (mem s') 65536 = load (mem s) 65536.
Proof.
  intros s s'.
  destruct (block_split_keeps_layout s 66184 100)
    as (Hwf & _ & _ & Hsize & Hothers & _).
  - apply (well_formed_check_sound 4). vm_compute. reflexivity.
  - apply tracked_true. vm_compute. reflexivity.
  - lia.
  - reflexivity.
  - vm_compute. discriminate.
  - split; [exact Hwf|]. split; [exact Hsize|].
    destruct (Hothers 65536) as [_ Hload].
    + apply tracked_true. vm_compute. reflexivity.
    + discriminate.
    + exact Hload.
Defined.

(** ** Reuse *)

(** The coalescing pass keeps every free block covered: the bytes of a
    tracked free block end up in a tracked free block that starts no later
    and ends no earlier. *)
Lemma unite_loop_covers fuel : ∀ m visited todo m' bm',
  unite_loop fuel m visited todo = Some (m', bm') →
  in_address_space m (visited ++ todo) →
  ∀ a, a ∈ visited ++ todo → BlockHeader.is_free (load m a) = true →
    ∃ b, b ∈ bm' ∧ BlockHeader.is_free (load m' b) = true
         ∧ b ≤ a ∧ block_end m a ≤ block_end m' b.
Proof.
  induction fuel as [|fuel IH]; intros m visited todo m' bm' Hrun Hsp a Ha Hfree.
  - destruct todo; [|discriminate]. simpl in Hrun. simplify_eq.
    rewrite app_nil_r in Ha. exists a. split; [done|]. split; [done|]. lia.
  - destruct todo as [|block rest].
    { simpl in Hrun. simplify_eq. rewrite app_nil_r in Ha.
      exists a. split; [done|]. split; [done|]. lia. }
    rewrite unite_loop_step in Hrun.
    destruct (mergeable m (visited ++ block :: rest) block) eqn:Hm.
    + assert (block ∈ visited ++ block :: rest) as Hb
        by (apply elem_of_app; right; apply elem_of_cons; by left).
      destruct (merge_in_address_space _ _ _ Hsp Hb Hm) as (Hneq & Hsp' & Hsize).
      pose proof (successor_in_space _ _ _ Hsp Hb) as Hsucc.
      apply mergeable_successor in Hm as (Hfb & Htr & Hfn).
      destruct (Hsp _ Hb) as (_ & Hbs & _).
      destruct (Hsp _ Htr) as (_ & Hns & _).
      set (nx := successor m block) in *.
      apply Z.eqb_neq in Hneq as Hneqb. rewrite Hneqb in Hrun.
      assert (erase nx (visited ++ block :: rest)
              = erase nx visited ++ block :: erase nx rest) as Herase.
      { unfold erase. rewrite filter_app, filter_cons.
        destruct (decide (block ≠ nx)) as [|Hn]; [done|].
        destruct Hn. congruence. }
      rewrite Herase in Hsp'.
      assert (block ∈ erase nx visited ++ block :: erase nx rest) as Hb'
        by (apply elem_of_app; right; apply elem_of_cons; by left).
      assert (BlockHeader.is_free (load (merge_into m block nx) block) = true)
        as Hfb' by (by rewrite merge_into_is_free).
      destruct (decide (a = nx ∨ a = block)) as [Hcase|Hother].
      * destruct (IH _ _ _ _ _ Hrun Hsp' block Hb' Hfb')
          as (b & Hin & Hf & Hle & Hend).
        exists b. split; [done|]. split; [done|].
        unfold block_end in *. rewrite Hsize in Hend.
        destruct Hcase as [->| ->]; unfold header_size in *; lia.
      * assert (a ≠ nx ∧ a ≠ block) as [Hanx Hab] by tauto.
        destruct (IH _ _ _ _ _ Hrun Hsp' a) as (b & Hin & Hf & Hle & Hend).
        -- rewrite <- Herase. by apply elem_of_erase.
        -- by rewrite merge_into_is_free.
        -- exists b. split; [done|]. split; [done|]. split; [done|].
           unfold block_end in *. by rewrite merge_into_other in Hend.
    + replace (visited ++ block :: rest) with ((visited ++ [block]) ++ rest)
        in * by (by rewrite <- app_assoc).
      by eapply IH.
Qed.

Lemma well_formed_in_address_space s :
  well_formed s → in_address_space (mem s) (block_map s).
Proof.
  intros Hwf a Ha. destruct (tracked_bounds _ _ Hwf Ha) as (H1 & H2 & H3).
  pose proof Hwf as (_ & _ & Htable).
  apply Htable in Ha as (ar & bl & Har & Hbl & Hin).
  destruct (successor_block_end _ _ _ _ Hbl Hin) as (_ & _ & Hend).
  unfold block_end, header_size in *. lia.
Qed.

(** X17.  Freed memory can be handed out again.  Over a well-formed
    layout, after [mem_free] of a tracked block, a request whose aligned
    size the freed block could hold is served by [mem_alloc] even when the
    provider refuses: the result is not null, no arena is added, and the
    layout is well formed. *)
Theorem freed_block_is_reusable
  (fuel : nat) (os : provider) (s : state) (ptr n : Z) :
  let block := wrap (ptr - header_size) in
  well_formed s →
  ptr ≠ nullptr → block ∈ block_map s →
  0 < n → n + header_size + 4 ≤ modulus →
  align n ≤ BlockHeader.size (load (mem s) block) →
  0 ≤ default_arena_size s ≤ modulus - 4 →
  (length (block_map s) < fuel)%nat →
  ∃ s1 s2 p,
    mem_free s ptr = Some s1
    ∧ mem_alloc fuel os_refuses s1 n = Some (s2, p)
    ∧ p ≠ nullptr
    ∧ well_formed s2
    ∧ arena_list s2 = arena_list s.
Proof.
  intros block Hwf Hnn Htr H0 Hn Hfit Hdef Hfuel.
  destruct (mem_free_live s ptr Hwf)
    as (s1 & Hrun & Hwf1 & Hal & Hdef1 & _ & Hlen & _ & _ & _).
  (* a free tracked block of [s1] covers the freed one *)
  assert (∃ b, b ∈ block_map s1
               ∧ fits (mem s1) (align n) b = true) as (b & Hb & Hfits).
  { pose proof Hrun as Hrun'. unfold mem_free in Hrun'.
    apply Z.eqb_neq in Hnn as Hnnb. rewrite Hnnb in Hrun'. fold block in Hrun'.
    apply tracked_true in Htr as Htrb. rewrite Htrb in Hrun'.
    unfold block_unite in Hrun'. cbn [mem block_map set_mem] in Hrun'.
    destruct (unite_loop _ _ _ _) as [[m' bm']|] eqn:Hloop; [|discriminate].
    simplify_eq. cbn [mem block_map].
    destruct (unite_loop_covers _ _ _ _ _ _ Hloop) with (a := block)
      as (b & Hin & Hf & Hle & Hend).
    - intros a Ha. simpl in Ha.
      destruct (well_formed_in_address_space s Hwf a Ha) as (H1 & H2 & H3).
      destruct (Z.eq_dec a block) as [->|Hne].
      + rewrite load_store_eq. by destruct (load (mem s) block).
      + by rewrite load_store_ne.
    - done.
    - by rewrite load_store_eq.
    - exists b. split; [done|]. unfold fits. rewrite Hf. simpl.
      apply Z.leb_le. unfold block_end in Hend. rewrite load_store_eq in Hend.
      assert (BlockHeader.size (BlockHeader.with_free true (load (mem s) block))
              = BlockHeader.size (load (mem s) block)) as Hs
        by (by destruct (load (mem s) block)).
      rewrite Hs in Hend. lia. }
  destruct (mem_alloc_layout fuel os_refuses s1 n Hwf1)
    as (s2 & p & Halloc & Hwf2 & _ & Hnull & Hgot);
    [done|done|by rewrite Hdef1|by left|lia|].
  exists s1, s2, p. split; [done|]. split; [done|].
  assert (p ≠ nullptr) as Hp.
  { intros Hp. destruct (Hnull Hp) as (_ & _ & Hnone).
    rewrite (Hnone b Hb) in Hfits. done. }
  split; [done|]. split; [done|].
  (* no arena was created: the provider refuses *)
  unfold mem_alloc in Halloc.
  assert ((n =? 0) = false) as Hn0 by (apply Z.eqb_neq; lia).
  rewrite Hn0 in Halloc.
  destruct (mem_alloc_scan_layout fuel s1 (align n) Hwf1 ltac:(lia) (arena_list s1))
    as [[Hscan _]|(a & Ha & _ & _ & _ & Hscan)]; [done| |].
  - rewrite Hscan in Halloc. simpl in Halloc. unfold arena_create in Halloc.
    unfold os_refuses in Halloc. simpl in Halloc. simplify_eq.
  - rewrite Hscan in Halloc.
    assert ((a + header_size =? nullptr) = false) as Hne.
    { apply Z.eqb_neq. destruct (tracked_bounds _ _ Hwf1 Ha) as (? & _).
      unfold nullptr, header_size in *. lia. }
    rewrite Hne in Halloc. simplify_eq.
    rewrite (proj1 (hand_out_arena_list _ _ _)). done.
Qed.

(** X18.  The bytes [mem_alloc] hands out overlap no block in use.  Under
    the assumptions of X7, a non-null result [p] is above the null page,
    [p + n] stays in the address space, and every block that was tracked
    and not free is so still, with its header unchanged, and lies entirely
    above the [n] bytes at [p] or entirely below the header in front of
    [p]. *)
Theorem allocations_do_not_overlap
  (fuel : nat) (os : provider) (s : state) (n : Z) :
  let asize :=
    align (Z.max (align n + header_size) (default_arena_size s)) in
  well_formed s →
  0 < n → n + header_size + 4 ≤ modulus →
  0 ≤ default_arena_size s ≤ modulus - 4 →
  (os asize = nullptr ∨ fresh_region s (os asize) asize) →
  (length (block_map s) < fuel)%nat →
  ∃ s' p,
    mem_alloc fuel os s n = Some (s', p)
    ∧ (p ≠ nullptr →
       2 * header_size ≤ p ∧ p + n < modulus
       ∧ ∀ a, live s a →
           live s' a
           ∧ load (mem s') a = load (mem s) a
           ∧ (p + n ≤ a ∨ block_end (mem s) a ≤ p - header_size)).
Proof.
  intros asize Hwf H0 Hn Hdef Hos Hfuel.
  destruct (mem_alloc_layout fuel os s n Hwf H0 Hn Hdef Hos Hfuel)
    as (s' & p & Hrun & Hwf' & _ & _ & Hgot).
  exists s', p. split; [done|]. intros Hp.
  destruct (Hgot Hp) as (Hblo & Hin & Hlive & Hsize & Hwas & Hothers & _).
  set (b := p - header_size) in *.
  destruct (well_formed_in_address_space s' Hwf' b Hin) as (_ & _ & Hend).
  split; [unfold b, header_size in *; lia|].
  split; [unfold b, header_size in *; lia|].
  intros a [Ha Hl].
  assert (a ≠ b) as Hne by (intros ->; specialize (Hwas Ha); congruence).
  destruct (Hothers a Ha Hne) as [Ha' Hload].
  split; [split; [done|congruence]|]. split; [done|].
  destruct (tracked_apart s' a b Hwf' Ha' Hin Hne) as [H|H].
  - right. unfold block_end in *. rewrite Hload in H. done.
  - left. unfold block_end, b in *. lia.
Qed.

Lemma freed_block_is_reusable_witness :
  let s := reached three_blocks_middle_freed in
  ∃ s1 s2 p,
    mem_free s 65552 = Some s1
    ∧ mem_alloc 5 os_refuses s1 200 = Some (s2, p)
    ∧ p ≠ nullptr
    ∧ well_formed s2.
Proof.
  intros s.
  destruct (freed_block_is_reusable 5%nat os_refuses s 65552 200)
    as (s1 & s2 & p & Hfree & Halloc & Hp & Hwf & _).
  - apply (well_formed_check_sound 4). vm_compute. reflexivity.
  - vm_compute. discriminate.
  - apply tracked_true. vm_compute. reflexivity.
  - lia.
  - unfold header_size, modulus. lia.
  - vm_compute. discriminate.
  - vm_compute. split; discriminate.
  - vm_compute. lia.
  - exists s1, s2, p. split; [exact Hfree|]. split; [exact Halloc|].
    split; [exact Hp|exact Hwf].
Defined.

Lemma allocations_do_not_overlap_witness :
  let s := reached three_blocks_middle_freed in
  ∃ s' p,
    mem_alloc 5 os_refuses s 100 = Some (s', p)
    ∧ (p ≠ nullptr →
       live s' 65968
       ∧ (p + 100 ≤ 65968 ∨ block_end (mem s) 65968 ≤ p - header_size)).
Proof.
  intros s.
  destruct (allocations_do_not_overlap 5%nat os_refuses s 100)
    as (s' & p & Hrun & Hgot).
  - apply (well_formed_check_sound 4). vm_compute. reflexivity.
  - lia.
  - unfold header_size, modulus. lia.
  - vm_compute. split; discriminate.
  - left. reflexivity.
  - vm_compute. lia.
  - exists s', p. split; [exact Hrun|]. intros Hp.
    destruct (Hgot Hp) as (_ & _ & Hlive).
    destruct (Hlive 65968) as (Hl & _ & Hapart).
    + split; [apply tracked_true|]; vm_compute; reflexivity.
    + split; [exact Hl|exact Hapart].
Defined.

(** ** The coalescing pass, every traversal order *)

Lemma table_bytes_perm m l1 l2 :
  l1 ≡ₚ l2 → table_bytes m l1 = table_bytes m l2.
Proof. induction 1; simpl; lia. Qed.

(** C4.  For every state and every traversal order of its table (any
    permutation of [block_map]).  The coalescing pass is defined when the
    tracked blocks lie in the address space.  Whenever it yields a state,
    running it again on that state yields the same state, in which no
    tracked free block is followed by a tracked free block; and over a table
    without duplicates in the address space the bytes the table accounts
    for, headers and payloads, are those of before.  In memory: over a
    well-formed layout the pass yields a well-formed layout with the same
    arenas, in which the walk over each arena ends, the blocks it visits add
    up to the arena's size and are all tracked, and no visited block and the
    block visited right after it, which lies at its successor address, are
    both free. *)
Theorem coalesce_pass_idempotent (s : state) (order : list Z) :
  order ≡ₚ block_map s →
  (in_address_space (mem s) (block_map s) →
   is_Some (block_unite (set_block_map order s)))
  ∧ (∀ s1, block_unite (set_block_map order s) = Some s1 →
       block_unite s1 = Some s1
       ∧ no_adjacent_free s1
       ∧ (NoDup (block_map s) → in_address_space (mem s) (block_map s) →
          table_bytes (mem s1) (block_map s1)
          = table_bytes (mem s) (block_map s)))
  ∧ (well_formed s →
     ∃ s1,
       block_unite (set_block_map order s) = Some s1
       ∧ well_formed s1
       ∧ arena_list s1 = arena_list s
       ∧ ∀ fuel ar, (length (block_map s) ≤ fuel)%nat → ar ∈ arena_list s →
           arena_walk_ends fuel (mem s1) ar = true
           ∧ arena_sum fuel (mem s1) ar = Arena.size ar
           ∧ ∀ i a, arena_blocks fuel (mem s1) ar !! i = Some a →
               a ∈ block_map s1
               ∧ ∀ b, arena_blocks fuel (mem s1) ar !! S i = Some b →
                   b = successor (mem s1) a
                   ∧ BlockHeader.is_free (load (mem s1) a)
                     && BlockHeader.is_free (load (mem s1) b) = false).
Proof.
  intros Hperm. split; [|split].
  - intros Hsp. apply block_unite_total. simpl.
    intros a Ha. apply Hsp. by rewrite <- Hperm.
  - intros s1 Hs1. pose proof (block_unite_settles _ _ Hs1) as Hno.
    split; [by apply block_unite_fixpoint|]. split; [done|].
    intros Hnd Hsp.
    unfold block_unite in Hs1. cbn [mem block_map set_block_map] in Hs1.
    destruct (unite_loop _ _ _ _) as [[m' bm']|] eqn:Hrun; [|discriminate].
    simplify_eq. cbn [mem block_map].
    destruct (unite_loop_bytes _ _ _ _ _ _ Hrun) as (Hbytes & _).
    + simpl. by rewrite Hperm.
    + simpl. intros a Ha. apply Hsp. by rewrite <- Hperm.
    + rewrite Hbytes. simpl. by apply table_bytes_perm.
  - intros Hwf.
    assert (well_formed (set_block_map order s)) as Hwf0.
    { unfold well_formed. simpl. eapply layout_table_ext; [|exact Hwf].
      intros a. by rewrite Hperm. }
    destruct (block_unite_layout _ Hwf0) as (s1 & Hrun & Hwf1 & Hal & _).
    pose proof (block_unite_length _ _ Hrun) as Hlen.
    pose proof (block_unite_settles _ _ Hrun) as Hno.
    simpl in Hal, Hlen. rewrite (Permutation_length Hperm) in Hlen.
    exists s1. split; [done|]. split; [done|]. split; [done|].
    intros fuel ar Hfuel Har. rewrite <- Hal in Har.
    pose proof Hwf1 as (_ & Htiled & Htable).
    destruct (Htiled ar Har) as [blocks Hblocks].
    destruct (tiled_walk fuel s1 ar blocks Hwf1 Har Hblocks ltac:(lia))
      as (-> & He & Hs).
    split; [done|]. split; [done|].
    intros i a Hi.
    assert (a ∈ blocks) as Hin by (by eapply list_elem_of_lookup_2).
    assert (a ∈ block_map s1) as Ha by (apply Htable; eauto).
    split; [done|]. intros b Hb.
    pose proof Hblocks as (_ & _ & Hl).
    destruct (leads_positions _ _ _ _ _ _ _ Hl Hi) as (_ & _ & _ & _ & Hnext).
    destruct (successor_block_end _ _ _ _ Hblocks Hin) as (Hsucc & _).
    assert (S i ≠ length blocks) as Hne
      by (apply lookup_lt_Some in Hb; lia).
    rewrite (Hnext Hne) in Hb. injection Hb as <-.
    split; [done|].
    assert (block_end (mem s1) a ∈ block_map s1) as Hbin.
    { apply Htable. exists ar, blocks. split; [done|]. split; [done|].
      eapply list_elem_of_lookup_2. by apply Hnext. }
    specialize (Hno a Ha). unfold mergeable in Hno.
    rewrite Hsucc in Hno. apply tracked_true in Hbin. rewrite Hbin in Hno.
    by rewrite andb_true_r in Hno.
Qed.

Lemma coalesce_pass_idempotent_witness :
  ∃ s1,
    block_unite (set_block_map [65752; 65968; 65536] three_free_blocks) = Some s1
    ∧ block_map s1 = [65536]
    ∧ block_unite s1 = Some s1 ∧ no_adjacent_free s1
    ∧ well_formed s1
    ∧ arena_blocks 3 (mem s1) (Arena.mk 4096 65536) = [65536]
    ∧ arena_sum 3 (mem s1) (Arena.mk 4096 65536) = 4096.
Proof.
  destruct (coalesce_pass_idempotent three_free_blocks [65752; 65968; 65536])
    as (_ & Hidem & Hlayout).
  { apply (Permutation_cons_append [65968; 65536] 65752). }
  destruct Hlayout as (s1 & Hrun & Hwf & _ & Hwalk).
  { apply (well_formed_check_sound 3). vm_compute. reflexivity. }
  exists s1. split; [exact Hrun|].
  destruct (Hidem s1 Hrun) as (Hfix & Hno & _).
  destruct (Hwalk 3%nat (Arena.mk 4096 65536)) as (_ & Hsum & _).
  { simpl. lia. }
  { apply (bool_decide_eq_true_1
             (Arena.mk 4096 65536 ∈ arena_list three_free_blocks)).
    vm_compute. reflexivity. }
  assert (s1 = State 4096 [Arena.mk 4096 65536]
                 (mem s1) [65536]
          ∧ arena_blocks 3 (mem s1) (Arena.mk 4096 65536) = [65536])
    as [Hs1 Hblocks].
  { pose proof Hrun as Hrun'. vm_compute in Hrun'. injection Hrun' as <-.
    split; vm_compute; reflexivity. }
  split; [rewrite Hs1; reflexivity|]. split; [exact Hfix|].
  split; [exact Hno|]. split; [exact Hwf|]. split; [exact Hblocks|exact Hsum].
Defined.
